(** * asyncio_redis: the Redis protocol engine and its connection pool

    A shallow embedding of [asyncio_redis/__init__.py]: the RESP reply
    parser of [RedisProtocol], its pipelined reply queue, MULTI/EXEC
    transactions and the [Connection] pool, followed by the properties
    proved about them.

    Python objects that are shared by reference (futures, multi bulk
    replies, pipelined calls, transaction objects) live in a heap which is
    part of the protocol state and are named by their index.  Synchronous
    methods are functions in a state-and-exception monad [M]; coroutines
    are terms of a free monad [Coro] whose [Await] nodes are the
    [yield from] suspension points. *)

From Stdlib Require Import ZArith Lia.
From Stdlib Require Import Strings.Byte.
From Stdlib Require Import Numbers.DecimalString Numbers.DecimalZ.
From stdpp Require Import base option list gmap strings.

Local Open Scope Z_scope.
Set Warnings "-register-all".

(** ** Bytes and text *)

(** Python [bytes]. *)
Definition bytes := list byte.

(** Python [str]: a sequence of Unicode code points. *)
Definition str := list N.

#[global] Instance byte_eq_dec : EqDecision byte := Byte.byte_eq_dec.

(** A bytes literal written as a Rocq string. *)
Definition b (s : string) : bytes := String.list_byte_of_string s.

(** A str literal written as a Rocq string (code points below 256). *)
Definition u (s : string) : str := map Byte.to_N (String.list_byte_of_string s).

Arguments b : simpl never.
Arguments u : simpl never.

Definition CR : byte := x0d.
Definition LF : byte := x0a.

(** [b'\r\n'] *)
Definition CRLF : bytes := [CR; LF].

(** ** Exceptions *)

(** The messages of the [RedisException]s raised by the module. *)
Inductive RedisError :=
| ServerError (line : bytes)
    (* RedisException(line), built by _handle_error_reply *)
| ConnectionLost (exc : str)
    (* 'Connection lost: %s' % exc *)
| CannotEncode
    (* 'Cannot encode %r' % type(a) *)
| ExpectedQueued
    (* 'Expected to receive QUEUED for query in transaction, received %r.' *)
| TransactionFailed
    (* 'Transaction failed.' *)
| NotInTransaction
    (* 'Not in transaction' *)
| MultiNested
    (* 'Multi calls can not be nested.' *)
| CannotRunInsideTransaction
    (* 'Cannot run command inside transaction' *)
| TransactionFinished
    (* 'Transaction already finished or invalid.' *)
| PoolInUse.
    (* 'All connection in the pool are in use. Please increase the poolsize.' *)

Inductive exn :=
| RedisException (e : RedisError)
| IndexError
| KeyError
| ValueError
| TypeError
| AttributeError
| AssertionError
| RuntimeError
| InvalidStateError
| UnicodeDecodeError
| UnicodeEncodeError.

(** The outcome of a Python call: a value or a raised exception. *)
Inductive Res (A : Type) :=
| Ok (a : A)
| Err (e : exn).
Arguments Ok {A} a.
Arguments Err {A} e.

(** ** Codecs: [str.encode] and [bytes.decode] *)

Record Codec := {
  encode : str -> Res bytes;
  decode : bytes -> Res str
}.

Fixpoint traverse {A B} (f : A -> Res B) (l : list A) : Res (list B) :=
  match l with
  | [] => Ok []
  | x :: l' =>
      match f x with
      | Err e => Err e
      | Ok y => match traverse f l' with
                | Err e => Err e
                | Ok ys => Ok (y :: ys)
                end
      end
  end.

Definition byte_of_N (e : exn) (n : N) : Res byte :=
  match Byte.of_N n with
  | Some c => Ok c
  | None => Err e
  end.

(** The ['ascii'] codec. *)
Definition ascii_encode (s : str) : Res bytes :=
  traverse (fun c => if (c <? 128)%N then byte_of_N UnicodeEncodeError c
                     else Err UnicodeEncodeError) s.

Definition ascii_decode (bs : bytes) : Res str :=
  traverse (fun c => if (Byte.to_N c <? 128)%N then Ok (Byte.to_N c)
                     else Err UnicodeDecodeError) bs.

Definition ascii : Codec := {| encode := ascii_encode; decode := ascii_decode |}.

(** The ['utf-8'] codec (strict error handling). *)
Definition utf8_encode_char (c : N) : Res bytes :=
  let byte_of := byte_of_N UnicodeEncodeError in
  let cont (n : N) := byte_of (N.lor 128 (N.land n 63)) in
  let bytes_of (l : list (Res byte)) := traverse (fun x => x) l in
  if (c <? 128)%N then bytes_of [byte_of c]
  else if (c <? 2048)%N then
    bytes_of [byte_of (N.lor 192 (N.shiftr c 6)); cont c]
  else if (c <? 65536)%N then
    if ((55296 <=? c) && (c <=? 57343))%N then Err UnicodeEncodeError
    else bytes_of [byte_of (N.lor 224 (N.shiftr c 12));
                   cont (N.shiftr c 6); cont c]
  else if (c <? 1114112)%N then
    bytes_of [byte_of (N.lor 240 (N.shiftr c 18));
              cont (N.shiftr c 12); cont (N.shiftr c 6); cont c]
  else Err UnicodeEncodeError.

Definition utf8_encode (s : str) : Res bytes :=
  match traverse utf8_encode_char s with
  | Ok l => Ok (concat l)
  | Err e => Err e
  end.

Definition is_cont (c : byte) : bool :=
  (N.land (Byte.to_N c) 192 =? 128)%N.

Definition cont_bits (c : byte) : N := N.land (Byte.to_N c) 63.

Fixpoint utf8_decode (bs : bytes) : Res str :=
  match bs with
  | [] => Ok []
  | c0 :: r0 =>
      let n0 := Byte.to_N c0 in
      let push (cp : N) (r : Res str) :=
        match r with Ok s => Ok (cp :: s) | Err e => Err e end in
      if (n0 <? 128)%N then push n0 (utf8_decode r0)
      else if (n0 <? 194)%N then Err UnicodeDecodeError
      else if (n0 <? 224)%N then
        match r0 with
        | c1 :: r1 =>
            if is_cont c1
            then push (N.lor (N.shiftl (N.land n0 31) 6) (cont_bits c1))
                      (utf8_decode r1)
            else Err UnicodeDecodeError
        | _ => Err UnicodeDecodeError
        end
      else if (n0 <? 240)%N then
        match r0 with
        | c1 :: c2 :: r2 =>
            let cp := N.lor (N.shiftl (N.land n0 15) 12)
                        (N.lor (N.shiftl (cont_bits c1) 6) (cont_bits c2)) in
            if is_cont c1 && is_cont c2 && (2048 <=? cp)%N
               && negb ((55296 <=? cp) && (cp <=? 57343))%N
            then push cp (utf8_decode r2)
            else Err UnicodeDecodeError
        | _ => Err UnicodeDecodeError
        end
      else if (n0 <? 245)%N then
        match r0 with
        | c1 :: c2 :: c3 :: r3 =>
            let cp := N.lor (N.shiftl (N.land n0 7) 18)
                        (N.lor (N.shiftl (cont_bits c1) 12)
                           (N.lor (N.shiftl (cont_bits c2) 6) (cont_bits c3))) in
            if is_cont c1 && is_cont c2 && is_cont c3
               && (65536 <=? cp)%N && (cp <? 1114112)%N
            then push cp (utf8_decode r3)
            else Err UnicodeDecodeError
        | _ => Err UnicodeDecodeError
        end
      else Err UnicodeDecodeError
  end.

Definition utf8 : Codec := {| encode := utf8_encode; decode := utf8_decode |}.

(** ** Integers in decimal *)

(** [str(value).encode('ascii')] and [(u'%i' % n).encode('ascii')]. *)
Definition bytes_of_int (z : Z) : bytes :=
  String.list_byte_of_string (NilZero.string_of_int (Z.to_int z)).

(** ASCII whitespace, which [int()] strips at both ends. *)
Definition is_space (c : byte) : bool :=
  bool_decide (c ∈ [x20; x09; x0a; x0b; x0c; x0d]).

Definition strip (bs : bytes) : bytes :=
  let lstrip := fix go (l : bytes) : bytes :=
    match l with
    | c :: l' => if is_space c then go l' else l
    | [] => []
    end in
  reverse (lstrip (reverse (lstrip bs))).

Definition digit_of (c : byte) : option Z :=
  let n := Z.of_N (Byte.to_N c) in
  if (48 <=? n) && (n <=? 57) then Some (n - 48) else None.

(** The digits after the first one: a single underscore may stand
    between two digits. *)
Fixpoint digits_value (acc : Z) (bs : bytes) : Res Z :=
  match bs with
  | [] => Ok acc
  | c :: bs' =>
      if bool_decide (c = "_"%byte) then
        match bs' with
        | d :: _ =>
            match digit_of d with
            | Some _ => digits_value acc bs'
            | None => Err ValueError
            end
        | [] => Err ValueError
        end
      else
        match digit_of c with
        | Some d => digits_value (10 * acc + d) bs'
        | None => Err ValueError
        end
  end.

(** [int(line)] on a bytes object: optional surrounding whitespace, an
    optional sign and decimal digits that start with a digit; anything
    else raises [ValueError].  (Python 3.6 and later; before that an
    underscore between digits was an error too.) *)
Definition int (line : bytes) : Res Z :=
  let unsigned (ds : bytes) : Res Z :=
    match ds with
    | c :: _ =>
        match digit_of c with
        | Some _ => digits_value 0 ds
        | None => Err ValueError
        end
    | [] => Err ValueError
    end in
  match strip line with
  | c :: ds =>
      if decide (c = "-"%byte) then
        match unsigned ds with Ok z => Ok (- z) | Err e => Err e end
      else if decide (c = "+"%byte) then unsigned ds
      else unsigned (c :: ds)
  | [] => Err ValueError
  end.

(** [l[:n]] with Python's treatment of a negative bound. *)
Definition slice_to {A} (n : Z) (l : list A) : list A :=
  if 0 <=? n then take (Z.to_nat n) l
  else take (length l - Z.to_nat (- n))%nat l.

(** [line, rest = buffer.split(b'\r\n', 1)], defined when [b'\r\n'] occurs
    in the buffer. *)
Fixpoint split_crlf (buffer : bytes) : option (bytes * bytes) :=
  match buffer with
  | [] => None
  | c :: rest =>
      match rest with
      | d :: rest' =>
          if bool_decide (c = CR) && bool_decide (d = LF)
          then Some ([], rest')
          else match split_crlf rest with
               | Some (line, r) => Some (c :: line, r)
               | None => None
               end
      | [] => None
      end
  end.

(** ** Python values *)

(** The objects that travel through futures and queues. *)
Inductive Value :=
| VNone
| VBool (v : bool)
| VInt (z : Z)
| VStr (s : str)
| VList (l : list Value)
| VStatus (status : str)        (* StatusReply(status) *)
| VMultiBulk (reply : nat)      (* a MultiBulkReply object *)
| VFuture (f : nat)             (* a Future object *)
| VTransaction (t : nat)        (* a Transaction object *)
| VExc (e : exn).               (* an exception instance *)

(** An argument of [_send_command]: a bytes object or anything else. *)
Inductive Arg :=
| ArgBytes (a : bytes)
| ArgOther.

(** [asyncio.Future]: pending, or done with a result or an exception. *)
Inductive FutState :=
| Pending
| Done (r : Res Value).

(** [class MultiBulkReply]: the announced [count] and the items put on
    its [queue] that nobody has taken yet. *)
Record MultiBulkReply := {
  count : Z;
  queue : list Value
}.

(** [class PipelinedCall] *)
Record PipelinedCall := {
  cmd : Arg;
  is_blocking : bool
}.

(** The post-processors of [class _PostProcessor] used by the commands
    modelled below. *)
Inductive PostProcessor :=
| multibulk_as_list
| int_to_bool.

(** An entry [(f, post_process_func, call)] of the transaction answer
    queue. *)
Definition TxEntry : Type := nat * option PostProcessor * option nat.

(** The coroutines that synchronous code wraps in [asyncio.Task]. *)
Inductive TaskSpec :=
| TaskAuth (password : bytes)
    (* self._auth(self.password), which has encoded the password *)
| TaskSelect (db : Z)
    (* self._select(self.db) *)
| TaskPubsubReply (reply : nat)
    (* self._handle_pubsub_multibulk_reply(reply) *)
| TaskHandleResults (reply : nat) (futures : list nat).
    (* handle_results() *)

(** ** The state of a [RedisProtocol] instance

    The attributes set by [connection_made], the class attributes, what
    was written to the transport, and the heap of the objects the
    protocol has created. *)

Record Protocol := {
  (* class attributes *)
  encoding : Codec;
  password : option str;
  db : Z;
  (* every byte passed to transport.write, in order *)
  transport : bytes;
  (* input parser queue: a deque of futures *)
  _queue : list nat;
  (* pubsub queue, None until subscribed *)
  _messages_queue : option (list Value);
  (* input parser state *)
  _buffer : bytes;
  _in_bulk_reply : bool;
  _bulk_reply_len : Z;
  _bulk_reply_buffer : bytes;
  (* state *)
  _in_pubsub : bool;
  _pipelined_calls : gset nat;
  (* transaction related stuff *)
  _in_transaction : bool;
  _transaction : option nat;
  _transaction_response_queue : option (list TxEntry);
  (* heap: Future, MultiBulkReply and PipelinedCall objects by index, the
     number of Transaction objects, and the asyncio.Task objects that
     synchronous code created and the loop has not started yet *)
  futures : list FutState;
  replies : list MultiBulkReply;
  calls : list PipelinedCall;
  transactions : nat;
  tasks : list TaskSpec
}.

(** Attribute assignment: [with_x v p] is [p] after [self.x = v]. *)
Definition with_transport (v : bytes) (p : Protocol) : Protocol :=
  {| encoding := encoding p; password := password p; db := db p;
     transport := v; _queue := _queue p;
     _messages_queue := _messages_queue p; _buffer := _buffer p;
     _in_bulk_reply := _in_bulk_reply p;
     _bulk_reply_len := _bulk_reply_len p;
     _bulk_reply_buffer := _bulk_reply_buffer p; _in_pubsub := _in_pubsub p;
     _pipelined_calls := _pipelined_calls p;
     _in_transaction := _in_transaction p; _transaction := _transaction p;
     _transaction_response_queue := _transaction_response_queue p;
     futures := futures p; replies := replies p; calls := calls p;
     transactions := transactions p; tasks := tasks p |}.

Definition with_queue (v : list nat) (p : Protocol) : Protocol :=
  {| encoding := encoding p; password := password p; db := db p;
     transport := transport p; _queue := v;
     _messages_queue := _messages_queue p; _buffer := _buffer p;
     _in_bulk_reply := _in_bulk_reply p;
     _bulk_reply_len := _bulk_reply_len p;
     _bulk_reply_buffer := _bulk_reply_buffer p; _in_pubsub := _in_pubsub p;
     _pipelined_calls := _pipelined_calls p;
     _in_transaction := _in_transaction p; _transaction := _transaction p;
     _transaction_response_queue := _transaction_response_queue p;
     futures := futures p; replies := replies p; calls := calls p;
     transactions := transactions p; tasks := tasks p |}.

Definition with_messages_queue (v : option (list Value)) (p : Protocol) : Protocol :=
  {| encoding := encoding p; password := password p; db := db p;
     transport := transport p; _queue := _queue p; _messages_queue := v;
     _buffer := _buffer p; _in_bulk_reply := _in_bulk_reply p;
     _bulk_reply_len := _bulk_reply_len p;
     _bulk_reply_buffer := _bulk_reply_buffer p; _in_pubsub := _in_pubsub p;
     _pipelined_calls := _pipelined_calls p;
     _in_transaction := _in_transaction p; _transaction := _transaction p;
     _transaction_response_queue := _transaction_response_queue p;
     futures := futures p; replies := replies p; calls := calls p;
     transactions := transactions p; tasks := tasks p |}.

Definition with_buffer (v : bytes) (p : Protocol) : Protocol :=
  {| encoding := encoding p; password := password p; db := db p;
     transport := transport p; _queue := _queue p;
     _messages_queue := _messages_queue p; _buffer := v;
     _in_bulk_reply := _in_bulk_reply p;
     _bulk_reply_len := _bulk_reply_len p;
     _bulk_reply_buffer := _bulk_reply_buffer p; _in_pubsub := _in_pubsub p;
     _pipelined_calls := _pipelined_calls p;
     _in_transaction := _in_transaction p; _transaction := _transaction p;
     _transaction_response_queue := _transaction_response_queue p;
     futures := futures p; replies := replies p; calls := calls p;
     transactions := transactions p; tasks := tasks p |}.

Definition with_in_bulk_reply (v : bool) (p : Protocol) : Protocol :=
  {| encoding := encoding p; password := password p; db := db p;
     transport := transport p; _queue := _queue p;
     _messages_queue := _messages_queue p; _buffer := _buffer p;
     _in_bulk_reply := v; _bulk_reply_len := _bulk_reply_len p;
     _bulk_reply_buffer := _bulk_reply_buffer p; _in_pubsub := _in_pubsub p;
     _pipelined_calls := _pipelined_calls p;
     _in_transaction := _in_transaction p; _transaction := _transaction p;
     _transaction_response_queue := _transaction_response_queue p;
     futures := futures p; replies := replies p; calls := calls p;
     transactions := transactions p; tasks := tasks p |}.

Definition with_bulk_reply_len (v : Z) (p : Protocol) : Protocol :=
  {| encoding := encoding p; password := password p; db := db p;
     transport := transport p; _queue := _queue p;
     _messages_queue := _messages_queue p; _buffer := _buffer p;
     _in_bulk_reply := _in_bulk_reply p; _bulk_reply_len := v;
     _bulk_reply_buffer := _bulk_reply_buffer p; _in_pubsub := _in_pubsub p;
     _pipelined_calls := _pipelined_calls p;
     _in_transaction := _in_transaction p; _transaction := _transaction p;
     _transaction_response_queue := _transaction_response_queue p;
     futures := futures p; replies := replies p; calls := calls p;
     transactions := transactions p; tasks := tasks p |}.

Definition with_bulk_reply_buffer (v : bytes) (p : Protocol) : Protocol :=
  {| encoding := encoding p; password := password p; db := db p;
     transport := transport p; _queue := _queue p;
     _messages_queue := _messages_queue p; _buffer := _buffer p;
     _in_bulk_reply := _in_bulk_reply p;
     _bulk_reply_len := _bulk_reply_len p; _bulk_reply_buffer := v;
     _in_pubsub := _in_pubsub p; _pipelined_calls := _pipelined_calls p;
     _in_transaction := _in_transaction p; _transaction := _transaction p;
     _transaction_response_queue := _transaction_response_queue p;
     futures := futures p; replies := replies p; calls := calls p;
     transactions := transactions p; tasks := tasks p |}.

Definition with_in_pubsub (v : bool) (p : Protocol) : Protocol :=
  {| encoding := encoding p; password := password p; db := db p;
     transport := transport p; _queue := _queue p;
     _messages_queue := _messages_queue p; _buffer := _buffer p;
     _in_bulk_reply := _in_bulk_reply p;
     _bulk_reply_len := _bulk_reply_len p;
     _bulk_reply_buffer := _bulk_reply_buffer p; _in_pubsub := v;
     _pipelined_calls := _pipelined_calls p;
     _in_transaction := _in_transaction p; _transaction := _transaction p;
     _transaction_response_queue := _transaction_response_queue p;
     futures := futures p; replies := replies p; calls := calls p;
     transactions := transactions p; tasks := tasks p |}.

Definition with_pipelined_calls (v : gset nat) (p : Protocol) : Protocol :=
  {| encoding := encoding p; password := password p; db := db p;
     transport := transport p; _queue := _queue p;
     _messages_queue := _messages_queue p; _buffer := _buffer p;
     _in_bulk_reply := _in_bulk_reply p;
     _bulk_reply_len := _bulk_reply_len p;
     _bulk_reply_buffer := _bulk_reply_buffer p; _in_pubsub := _in_pubsub p;
     _pipelined_calls := v; _in_transaction := _in_transaction p;
     _transaction := _transaction p;
     _transaction_response_queue := _transaction_response_queue p;
     futures := futures p; replies := replies p; calls := calls p;
     transactions := transactions p; tasks := tasks p |}.

Definition with_in_transaction (v : bool) (p : Protocol) : Protocol :=
  {| encoding := encoding p; password := password p; db := db p;
     transport := transport p; _queue := _queue p;
     _messages_queue := _messages_queue p; _buffer := _buffer p;
     _in_bulk_reply := _in_bulk_reply p;
     _bulk_reply_len := _bulk_reply_len p;
     _bulk_reply_buffer := _bulk_reply_buffer p; _in_pubsub := _in_pubsub p;
     _pipelined_calls := _pipelined_calls p; _in_transaction := v;
     _transaction := _transaction p;
     _transaction_response_queue := _transaction_response_queue p;
     futures := futures p; replies := replies p; calls := calls p;
     transactions := transactions p; tasks := tasks p |}.

Definition with_transaction (v : option nat) (p : Protocol) : Protocol :=
  {| encoding := encoding p; password := password p; db := db p;
     transport := transport p; _queue := _queue p;
     _messages_queue := _messages_queue p; _buffer := _buffer p;
     _in_bulk_reply := _in_bulk_reply p;
     _bulk_reply_len := _bulk_reply_len p;
     _bulk_reply_buffer := _bulk_reply_buffer p; _in_pubsub := _in_pubsub p;
     _pipelined_calls := _pipelined_calls p;
     _in_transaction := _in_transaction p; _transaction := v;
     _transaction_response_queue := _transaction_response_queue p;
     futures := futures p; replies := replies p; calls := calls p;
     transactions := transactions p; tasks := tasks p |}.

Definition with_transaction_response_queue (v : option (list TxEntry)) (p : Protocol) : Protocol :=
  {| encoding := encoding p; password := password p; db := db p;
     transport := transport p; _queue := _queue p;
     _messages_queue := _messages_queue p; _buffer := _buffer p;
     _in_bulk_reply := _in_bulk_reply p;
     _bulk_reply_len := _bulk_reply_len p;
     _bulk_reply_buffer := _bulk_reply_buffer p; _in_pubsub := _in_pubsub p;
     _pipelined_calls := _pipelined_calls p;
     _in_transaction := _in_transaction p; _transaction := _transaction p;
     _transaction_response_queue := v; futures := futures p;
     replies := replies p; calls := calls p; transactions := transactions p;
     tasks := tasks p |}.

Definition with_futures (v : list FutState) (p : Protocol) : Protocol :=
  {| encoding := encoding p; password := password p; db := db p;
     transport := transport p; _queue := _queue p;
     _messages_queue := _messages_queue p; _buffer := _buffer p;
     _in_bulk_reply := _in_bulk_reply p;
     _bulk_reply_len := _bulk_reply_len p;
     _bulk_reply_buffer := _bulk_reply_buffer p; _in_pubsub := _in_pubsub p;
     _pipelined_calls := _pipelined_calls p;
     _in_transaction := _in_transaction p; _transaction := _transaction p;
     _transaction_response_queue := _transaction_response_queue p;
     futures := v; replies := replies p; calls := calls p;
     transactions := transactions p; tasks := tasks p |}.

Definition with_replies (v : list MultiBulkReply) (p : Protocol) : Protocol :=
  {| encoding := encoding p; password := password p; db := db p;
     transport := transport p; _queue := _queue p;
     _messages_queue := _messages_queue p; _buffer := _buffer p;
     _in_bulk_reply := _in_bulk_reply p;
     _bulk_reply_len := _bulk_reply_len p;
     _bulk_reply_buffer := _bulk_reply_buffer p; _in_pubsub := _in_pubsub p;
     _pipelined_calls := _pipelined_calls p;
     _in_transaction := _in_transaction p; _transaction := _transaction p;
     _transaction_response_queue := _transaction_response_queue p;
     futures := futures p; replies := v; calls := calls p;
     transactions := transactions p; tasks := tasks p |}.

Definition with_calls (v : list PipelinedCall) (p : Protocol) : Protocol :=
  {| encoding := encoding p; password := password p; db := db p;
     transport := transport p; _queue := _queue p;
     _messages_queue := _messages_queue p; _buffer := _buffer p;
     _in_bulk_reply := _in_bulk_reply p;
     _bulk_reply_len := _bulk_reply_len p;
     _bulk_reply_buffer := _bulk_reply_buffer p; _in_pubsub := _in_pubsub p;
     _pipelined_calls := _pipelined_calls p;
     _in_transaction := _in_transaction p; _transaction := _transaction p;
     _transaction_response_queue := _transaction_response_queue p;
     futures := futures p; replies := replies p; calls := v;
     transactions := transactions p; tasks := tasks p |}.

Definition with_transactions (v : nat) (p : Protocol) : Protocol :=
  {| encoding := encoding p; password := password p; db := db p;
     transport := transport p; _queue := _queue p;
     _messages_queue := _messages_queue p; _buffer := _buffer p;
     _in_bulk_reply := _in_bulk_reply p;
     _bulk_reply_len := _bulk_reply_len p;
     _bulk_reply_buffer := _bulk_reply_buffer p; _in_pubsub := _in_pubsub p;
     _pipelined_calls := _pipelined_calls p;
     _in_transaction := _in_transaction p; _transaction := _transaction p;
     _transaction_response_queue := _transaction_response_queue p;
     futures := futures p; replies := replies p; calls := calls p;
     transactions := v; tasks := tasks p |}.

Definition with_tasks (v : list TaskSpec) (p : Protocol) : Protocol :=
  {| encoding := encoding p; password := password p; db := db p;
     transport := transport p; _queue := _queue p;
     _messages_queue := _messages_queue p; _buffer := _buffer p;
     _in_bulk_reply := _in_bulk_reply p;
     _bulk_reply_len := _bulk_reply_len p;
     _bulk_reply_buffer := _bulk_reply_buffer p; _in_pubsub := _in_pubsub p;
     _pipelined_calls := _pipelined_calls p;
     _in_transaction := _in_transaction p; _transaction := _transaction p;
     _transaction_response_queue := _transaction_response_queue p;
     futures := futures p; replies := replies p; calls := calls p;
     transactions := transactions p; tasks := v |}.
(** ** Synchronous methods: state and exceptions *)

(** A method body: it reads and updates the protocol and returns or
    raises.  The state reached when an exception is raised is kept, as
    Python keeps the assignments made before a [raise]. *)
Definition M (A : Type) : Type := Protocol -> Res A * Protocol.

Definition ret {A} (a : A) : M A := fun p => (Ok a, p).

Definition raise {A} (e : exn) : M A := fun p => (Err e, p).

Definition bind {A B} (m : M A) (k : A -> M B) : M B := fun p =>
  match m p with
  | (Ok a, p') => k a p'
  | (Err e, p') => (Err e, p')
  end.

Definition lift {A} (r : Res A) : M A := fun p => (r, p).

Definition gets {A} (f : Protocol -> A) : M A := fun p => (Ok (f p), p).

Definition modify (f : Protocol -> Protocol) : M unit := fun p => (Ok tt, f p).

Declare Scope py_scope.
Delimit Scope py_scope with py.
Notation "x <- m ;; k" := (bind m (fun x => k))
  (at level 20, m at level 99, k at level 200, only parsing) : py_scope.
Notation "m ;; k" := (bind m (fun _ => k))
  (at level 100, k at level 200, right associativity, only parsing) : py_scope.
Local Open Scope py_scope.

(** [Future()] *)
Definition Future : M nat := fun p =>
  (Ok (length (futures p)), with_futures (futures p ++ [Pending]) p).

(** [f.set_result(v)] and [f.set_exception(e)]; a future that is already
    done raises [InvalidStateError]. *)
Definition resolve (f : nat) (r : Res Value) : M unit := fun p =>
  match futures p !! f with
  | Some Pending => (Ok tt, with_futures (<[f := Done r]> (futures p)) p)
  | _ => (Err InvalidStateError, p)
  end.

Definition set_result (f : nat) (v : Value) : M unit := resolve f (Ok v).

Definition set_exception (f : nat) (e : exn) : M unit := resolve f (Err e).

(** [self._queue.popleft()] *)
Definition popleft : M nat := fun p =>
  match _queue p with
  | f :: q => (Ok f, with_queue q p)
  | [] => (Err IndexError, p)
  end.

(** [MultiBulkReply(count)] *)
Definition new_MultiBulkReply (n : Z) : M nat := fun p =>
  (Ok (length (replies p)),
   with_replies (replies p ++ [{| count := n; queue := [] |}]) p).

(** [asyncio.Task(coro)] *)
Definition Task (t : TaskSpec) : M unit :=
  modify (fun p => with_tasks (tasks p ++ [t]) p).

(** [self.transport.write(data)] *)
Definition write (data : bytes) : M unit :=
  modify (fun p => with_transport (transport p ++ data) p).

(** [range(n)] *)
Definition range (n : Z) : list nat := seq 0 (Z.to_nat n).

(** *** Handling replies *)

(** [_push_answer]: answer the future at the head of the queue. *)
Definition _push_answer (answer : Value) : M unit :=
  f <- popleft ;;
  match answer with
  | VExc e => set_exception f e
  | _ => set_result f answer
  end.

Definition _handle_status_reply (line : bytes) : M unit :=
  status <- lift (decode ascii line) ;;
  _push_answer (VStatus status).

Definition _handle_int_reply (line : bytes) : M unit :=
  n <- lift (int line) ;;
  _push_answer (VInt n).

Definition _handle_error_reply (line : bytes) : M unit :=
  _push_answer (VExc (RedisException (ServerError line))).

Definition _handle_bulk_reply (line : bytes) : M unit :=
  n <- lift (int line) ;;
  if bool_decide (n = -1) then
    (* Null bulk reply *)
    _push_answer VNone
  else
    modify (with_in_bulk_reply true) ;;
    modify (with_bulk_reply_len n) ;;
    modify (with_bulk_reply_buffer []).

(** [self._decode(data)] *)
Definition _decode (data : bytes) : M str :=
  enc <- gets encoding ;;
  lift (decode enc data).

Definition _handle_bulk_reply_part (line : bytes) : M unit :=
  modify (fun p => with_bulk_reply_buffer (_bulk_reply_buffer p ++ line) p) ;;
  modify (fun p => with_bulk_reply_buffer (_bulk_reply_buffer p ++ CRLF) p) ;;
  buffer <- gets _bulk_reply_buffer ;;
  len <- gets _bulk_reply_len ;;
  if Z.of_nat (length buffer) >? len then
    value <- _decode (slice_to len buffer) ;;
    (* Bulk reply came in. *)
    _push_answer (VStr value) ;;
    modify (with_in_bulk_reply false) ;;
    modify (with_bulk_reply_len 0) ;;
    modify (with_bulk_reply_buffer [])
  else ret tt.

(** [for f in futures[::-1]: self._queue.appendleft(f)] *)
Definition appendleft_all (fs : list nat) : M unit :=
  modify (fun p => with_queue (fs ++ _queue p) p).

(** [[ Future() for f in range(count) ]] *)
Fixpoint new_futures (n : nat) : M (list nat) :=
  match n with
  | O => ret []
  | S n' => f <- Future ;; fs <- new_futures n' ;; ret (f :: fs)
  end.

Definition _handle_multi_bulk_reply (line : bytes) : M unit :=
  n <- lift (int line) ;;
  (* Create a queue for receiving the multi-bulk reply *)
  reply <- new_MultiBulkReply n ;;
  (* Return the empty queue immediately as an answer. *)
  in_pubsub <- gets _in_pubsub ;;
  (if in_pubsub : bool then Task (TaskPubsubReply reply)
   else _push_answer (VMultiBulk reply)) ;;
  (* Create futures to be inserted before other replies. *)
  fs <- new_futures (Z.to_nat n) ;;
  appendleft_all fs ;;
  Task (TaskHandleResults reply fs).

Definition _line_received (line : bytes) : M unit :=
  let first_byte := take 1 line in
  let line := drop 1 line in
  if bool_decide (first_byte = b "+") then _handle_status_reply line
  else if bool_decide (first_byte = b "-") then _handle_error_reply line
  else if bool_decide (first_byte = b "$") then _handle_bulk_reply line
  else if bool_decide (first_byte = b "*") then _handle_multi_bulk_reply line
  else if bool_decide (first_byte = b ":") then _handle_int_reply line
  else ret tt.   (* print ('err...', line) *)

(** The [while b'\r\n' in self._buffer] loop of [data_received].  Each
    turn removes a line from the buffer, so the length of the buffer
    bounds the number of turns. *)
Fixpoint data_received_loop (turns : nat) : M unit := fun p =>
  match split_crlf (_buffer p), turns with
  | Some (line, rest), S turns' =>
      (modify (with_buffer rest) ;;
       in_bulk_reply <- gets _in_bulk_reply ;;
       (if in_bulk_reply : bool then _handle_bulk_reply_part line
        else _line_received line) ;;
       data_received_loop turns') p
  | _, _ => (Ok tt, p)
  end.

(** [data_received]: process data received from the Redis server. *)
Definition data_received (data : bytes) : M unit :=
  modify (fun p => with_buffer (_buffer p ++ data) p) ;;
  p <- gets id ;;
  data_received_loop (length (_buffer p)).

(** [connection_lost]: raise an exception on all waiting futures. *)
Fixpoint connection_lost_loop (turns : nat) (exc : str) : M unit := fun p =>
  match _queue p, turns with
  | _ :: _, S turns' =>
      (f <- popleft ;;
       set_exception f (RedisException (ConnectionLost exc)) ;;
       connection_lost_loop turns' exc) p
  | _, _ => (Ok tt, p)
  end.

Definition connection_lost (exc : str) : M unit :=
  p <- gets id ;;
  connection_lost_loop (length (_queue p)) exc.

(** [connection_made]: the state of a fresh protocol whose class
    attributes are [enc], [pw] and [database].  [self._auth(self.password)]
    encodes the password before its task is made; when that raises, the
    exception leaves [connection_made] for the event loop, which logs
    it, and the protocol stays as it is at that point, without a task. *)
Definition connection_made (enc : Codec) (pw : option str) (database : Z)
  : Protocol :=
  let p :=
    {| encoding := enc; password := pw; db := database;
       transport := [];
       _queue := [];                  (* Input parser queues *)
       _messages_queue := None;       (* Pubsub queue *)
       (* Input parser state *)
       _buffer := [];
       _in_bulk_reply := false;
       _bulk_reply_len := 0;
       _bulk_reply_buffer := [];
       (* State *)
       _in_pubsub := false;
       _pipelined_calls := ∅;        (* Set of all the pipelined calls. *)
       (* Transaction related stuff. *)
       _in_transaction := false;
       _transaction := None;
       _transaction_response_queue := None;
       futures := []; replies := []; calls := []; transactions := 0%nat;
       tasks := [] |} in
  let select p :=
    if bool_decide (database = 0) then p
    else with_tasks (tasks p ++ [TaskSelect database]) p in
  (* If a password or database was been given, first connect to that one. *)
  match pw with
  | Some (c :: s) =>
      match encode enc (c :: s) with
      | Ok a => select (with_tasks (tasks p ++ [TaskAuth a]) p)
      | Err _ => p
      end
  | _ => select p
  end.

(** *** Request state *)

(** [any(c.is_blocking for c in self._pipelined_calls)] *)
Definition in_blocking_call (p : Protocol) : bool :=
  bool_decide (Exists (fun c => is_blocking <$> calls p !! c = Some true)
                 (elements (_pipelined_calls p))).

Definition in_pubsub (p : Protocol) : bool := _in_pubsub p.

Definition in_transaction (p : Protocol) : bool := _in_transaction p.

(** [in_use]: true when this protocol is in use. *)
Definition in_use (p : Protocol) : bool :=
  in_blocking_call p || in_pubsub p || in_transaction p.

(** *** Sending a request *)

(** [_send_command]: the header is written before the arguments are
    looked at, so an argument that is not bytes raises after a partial
    write. *)
Fixpoint _send_command_args (args : list Arg) : M unit :=
  match args with
  | [] => ret tt
  | ArgBytes a :: args' =>
      write (b "$" ++ bytes_of_int (Z.of_nat (length a)) ++ CRLF) ;;
      write a ;;
      write CRLF ;;
      _send_command_args args'
  | ArgOther :: _ => raise (RedisException CannotEncode)
  end.

Definition _send_command (args : list Arg) : M unit :=
  write (b "*" ++ bytes_of_int (Z.of_nat (length args)) ++ CRLF) ;;
  _send_command_args args.

(** [self._encode(data)] *)
Definition _encode (data : str) : M bytes :=
  enc <- gets encoding ;;
  lift (encode enc data).

(** [self._encode_int(value)] *)
Definition _encode_int (value : Z) : bytes := bytes_of_int value.

(** [str(value)] for an integer. *)
Definition str_of_int (value : Z) : str := map Byte.to_N (bytes_of_int value).

(** [self._queue.append(f)] *)
Definition append (f : nat) : M unit :=
  modify (fun p => with_queue (_queue p ++ [f]) p).

(** [PipelinedCall(cmd, is_blocking)] *)
Definition new_PipelinedCall (c : Arg) (blocking : bool) : M nat := fun p =>
  (Ok (length (calls p)),
   with_calls (calls p ++ [{| cmd := c; is_blocking := blocking |}]) p).

(** [self._pipelined_calls.add(call)] *)
Definition add_call (call : nat) : M unit :=
  modify (fun p => with_pipelined_calls ({[ call ]} ∪ _pipelined_calls p) p).

(** [self._pipelined_calls.remove(call)] *)
Definition remove_call (call : nat) : M unit := fun p =>
  if bool_decide (call ∈ _pipelined_calls p)
  then (Ok tt, with_pipelined_calls (_pipelined_calls p ∖ {[ call ]}) p)
  else (Err KeyError, p).

(** [self._transaction_response_queue.append(entry)] *)
Definition transaction_response_queue_append (entry : TxEntry) : M unit :=
  fun p =>
  match _transaction_response_queue p with
  | Some q => (Ok tt, with_transaction_response_queue (Some (q ++ [entry])) p)
  | None => (Err AttributeError, p)
  end.

(** [reply.queue.put_nowait(item)] *)
Definition put_nowait (reply : nat) (item : Value) : M unit := fun p =>
  match replies p !! reply with
  | Some r =>
      (Ok tt,
       with_replies
         (<[reply := {| count := count r; queue := queue r ++ [item] |}]>
            (replies p)) p)
  | None => (Err AttributeError, p)
  end.

(** [v == StatusReply(status)].  [StatusReply.__eq__] reads
    [other.status], so comparing with anything that is not a status reply
    raises [AttributeError]. *)
Definition eq_status (v : Value) (status : str) : Res bool :=
  match v with
  | VStatus s => Ok (bool_decide (s = status))
  | _ => Err AttributeError
  end.

(** [v != StatusReply(status)]: the default [__ne__] inverts [__eq__]. *)
Definition ne_status (v : Value) (status : str) : Res bool :=
  match eq_status v status with
  | Ok r => Ok (negb r)
  | Err e => Err e
  end.

(** [assert v == StatusReply(status)] *)
Definition assert_status (v : Value) (status : str) : M unit :=
  r <- lift (eq_status v status) ;;
  if r : bool then ret tt else raise AssertionError.

(** ** Coroutines *)

(** A coroutine is a tree of synchronous steps and suspension points.
    [AwaitFuture f k] is [x = yield from f], [AwaitGet reply k] is
    [x = yield from reply.queue.get()] and [AwaitMessage k] is
    [x = yield from self._messages_queue.get()]. *)
Inductive Coro (A : Type) : Type :=
| Return (a : A)
| Raise (e : exn)
| Do {B : Type} (m : M B) (k : B -> Coro A)
| AwaitFuture (f : nat) (k : Value -> Coro A)
| AwaitGet (reply : nat) (k : Value -> Coro A)
| AwaitMessage (k : Value -> Coro A).
Arguments Return {A} a.
Arguments Raise {A} e.
Arguments Do {A B} m k.
Arguments AwaitFuture {A} f k.
Arguments AwaitGet {A} reply k.
Arguments AwaitMessage {A} k.

Fixpoint cbind {A B} (c : Coro A) (h : A -> Coro B) : Coro B :=
  match c with
  | Return a => h a
  | Raise e => Raise e
  | Do m k => Do m (fun x => cbind (k x) h)
  | AwaitFuture f k => AwaitFuture f (fun x => cbind (k x) h)
  | AwaitGet reply k => AwaitGet reply (fun x => cbind (k x) h)
  | AwaitMessage k => AwaitMessage (fun x => cbind (k x) h)
  end.

(** A synchronous call made from a coroutine. *)
Definition sync {A} (m : M A) : Coro A := Do m Return.

(** [yield from f] *)
Definition await (f : nat) : Coro Value := AwaitFuture f Return.

Declare Scope coro_scope.
Delimit Scope coro_scope with coro.
Notation "x <- c ;; k" := (cbind c (fun x => k))
  (at level 20, c at level 99, k at level 200, only parsing) : coro_scope.
Notation "c ;; k" := (cbind c (fun _ => k))
  (at level 100, k at level 200, right associativity, only parsing)
  : coro_scope.

(** What a coroutine has done when control returns to the event loop:
    it has finished, or it waits at a suspension point. *)
Inductive Outcome (A : Type) : Type :=
| Finished (r : Res A) (p : Protocol)
| Blocked (c : Coro A) (p : Protocol).
Arguments Finished {A} r p.
Arguments Blocked {A} c p.

(** Run a coroutine until it finishes or has to wait.  A [yield from] on
    a future that is done, or on a queue that holds an item, does not
    suspend. *)
Fixpoint run {A} (c : Coro A) (p : Protocol) : Outcome A :=
  match c with
  | Return a => Finished (Ok a) p
  | Raise e => Finished (Err e) p
  | Do m k =>
      match m p with
      | (Ok x, p') => run (k x) p'
      | (Err e, p') => Finished (Err e) p'
      end
  | AwaitFuture f k =>
      match futures p !! f with
      | Some (Done (Ok v)) => run (k v) p
      | Some (Done (Err e)) => Finished (Err e) p
      | _ => Blocked c p
      end
  | AwaitGet reply k =>
      match replies p !! reply with
      | Some {| count := n; queue := item :: items |} =>
          run (k item)
            (with_replies
               (<[reply := {| count := n; queue := items |}]> (replies p)) p)
      | _ => Blocked c p
      end
  | AwaitMessage k =>
      match _messages_queue p with
      | Some (item :: items) =>
          run (k item) (with_messages_queue (Some items) p)
      | Some [] => Blocked c p
      | None => Finished (Err AttributeError) p
      end
  end.

(** *** [MultiBulkReply] *)

(** [__iter__] yields [count] times [self.queue.get()]; [get_as_list]
    gathers them, which delivers the items in the order they were put. *)
Fixpoint get_items (reply : nat) (n : nat) : Coro (list Value) :=
  match n with
  | O => Return []
  | S n' =>
      (item <- AwaitGet reply Return ;;
       items <- get_items reply n' ;;
       Return (item :: items))%coro
  end.

Definition reply_count (reply : nat) : M Z := fun p =>
  match replies p !! reply with
  | Some r => (Ok (count r), p)
  | None => (Err AttributeError, p)
  end.

Definition get_as_list (reply : nat) : Coro Value :=
  (n <- sync (reply_count reply) ;;
   items <- get_items reply (length (range n)) ;;
   Return (VList items))%coro.

(** *** [_PostProcessor] *)

Definition post_process (f : PostProcessor) (result : Value) : Coro Value :=
  match f with
  | multibulk_as_list =>
      match result with
      | VMultiBulk reply => get_as_list reply
      | _ => Raise AssertionError
      end
  | int_to_bool =>
      match result with
      | VInt z => Return (VBool (negb (z =? 0)))
      | VBool v => Return (VBool v)
      | _ => Raise AssertionError
      end
  end.

(** *** Pipelined queries *)

(** [_get_answer]: return an answer to the pipelined query, or, inside a
    transaction, a future for the answer. *)
Definition _get_answer (_bypass : bool)
    (post_process_func : option PostProcessor) (call : option nat)
  : Coro Value :=
  ((* Add a new future to our queue. *)
   f <- sync Future ;;
   sync (append f) ;;
   result <- await f ;;
   in_tx <- sync (gets _in_transaction) ;;
   if (in_tx : bool) && negb _bypass then
     (* When the connection is inside a transaction, the query will be
        queued. *)
     differs <- sync (lift (ne_status result (u "QUEUED"))) ;;
     if differs : bool then Raise (RedisException ExpectedQueued)
     else
       (* Return a future which will contain the result when it arrives. *)
       f <- sync Future ;;
       sync (transaction_response_queue_append
               (f, post_process_func, call)) ;;
       Return (VFuture f)
   else
     result <- match post_process_func with
               | Some func => post_process func result
               | None => Return result
               end ;;
     match call with
     | Some c => sync (remove_call c)
     | None => Return tt
     end ;;
     Return result)%coro.

(** [_query]: wrapper around both [_send_command] and [_get_answer]. *)
Definition _query (args : list Arg) (_bypass : bool)
    (post_process_func : option PostProcessor) (set_blocking : bool)
  : Coro Value :=
  (c <- match args with
        | a :: _ => Return a
        | [] => Raise IndexError
        end ;;
   call <- sync (new_PipelinedCall c set_blocking) ;;
   sync (add_call call) ;;
   (* Send command *)
   sync (_send_command args) ;;
   (* Receive answer. *)
   result <- _get_answer _bypass post_process_func (Some call) ;;
   Return result)%coro.

(** *** The [_command] decorator *)

(** The classes that occur in the return annotations of the commands. *)
Inductive PyClass :=
| class_NoneType | class_bool | class_int | class_str | class_list
| class_StatusReply | class_MultiBulkReply.

#[global] Instance PyClass_eq_dec : EqDecision PyClass.
Proof. solve_decision. Defined.

(** [isinstance(v, classes)]; a [bool] is also an [int]. *)
Definition isinstance (v : Value) (classes : list PyClass) : bool :=
  match v with
  | VNone => bool_decide (class_NoneType ∈ classes)
  | VBool _ => bool_decide (class_bool ∈ classes ∨ class_int ∈ classes)
  | VInt _ => bool_decide (class_int ∈ classes)
  | VStr _ => bool_decide (class_str ∈ classes)
  | VList _ => bool_decide (class_list ∈ classes)
  | VStatus _ => bool_decide (class_StatusReply ∈ classes)
  | VMultiBulk _ => bool_decide (class_MultiBulkReply ∈ classes)
  | VFuture _ | VTransaction _ | VExc _ => false
  end.

Definition typecheck_return (return_type : option (list PyClass))
    (result : Value) : M unit :=
  match return_type with
  | Some classes =>
      if isinstance result classes then ret tt else raise TypeError
  | None => ret tt
  end.

(** [wrapper(self, *a, **kw)] around [method].  [a0] is the transaction
    object when the call comes through a [Transaction] proxy, which
    passes it as first argument, and [None] for a direct call.  The
    inputs are typed here, so [typecheck_input] has nothing to reject in
    a well-placed call.  A transaction object passed outside a
    transaction lands in the place of the first real argument, and
    [stray] is what the method's signature makes of it: [TypeError] from
    [typecheck_input] where the arguments no longer fit the parameters
    or their annotations, [AttributeError] from [_encode] where the
    object is taken as one of the [*keys].  The done-callback that type
    checks a queued result only logs. *)
Definition _command (return_type : option (list PyClass)) (stray : exn)
    (method : Coro Value) (a0 : option nat) : Coro Value :=
  (in_tx <- sync (gets in_transaction) ;;
   tr <- sync (gets _transaction) ;;
   if (in_tx : bool) && negb (bool_decide (is_Some a0 ∧ a0 = tr)) then
     Raise (RedisException CannotRunInsideTransaction)
   else if in_tx : bool then
     (* In case of a transaction, we receive a Future *)
     future <- method ;;
     match future with
     | VFuture _ => Return future
     | _ => Raise AttributeError
     end
   else
     match a0 with
     | Some _ => Raise stray
     | None =>
         result <- method ;;
         sync (typecheck_return return_type result) ;;
         Return result
     end)%coro.

(** [_all_commands]: the names registered by [_command], in source
    order. *)
Definition _all_commands : list string :=
  ["set"; "get"; "mget"; "strlen"; "append"; "getset"; "incr"; "incrby";
   "decr"; "decrby"; "randomkey"; "exists"; "delete"; "move"; "rename";
   "renamenx"; "getbit"; "bitop_and"; "bitop_or"; "bitop_xor"; "bitop_not";
   "bitcount"; "getbit"; "setbit"; "keys"; "dump"; "expire"; "pexpire";
   "expireat"; "pexpireat"; "persist"; "ttl"; "pttl"; "sadd"; "srem";
   "spop"; "srandmember"; "sismember"; "scard"; "smembers"; "sinter";
   "sinterstore"; "sdiff"; "sdiffstore"; "sunion"; "sunionstore"; "smove";
   "lpush"; "lpushx"; "rpush"; "rpushx"; "llen"; "lrem"; "lrange"; "ltrim";
   "lpop"; "rpop"; "rpoplpush"; "lindex"; "blpop"; "brpop"; "brpoplpush";
   "lset"; "linsert"; "zadd"; "zrange"; "zrangebyscore";
   "zrevrangebyscore"; "zremrangebyscore"; "zremrangebyrank"; "zcount";
   "zscore"; "zcard"; "zrank"; "zrevrank"; "zincrby"; "zrem"; "hset";
   "hmset"; "hsetnx"; "hdel"; "hget"; "hexists"; "hkeys"; "hvals"; "hlen";
   "hgetall"; "hmget"; "hincrby"; "hincrbyfloat"; "subscribe"; "publish";
   "ping"; "echo"; "save"; "bgsave"; "lastsave"; "dbsize"; "flushall";
   "flushdb"; "object"; "type"; "multi"]%string.

(** *** Commands *)

Fixpoint encode_all (keys : list str) : M (list Arg) :=
  match keys with
  | [] => ret []
  | k :: keys' =>
      a <- _encode k ;; args <- encode_all keys' ;; ret (ArgBytes a :: args)
  end.

(** [_auth] is a plain method: it encodes the password when it is
    called and returns the coroutine of the query. *)
Definition auth_query (password : bytes) : Coro Value :=
  _query [ArgBytes (b "auth"); ArgBytes password] false None false.

Definition _auth (pw : str) : M (Coro Value) :=
  a <- _encode pw ;; ret (auth_query a).

Definition _select (database : Z) : Coro Value :=
  _query [ArgBytes (b "select"); ArgBytes (_encode_int database)]
    false None false.

(** [set]: set the string value of a key. *)
Definition set (key value : str) : option nat -> Coro Value :=
  _command (Some [class_StatusReply]) TypeError
    (k <- sync (_encode key) ;;
     v <- sync (_encode value) ;;
     _query [ArgBytes (b "set"); ArgBytes k; ArgBytes v] false None false)%coro.

(** [get]: get the value of a key. *)
Definition get (key : str) : option nat -> Coro Value :=
  _command (Some [class_str; class_NoneType]) TypeError
    (k <- sync (_encode key) ;;
     _query [ArgBytes (b "get"); ArgBytes k] false None false)%coro.

(** [mget]: returns the values of all specified keys. *)
Definition mget (keys : list str) : option nat -> Coro Value :=
  _command (Some [class_list]) AttributeError
    (ks <- sync (encode_all keys) ;;
     _query (ArgBytes (b "mget") :: ks) false (Some multibulk_as_list)
       false)%coro.

(** [incr]: increment the integer value of a key by one. *)
Definition incr (key : str) : option nat -> Coro Value :=
  _command (Some [class_int]) TypeError
    (k <- sync (_encode key) ;;
     _query [ArgBytes (b "incr"); ArgBytes k] false None false)%coro.

(** [exists]: determine if a key exists. *)
Definition exists_ (key : str) : option nat -> Coro Value :=
  _command (Some [class_bool]) TypeError
    (k <- sync (_encode key) ;;
     _query [ArgBytes (b "exists"); ArgBytes k] false (Some int_to_bool)
       false)%coro.

(** [brpoplpush]: pop a value from a list, push it to another list and
    return it; or block until one is available. *)
Definition brpoplpush (source destination : str) (timeout : Z)
  : option nat -> Coro Value :=
  _command (Some [class_str]) TypeError
    (s <- sync (_encode source) ;;
     d <- sync (_encode destination) ;;
     _query [ArgBytes (b "brpoplpush"); ArgBytes s; ArgBytes d;
             ArgBytes (_encode_int timeout)] false None true)%coro.

Definition _blocking_pop (keys : list str) (timeout : Z) (right : bool)
  : Coro Value :=
  (let command := if right then b "brpop" else b "blpop" in
   args <- sync (encode_all (keys ++ [str_of_int timeout])) ;;
   _query (ArgBytes command :: args) false (Some multibulk_as_list) true)%coro.

(** [blpop]: remove and get the first element in a list, or block until
    one is available. *)
Definition blpop (keys : list str) (timeout : Z) : option nat -> Coro Value :=
  _command (Some [class_list]) AttributeError
    (_blocking_pop keys timeout false).

(** *** Transactions *)

(** [Transaction(self)] *)
Definition new_Transaction : M nat := fun p =>
  (Ok (transactions p), with_transactions (S (transactions p)) p).

Fixpoint watch_all (keys : list str) : Coro unit :=
  match keys with
  | [] => Return tt
  | k :: keys' =>
      (a <- sync (_encode k) ;;
       result <- _query [ArgBytes (b "watch"); ArgBytes a] false None false ;;
       sync (assert_status result (u "OK")) ;;
       watch_all keys')%coro
  end.

(** [multi]: start of transaction. *)
Definition multi (keys : option (list str)) : option nat -> Coro Value :=
  _command None TypeError
    (in_tx <- sync (gets _in_transaction) ;;
     if in_tx : bool then Raise (RedisException MultiNested)
     else
       (* Call watch *)
       match keys with
       | Some ks => watch_all ks
       | None => Return tt
       end ;;
       (* Call multi *)
       result <- _query [ArgBytes (b "multi")] false None false ;;
       sync (assert_status result (u "OK")) ;;
       sync (modify (with_in_transaction true)) ;;
       sync (modify (with_transaction_response_queue (Some []))) ;;
       (* Create transaction object. *)
       t <- sync new_Transaction ;;
       sync (modify (with_transaction (Some t))) ;;
       Return (VTransaction t))%coro.

(** The [for f in multi_bulk_reply] loop of [_exec];
    [futures_and_postprocessors] is the local alias of the answer queue
    taken before EXEC was sent. *)
Fixpoint _exec_loop (reply : nat) (n : nat)
    (futures_and_postprocessors : option (list TxEntry)) : Coro unit :=
  match n with
  | O => Return tt
  | S n' =>
      (answer <- AwaitGet reply Return ;;
       match futures_and_postprocessors with
       | None => Raise AttributeError
       | Some [] => Raise IndexError
       | Some ((f2, post_process_func, call) :: rest) =>
           match answer with
           | VExc e => sync (set_exception f2 e)
           | _ =>
               answer <- match post_process_func with
                         | Some func => post_process func answer
                         | None => Return answer
                         end ;;
               match call with
               | Some c => sync (remove_call c)
               | None => Return tt
               end ;;
               sync (set_result f2 answer)
           end ;;
           _exec_loop reply n' (Some rest)
       end)%coro
  end.

(** [_exec]: execute all commands issued after MULTI.  Iterating over a
    reply that is not a [MultiBulkReply] raises ([TypeError], or
    [RuntimeError] from the event loop for a non-empty [str]), except
    for an empty [str], which has nothing to iterate over. *)
Definition _exec : Coro Value :=
  (in_tx <- sync (gets _in_transaction) ;;
   if negb in_tx then Raise (RedisException NotInTransaction)
   else
     futures_and_postprocessors <- sync (gets _transaction_response_queue) ;;
     sync (modify (with_transaction_response_queue None)) ;;
     (* Get transaction answers. *)
     multi_bulk_reply <- _query [ArgBytes (b "exec")] true None false ;;
     match multi_bulk_reply with
     | VNone =>
         (* We get None when a transaction failed. *)
         Raise (RedisException TransactionFailed)
     | VMultiBulk reply =>
         n <- sync (reply_count reply) ;;
         _exec_loop reply (length (range n)) futures_and_postprocessors
     | VStr [] => Return tt
     | VStr (_ :: _) => Raise RuntimeError
     | _ => Raise TypeError
     end ;;
     sync (modify (with_transaction_response_queue (Some []))) ;;
     sync (modify (with_in_transaction false)) ;;
     sync (modify (with_transaction None)) ;;
     Return VNone)%coro.

(** [_discard]: discard all commands issued after MULTI. *)
Definition _discard : Coro Value :=
  (in_tx <- sync (gets _in_transaction) ;;
   if negb in_tx then Raise (RedisException NotInTransaction)
   else
     sync (modify (with_transaction_response_queue (Some []))) ;;
     sync (modify (with_in_transaction false)) ;;
     sync (modify (with_transaction None)) ;;
     result <- _query [ArgBytes (b "discard")] false None false ;;
     sync (assert_status result (u "OK")) ;;
     Return VNone)%coro.

(** [_unwatch]: forget about all watched keys. *)
Definition _unwatch : Coro Value :=
  (in_tx <- sync (gets _in_transaction) ;;
   if negb in_tx then Raise (RedisException NotInTransaction)
   else
     result <- _query [ArgBytes (b "unwatch")] false None false ;;
     sync (assert_status result (u "OK")) ;;
     Return VNone)%coro.

(** [class Transaction]: a proxy to the protocol; [t] is the transaction
    object. *)
Module Transaction.

(** The checks [__getattr__] makes before it hands out the wrapped
    method, which is then called with [Some t] as first argument. *)
Definition __getattr__ (t : nat) (name : string) : M unit :=
  if bool_decide (name ∈ _all_commands) then
    tr <- gets _transaction ;;
    if bool_decide (tr = Some t) then ret tt
    else raise (RedisException TransactionFinished)
  else raise AttributeError.

Definition discard (t : nat) : Coro Value := _discard.

Definition exec (t : nat) : Coro Value := _exec.

Definition unwatch (t : nat) : Coro Value := _unwatch.

End Transaction.

(** ** The event loop

    The tasks created by the protocol sit in [tasks] until the loop
    starts them; [loop_turn] starts them and gives every task that can
    continue one run. *)

Fixpoint handle_results (reply : nat) (fs : list nat) : Coro unit :=
  match fs with
  | [] => Return tt
  | f :: fs' =>
      ((* Wait for the next item to be received *)
       item <- await f ;;
       (* Put it on the queue *)
       sync (put_nowait reply item) ;;
       handle_results reply fs')%coro
  end.

(** [self._messages_queue.put(result)] *)
Definition messages_queue_put (item : Value) : M unit := fun p =>
  match _messages_queue p with
  | Some items => (Ok tt, with_messages_queue (Some (items ++ [item])) p)
  | None => (Err AttributeError, p)
  end.

Definition _handle_pubsub_multibulk_reply (reply : nat) : Coro unit :=
  (result <- get_as_list reply ;;
   match result with
   | VList (VStr s :: _) =>
       if bool_decide (s = u "message") then sync (messages_queue_put result)
       else Raise AssertionError
   | VList (VStatus _ :: _) => Raise AttributeError
   | VList (_ :: _) => Raise AssertionError
   | _ => Raise IndexError
   end)%coro.

Definition task_body (t : TaskSpec) : Coro unit :=
  match t with
  | TaskAuth a => (auth_query a ;; Return tt)%coro
  | TaskSelect database => (_select database ;; Return tt)%coro
  | TaskPubsubReply reply => _handle_pubsub_multibulk_reply reply
  | TaskHandleResults reply fs => handle_results reply fs
  end.

Record Loop := {
  protocol : Protocol;
  running : list (Coro unit)
}.

(** Run the tasks in order; a task that finishes (or dies with an
    exception, which the loop only logs) is dropped. *)
Fixpoint run_tasks (ts : list (Coro unit)) (p : Protocol) : Loop :=
  match ts with
  | [] => {| protocol := p; running := [] |}
  | t :: ts' =>
      match run t p with
      | Finished _ p' => run_tasks ts' p'
      | Blocked t' p' =>
          let l := run_tasks ts' p' in
          {| protocol := protocol l; running := t' :: running l |}
      end
  end.

Definition loop_turn (l : Loop) : Loop :=
  let p := protocol l in
  run_tasks (running l ++ map task_body (tasks p)) (with_tasks [] p).

(** ** [class Connection]: the pool

    The pool holds references to its protocols: [protocols] is the heap
    of protocol objects and [_transport_protocol_pairs] lists them by
    index, in the pool's current order. *)
Record Connection := {
  _poolsize : Z;
  _transport_protocol_pairs : list nat;
  protocols : list Protocol
}.

Module Connection.

(** [create], given that every connection attempt succeeds and before
    any reply is received; the protocols of a pool use the default
    encoding.  [create] goes on to the next connection only after the
    event loop has started the tasks that [connection_made] created, so
    every protocol of the new pool has had its first loop turn; the
    tasks themselves stay with the loop. *)
Definition create (poolsize : Z) (pw : option str) (database : Z)
  : Connection :=
  let connection :=
    loop_turn {| protocol := connection_made utf8 pw database;
                 running := [] |} in
  {| _poolsize := poolsize;
     _transport_protocol_pairs := range poolsize;
     protocols := replicate (length (range poolsize)) (protocol connection) |}.

Definition poolsize (c : Connection) : Z := _poolsize c.

(** [protocol.in_use] for the protocol object [i]. *)
Definition protocol_in_use (c : Connection) (i : nat) : bool :=
  match protocols c !! i with
  | Some p => in_use p
  | None => false
  end.

(** [connections_in_use]: how many protocols are in use. *)
Definition connections_in_use (c : Connection) : nat :=
  length (filter (fun i => protocol_in_use c i = true)
            (_transport_protocol_pairs c)).

(** ['shuffle' protocols]: [pairs[1:] + pairs[:1]]. *)
Definition _shuffle_protocols (c : Connection) : Connection :=
  {| _poolsize := _poolsize c;
     _transport_protocol_pairs :=
       drop 1 (_transport_protocol_pairs c)
       ++ take 1 (_transport_protocol_pairs c);
     protocols := protocols c |}.

(** [_get_free_protocol]: the next protocol instance that's not in
    use, or [None]. *)
Definition _get_free_protocol (c : Connection) : option nat * Connection :=
  let c := _shuffle_protocols c in
  (head (filter (fun i => protocol_in_use c i = false)
           (_transport_protocol_pairs c)), c).

(** [__getattr__]: the protocol whose method [name] is handed out. *)
Definition __getattr__ (name : string) (c : Connection)
  : Res nat * Connection :=
  (* Only proxy commands. *)
  if bool_decide (name ∈ _all_commands) then
    match _get_free_protocol c with
    | (Some protocol, c') => (Ok protocol, c')
    | (None, c') => (Err (RedisException PoolInUse), c')
    end
  else (Err AttributeError, c).

End Connection.

(** ** Deliveries, outcomes and observations *)

(** The protocol receives the chunks one after the other; an exception
    ends the feed. *)
Fixpoint feed (chunks : list bytes) : M unit :=
  match chunks with
  | [] => ret tt
  | chunk :: chunks' => data_received chunk ;; feed chunks'
  end.

(** The chunks of a byte-at-a-time delivery of [data]. *)
Definition bytewise (data : bytes) : list bytes := map (fun c => [c]) data.

(** The parser answers the replies one after the other. *)
Fixpoint push_answers (answers : list Value) : M unit :=
  match answers with
  | [] => ret tt
  | answer :: answers' => _push_answer answer ;; push_answers answers'
  end.

(** What [_push_answer] stores in a future for [answer]. *)
Definition answer_result (answer : Value) : Res Value :=
  match answer with
  | VExc e => Err e
  | _ => Ok answer
  end.

(** A reply as it arrives: a single reply (status, error, integer, bulk
    or nil), or the header line of a multi bulk reply followed by its
    children, which can be multi bulk replies themselves. *)
Inductive Frame :=
| Single (answer : Value)
| Header (line : bytes) (children : list Frame).

(** The header announces as many children as follow ([*-1] and [*0]
    announce none). *)
Inductive well_formed : Frame -> Prop :=
| well_formed_Single (answer : Value) : well_formed (Single answer)
| well_formed_Header (line : bytes) (children : list Frame) (n : Z) :
    int line = Ok n ->
    length children = Z.to_nat n ->
    Forall well_formed children ->
    well_formed (Header line children).

(** What the parser does with a frame outside pubsub mode: a single
    reply is answered, a header is handled and its children follow. *)
Fixpoint answer_frame (frame : Frame) : M unit :=
  match frame with
  | Single answer => _push_answer answer
  | Header line children =>
      _handle_multi_bulk_reply line ;;
      (fix answer_frames (frames : list Frame) : M unit :=
         match frames with
         | [] => ret tt
         | frame' :: frames' => answer_frame frame' ;; answer_frames frames'
         end) children
  end.

Fixpoint answer_frames (frames : list Frame) : M unit :=
  match frames with
  | [] => ret tt
  | frame :: frames' => answer_frame frame ;; answer_frames frames'
  end.

(** The future [f] holds the reply of [frame]: the answer of a single
    reply, or a [MultiBulkReply] object with the announced count. *)
Definition holds_reply (frame : Frame) (p : Protocol) (f : nat) : Prop :=
  match frame with
  | Single answer => futures p !! f = Some (Done (answer_result answer))
  | Header line _ =>
      exists reply r,
        futures p !! f = Some (Done (Ok (VMultiBulk reply))) /\
        replies p !! reply = Some r /\
        int line = Ok (count r)
  end.

(** [not f.done()] *)
Definition pending (p : Protocol) (f : nat) : bool :=
  match futures p !! f with
  | Some Pending => true
  | _ => false
  end.

(** The futures of the protocol that are not done. *)
Definition unresolved (p : Protocol) : list nat :=
  filter (fun f => pending p f = true) (seq 0 (length (futures p))).

(** The futures stored in the transaction answer queue. *)
Definition transaction_futures (p : Protocol) : list nat :=
  match _transaction_response_queue p with
  | Some q => map (fun e : TxEntry => e.1.1) q
  | None => []
  end.

(** The protocol in which a coroutine stopped, its result if it has
    finished, and its continuation in a later state of the protocol. *)
Definition outcome_state {A} (o : Outcome A) : Protocol :=
  match o with
  | Finished _ p => p
  | Blocked _ p => p
  end.

Definition result {A} (o : Outcome A) : option (Res A) :=
  match o with
  | Finished r _ => Some r
  | Blocked _ _ => None
  end.

Definition resume {A} (o : Outcome A) (p : Protocol) : Outcome A :=
  match o with
  | Finished r _ => Finished r p
  | Blocked c _ => run c p
  end.

(** The protocol after the server has sent [data]. *)
Definition receive (data : bytes) (p : Protocol) : Protocol :=
  (data_received data p).2.

(** No complete line is left in the input buffer, which is how
    [connection_made] and every [data_received] that returns leave it. *)
Definition idle (p : Protocol) : Prop := split_crlf (_buffer p) = None.

(** ** States and notions used in the statements *)

(** The state in which [_get_answer] suspends: a new pending future at
    the tail of the queue. *)
Definition awaiting_answer (p : Protocol) : Protocol :=
  with_queue (_queue p ++ [length (futures p)])
    (with_futures (futures p ++ [Pending]) p).

(** The request frame for the arguments [args]: [*K\r\n], then
    [$L\r\n<bytes>\r\n] for every argument. *)
Definition request (args : list bytes) : bytes :=
  b "*" ++ bytes_of_int (Z.of_nat (length args)) ++ CRLF
  ++ concat (map (fun a => b "$" ++ bytes_of_int (Z.of_nat (length a)) ++ CRLF
                           ++ a ++ CRLF) args).

(** The protocol after [_query] has recorded the call and written the
    request, and then after it has suspended on the future of the
    answer. *)
Definition written (args : list bytes) (blocking : bool) (p : Protocol)
  : Protocol :=
  with_transport (transport p ++ request args)
    (with_pipelined_calls ({[ length (calls p) ]} ∪ _pipelined_calls p)
       (with_calls
          (calls p ++ [{| cmd := from_option ArgBytes ArgOther (head args);
                          is_blocking := blocking |}]) p)).

Definition sent (args : list bytes) (blocking : bool) (p : Protocol)
  : Protocol :=
  awaiting_answer (written args blocking p).

(** The futures after [set_exception] on every future of [q]. *)
Definition fail_all (e : exn) (q : list nat) (fs : list FutState)
  : list FutState :=
  foldl (fun fs f => <[f := Done (Err e)]> fs) fs q.

(** The state after the header of a multi bulk reply with [n] children
    has been handled outside pubsub mode. *)
Definition multi_bulk_header (n : Z) (f : nat) (q : list nat) (p : Protocol)
  : Protocol :=
  let reply := length (replies p) in
  let children := seq (length (futures p)) (Z.to_nat n) in
  with_tasks (tasks p ++ [TaskHandleResults reply children])
    (with_queue (children ++ q)
       (with_futures
          (<[f := Done (Ok (VMultiBulk reply))]> (futures p)
           ++ replicate (Z.to_nat n) Pending)
          (with_replies (replies p ++ [{| count := n; queue := [] |}]) p))).

(** [m] pops the future [f] at the head of the reply queue of [p] and
    resolves it with [r]; no other future changes. *)
Definition answers_head (m : M unit) (p : Protocol) (f : nat) (q : list nat)
    (r : Res Value) : Prop :=
  exists p',
    m p = (Ok tt, p') /\
    _queue p' = q /\
    futures p' = <[f := Done r]> (futures p).

(** [p'] is [p] after some replies were answered: the futures of [p]
    outside [touched] and the multi bulk replies of [p] are as they
    were. *)
Definition later (touched : nat -> Prop) (p p' : Protocol) : Prop :=
  _in_pubsub p' = _in_pubsub p /\
  (length (futures p) <= length (futures p'))%nat /\
  (forall g, (g < length (futures p))%nat -> ~ touched g ->
     futures p' !! g = futures p !! g) /\
  (forall reply r, replies p !! reply = Some r -> replies p' !! reply = Some r).

(** The statement proved for every frame: the frame is answered to the
    head of the queue and to nothing else that existed before. *)
Definition answered_to_head (frame : Frame) : Prop :=
  well_formed frame ->
  forall (p : Protocol) (f : nat) (q : list nat),
    _in_pubsub p = false ->
    _queue p = f :: q ->
    futures p !! f = Some Pending ->
    exists p',
      answer_frame frame p = (Ok tt, p') /\
      _queue p' = q /\
      holds_reply frame p' f /\
      later (fun g => g = f) p p'.

(** A method that neither reads nor writes [_buffer]. *)
Definition buffer_free {A} (m : M A) : Prop :=
  forall buf p, m (with_buffer buf p) = ((m p).1, with_buffer buf (m p).2).

(** What one turn of the loop of [data_received] does with a line. *)
Definition dispatch (line : bytes) : M unit := fun p =>
  if _in_bulk_reply p then _handle_bulk_reply_part line p
  else _line_received line p.

(** *** Example states *)

(** A protocol that has sent [GET k] and waits for the reply. *)
Definition waiting_for_get : Protocol :=
  outcome_state (run (get (u "k") None) (connection_made utf8 None 0)).

(** A protocol that has sent [MGET a b c] and waits for the reply, and
    the reply of the second end-to-end scenario. *)
Definition waiting_for_mget : Protocol :=
  outcome_state
    (run (mget [u "a"; u "b"; u "c"] None) (connection_made utf8 None 0)).

Definition mget_reply : bytes :=
  b "*3" ++ CRLF ++ b "$1" ++ CRLF ++ b "x" ++ CRLF ++ b "$-1" ++ CRLF
  ++ b "$1" ++ CRLF ++ b "z" ++ CRLF.

(** A protocol that has just entered a transaction: MULTI was sent and
    answered with OK; the transaction object is transaction 0. *)
Definition transaction_started : Protocol :=
  let s1 := run (multi None None) (connection_made utf8 None 0) in
  outcome_state (resume s1 (receive (b "+OK" ++ CRLF) (outcome_state s1))).

(** A protocol in a transaction that holds one queued SET, whose future
    is future 2. *)
Definition transaction_with_queued_set : Protocol :=
  let s3 := run (set (u "k") (u "v") (Some 0%nat)) transaction_started in
  outcome_state
    (resume s3 (receive (b "+QUEUED" ++ CRLF) (outcome_state s3))).

(** A pool of three protocols, the first two in a transaction. *)
Definition example_pool : Connection :=
  {| _poolsize := 3;
     _transport_protocol_pairs := [0; 1; 2]%nat;
     protocols := [transaction_started; transaction_with_queued_set;
                   connection_made utf8 None 0] |}.

(** ** Notions used in the further properties *)

(** The value of the decimal digits [d] read after the value [acc], as
    [int()] accumulates it. *)
Fixpoint uint_value (acc : Z) (d : Decimal.uint) : Z :=
  match d with
  | Decimal.Nil => acc
  | Decimal.D0 d' => uint_value (10 * acc + 0) d'
  | Decimal.D1 d' => uint_value (10 * acc + 1) d'
  | Decimal.D2 d' => uint_value (10 * acc + 2) d'
  | Decimal.D3 d' => uint_value (10 * acc + 3) d'
  | Decimal.D4 d' => uint_value (10 * acc + 4) d'
  | Decimal.D5 d' => uint_value (10 * acc + 5) d'
  | Decimal.D6 d' => uint_value (10 * acc + 6) d'
  | Decimal.D7 d' => uint_value (10 * acc + 7) d'
  | Decimal.D8 d' => uint_value (10 * acc + 8) d'
  | Decimal.D9 d' => uint_value (10 * acc + 9) d'
  end.

(** The bytes that occur in the decimal notation of an integer. *)
Definition decimal_bytes : bytes := b "-0123456789".

(** The protocol after a bulk reply has come in completely: the future
    [f] at the head of the reply queue holds the decoded payload, and
    the parser is back in line mode with an empty buffer. *)
Definition bulk_answered (value : str) (f : nat) (q : list nat) (p : Protocol)
  : Protocol :=
  with_bulk_reply_buffer []
    (with_bulk_reply_len 0
       (with_in_bulk_reply false
          (with_futures (<[f := Done (Ok (VStr value))]> (futures p))
             (with_queue q (with_buffer [] p))))).

(** A bulk reply on the wire: [$L\r\n<payload>\r\n]. *)
Definition bulk (payload : bytes) : bytes :=
  b "$" ++ bytes_of_int (Z.of_nat (length payload)) ++ CRLF ++ payload ++ CRLF.

(** The protocol after a bulk reply has come in whose payload could not
    be decoded: the reply queue and the futures are as before, and the
    parser is still inside the bulk reply, which holds the payload and
    its terminator. *)
Definition bulk_undecoded (payload : bytes) (p : Protocol) : Protocol :=
  with_bulk_reply_buffer (payload ++ CRLF)
    (with_bulk_reply_len (Z.of_nat (length payload))
       (with_in_bulk_reply true (with_buffer [] p))).

(** The futures of [p] hold the decoded [values] at the places [cs]. *)
Definition hold_values (p : Protocol) (cs : list nat) (values : list str)
  : Prop :=
  forall i c v, cs !! i = Some c -> values !! i = Some v ->
    futures p !! c = Some (Done (Ok (VStr v))).

(** Every state reached by [m] is related by [R] to the state it was
    called in, whether [m] returns or raises. *)
Definition keeps {A} (R : Protocol -> Protocol -> Prop) (m : M A) : Prop :=
  forall p, R p (m p).2.

(** What the requests of a protocol have written and recorded: the
    bytes sent, the mode flags, the transaction and its answer queue,
    the pipelined calls and the pubsub queue. *)
Definition request_state (p : Protocol) :=
  (transport p, _in_pubsub p, _in_transaction p, _transaction p,
   _transaction_response_queue p, _pipelined_calls p, calls p,
   _messages_queue p).

Definition same_request_state (p p' : Protocol) : Prop :=
  request_state p' = request_state p.

(** Every future that is done in [p] is done in [p'] with the same
    result or exception. *)
Definition settled (p p' : Protocol) : Prop :=
  forall f r, futures p !! f = Some (Done r) ->
    futures p' !! f = Some (Done r).

(** Every call in [_pipelined_calls] is a [PipelinedCall] object that
    exists. *)
Definition valid_calls (p : Protocol) : Prop :=
  forall c, c ∈ _pipelined_calls p -> (c < length (calls p))%nat.

(** The protocol when [multi] has returned the transaction [t]. *)
Definition in_new_transaction (t : nat) (p : Protocol) : Protocol :=
  with_transaction (Some t)
    (with_transactions (S t)
       (with_transaction_response_queue (Some [])
          (with_in_transaction true p))).

(** What [_exec] stores in the future of a queued command for the item
    [item] of the EXEC reply: the item, or the item after the command's
    post-processor.  ([None] stands for the cases left out here: the
    post-processor rejects the item, or it has to wait for the items of
    a nested multi bulk reply, or the item is an exception object.) *)
Definition committed (post_process_func : option PostProcessor) (item : Value)
  : option Value :=
  match item with
  | VExc _ => None
  | _ =>
      match post_process_func with
      | None => Some item
      | Some int_to_bool =>
          match item with
          | VInt z => Some (VBool (negb (z =? 0)))
          | VBool v => Some (VBool v)
          | _ => None
          end
      | Some multibulk_as_list => None
      end
  end.

(** The protocol after one turn of the loop of [_exec]: the item has
    been taken from the queue of the reply, the call of the queued
    command has been removed and its future holds the result. *)
Definition exec_turn (reply : nat) (n : Z) (items : list Value)
    (f2 c : nat) (r : Value) (p : Protocol) : Protocol :=
  with_futures (<[f2 := Done (Ok r)]> (futures p))
    (with_pipelined_calls (_pipelined_calls p ∖ {[ c ]})
       (with_replies (<[reply := {| count := n; queue := items |}]> (replies p))
          p)).

(** The protocol after [items] have been put on the queue of the multi
    bulk reply [reply], whose state was [r]. *)
Definition forwarded (reply : nat) (r : MultiBulkReply) (items : list Value)
    (p : Protocol) : Protocol :=
  with_replies
    (<[reply := {| count := count r; queue := queue r ++ items |}]> (replies p))
    p.

(** The protocol after the first items of the queue of [reply] have been
    taken, [more] being left. *)
Definition taken (reply : nat) (n : Z) (more : list Value) (p : Protocol)
  : Protocol :=
  with_replies (<[reply := {| count := n; queue := more |}]> (replies p)) p.

(** [get_next_published]: wait for the next pubsub message. *)
Definition get_next_published : Coro Value := AwaitMessage Return.

(** The state after the header of a multi bulk reply with [n] children
    has been handled in pubsub mode: the reply queue is not answered,
    and a task is created that will read the reply as a message. *)
Definition pubsub_header (n : Z) (p : Protocol) : Protocol :=
  let reply := length (replies p) in
  let children := seq (length (futures p)) (Z.to_nat n) in
  with_tasks ((tasks p ++ [TaskPubsubReply reply])
              ++ [TaskHandleResults reply children])
    (with_queue (children ++ _queue p)
       (with_futures (futures p ++ replicate (Z.to_nat n) Pending)
          (with_replies (replies p ++ [{| count := n; queue := [] |}]) p))).

(** A protocol in pubsub mode with an empty pubsub queue: a fresh
    protocol after the two assignments that [subscribe] makes once its
    reply has come in. *)
Definition subscribed : Protocol :=
  with_messages_queue (Some [])
    (with_in_pubsub true (connection_made utf8 None 0)).

(** [k] commands requested from the pool one after the other: the
    protocols that were selected, or the exceptions raised, and the pool
    afterwards. *)
Fixpoint selections (name : string) (k : nat) (c : Connection)
  : list (Res nat) * Connection :=
  match k with
  | O => ([], c)
  | S k' =>
      let '(r, c1) := Connection.__getattr__ name c in
      let '(rs, c2) := selections name k' c1 in
      (r :: rs, c2)
  end.

(** [push] of the decoder: a code point in front of the rest. *)
Definition push (cp : N) (r : Res str) : Res str :=
  match r with
  | Ok s => Ok (cp :: s)
  | Err e => Err e
  end.

(** * Properties *)

(** ** The pool *)

Lemma shuffle_pairs (c : Connection) :
  _transport_protocol_pairs (Connection._shuffle_protocols c)
  = drop 1 (_transport_protocol_pairs c) ++ take 1 (_transport_protocol_pairs c).
Proof. reflexivity. Qed.

Lemma shuffle_in_use (c : Connection) (i : nat) :
  Connection.protocol_in_use (Connection._shuffle_protocols c) i = Connection.protocol_in_use c i.
Proof. reflexivity. Qed.

Lemma shuffle_elem_of (c : Connection) (i : nat) :
  i ∈ _transport_protocol_pairs (Connection._shuffle_protocols c)
  <-> i ∈ _transport_protocol_pairs c.
Proof.
  rewrite shuffle_pairs, elem_of_app.
  destruct (_transport_protocol_pairs c) as [|x l]; simpl.
  - rewrite elem_of_nil. tauto.
  - rewrite drop_0, elem_of_cons, (elem_of_cons l), elem_of_nil. tauto.
Qed.

Lemma head_filter_Some {A} (P : A -> Prop) `{!forall x, Decision (P x)}
    (l : list A) (x : A) :
  head (filter P l) = Some x -> P x /\ x ∈ l.
Proof.
  intros Hhd.
  assert (Hin : x ∈ filter P l).
  { destruct (filter P l) as [|y l'] eqn:E; [discriminate|].
    injection Hhd as ->. apply elem_of_cons. by left. }
  by apply list_elem_of_filter in Hin.
Qed.

Lemma in_use_false (p : Protocol) :
  in_use p = false ->
  in_blocking_call p = false /\ in_pubsub p = false /\ in_transaction p = false.
Proof.
  unfold in_use. intros H.
  apply orb_false_iff in H as [H Htx]. apply orb_false_iff in H as [Hb Hps].
  auto.
Qed.

(** C5. Selecting a protocol for a command never hands out one whose
    [in_use] flag is set (that is, one in a blocking call, in pubsub mode
    or in a transaction); when every protocol of the pool is in use the
    selection fails with the pool-exhausted [RedisException]; and every
    selection rotates the list of protocols by exactly one position. *)
Theorem pool_selection (c : Connection) (name : string) :
  name ∈ _all_commands ->
  let result := (Connection.__getattr__ name c).1 in
  let c' := (Connection.__getattr__ name c).2 in
  (forall i, result = Ok i ->
     i ∈ _transport_protocol_pairs c /\
     Connection.protocol_in_use c' i = false /\
     forall p, protocols c' !! i = Some p ->
       in_blocking_call p = false /\ in_pubsub p = false
       /\ in_transaction p = false) /\
  ((forall i, i ∈ _transport_protocol_pairs c -> Connection.protocol_in_use c i = true) ->
     result = Err (RedisException PoolInUse)) /\
  (forall e, result = Err e ->
     e = RedisException PoolInUse /\
     forall i, i ∈ _transport_protocol_pairs c -> Connection.protocol_in_use c i = true) /\
  _transport_protocol_pairs c'
    = drop 1 (_transport_protocol_pairs c) ++ take 1 (_transport_protocol_pairs c) /\
  protocols c' = protocols c.
Proof.
  intros Hname result c'. subst result c'.
  unfold Connection.__getattr__. rewrite bool_decide_eq_true_2 by assumption.
  unfold Connection._get_free_protocol.
  set (cs := Connection._shuffle_protocols c).
  destruct (head (filter (fun i => Connection.protocol_in_use cs i = false)
                    (_transport_protocol_pairs cs))) as [i|] eqn:Hhead; simpl.
  - apply head_filter_Some in Hhead as [Hfree Hin].
    apply (proj1 (shuffle_elem_of c i)) in Hin.
    split; [|split; [|split; [|split; reflexivity]]].
    + intros j [= <-]. split; [assumption|]. split; [assumption|].
      intros p Hp. apply in_use_false.
      unfold Connection.protocol_in_use in Hfree.
      change (protocols cs) with (protocols c) in Hfree.
      by rewrite Hp in Hfree.
    + intros Hall. specialize (Hall i Hin).
      rewrite <- (shuffle_in_use c) in Hall. fold cs in Hall. congruence.
    + discriminate.
  - split; [|split; [|split; [|split; reflexivity]]].
    + discriminate.
    + reflexivity.
    + intros e [= <-]. split; [reflexivity|]. intros i Hin.
      destruct (Connection.protocol_in_use c i) eqn:Hi; [reflexivity|].
      assert (Hfree : i ∈ filter (fun i => Connection.protocol_in_use cs i = false)
                            (_transport_protocol_pairs cs)).
      { apply list_elem_of_filter.
        split; [exact Hi|by apply (proj2 (shuffle_elem_of c i))]. }
      destruct (filter _ _); [by apply elem_of_nil in Hfree | discriminate].
Qed.

Lemma pool_selection_witness :
  (Connection.__getattr__ "get" example_pool).1 = Ok 2%nat /\
  _transport_protocol_pairs (Connection.__getattr__ "get" example_pool).2
    = [1; 2; 0]%nat /\
  Connection.protocol_in_use (Connection.__getattr__ "get" example_pool).2 2 = false.
Proof.
  assert (Hname : "get"%string ∈ _all_commands)
    by (apply (bool_decide_unpack _); vm_compute; reflexivity).
  destruct (pool_selection example_pool "get" Hname) as (Hok & _ & _ & Hrot & _).
  split; [reflexivity|]. split; [exact Hrot|].
  exact (proj1 (proj2 (Hok 2%nat eq_refl))).
Defined.

(** ** Lines with an unknown prefix *)

(** C7 as stated fails: after the line [?oops] the future of the
    outstanding GET is still pending, no exception was raised, and a pool
    made of this protocol still hands it out. *)
Lemma unknown_prefix_counterexample :
  let outcome := data_received (b "?oops" ++ CRLF) waiting_for_get in
  unresolved waiting_for_get = [0%nat] /\
  outcome.1 = Ok tt /\
  unresolved outcome.2 = [0%nat] /\
  (Connection.__getattr__ "get"
     {| _poolsize := 1; _transport_protocol_pairs := [0%nat];
        protocols := [outcome.2] |}).1 = Ok 0%nat.
Proof. vm_compute. repeat split; reflexivity. Qed.

(** C7, amended. A received line whose first byte is not one of [+],
    [-], [$], [*], [:] is dropped: [_line_received] returns normally and
    leaves the protocol as it was, so no future is failed and nothing
    marks the protocol as closed. *)
Theorem unknown_prefix_is_dropped (line : bytes) (p : Protocol) :
  take 1 line ∉ [b "+"; b "-"; b "$"; b "*"; b ":"] ->
  _line_received line p = (Ok tt, p).
Proof.
  intros Hprefix. unfold _line_received.
  repeat (rewrite bool_decide_eq_false_2;
          [|intros Heq; apply Hprefix; rewrite Heq; set_solver]).
  reflexivity.
Qed.

Lemma unknown_prefix_is_dropped_witness :
  _line_received (b "?oops") waiting_for_get = (Ok tt, waiting_for_get).
Proof.
  apply unknown_prefix_is_dropped.
  apply (bool_decide_unpack _). vm_compute. reflexivity.
Defined.

(** ** Running coroutines *)

Lemma run_cbind {A B} (c : Coro A) (h : A -> Coro B) (p : Protocol) :
  run (cbind c h) p =
  match run c p with
  | Finished (Ok a) p' => run (h a) p'
  | Finished (Err e) p' => Finished (Err e) p'
  | Blocked c' p' => Blocked (cbind c' h) p'
  end.
Proof.
  revert p. induction c as [a|e|X m k IH|f k IH|reply k IH|k IH]; intros p; simpl.
  - reflexivity.
  - reflexivity.
  - destruct (m p) as [[x|e] p']; [apply IH|reflexivity].
  - destruct (futures p !! f) as [[|[v|e]]|]; try reflexivity. apply IH.
  - destruct (replies p !! reply) as [[n [|item items]]|]; try reflexivity.
    apply IH.
  - destruct (_messages_queue p) as [[|item items]|]; try reflexivity.
    apply IH.
Qed.

Lemma run_gets {A B} (f : Protocol -> A) (h : A -> Coro B) (p : Protocol) :
  run (cbind (sync (gets f)) h) p = run (h (f p)) p.
Proof. reflexivity. Qed.

Lemma run_modify {B} (g : Protocol -> Protocol) (h : unit -> Coro B)
    (p : Protocol) :
  run (cbind (sync (modify g)) h) p = run (h tt) (g p).
Proof. reflexivity. Qed.

Lemma run_sync {A B} (m : M A) (h : A -> Coro B) (p : Protocol) :
  run (cbind (sync m) h) p =
  match m p with
  | (Ok x, p') => run (h x) p'
  | (Err e, p') => Finished (Err e) p'
  end.
Proof. reflexivity. Qed.

Lemma get_answer_suspends (_bypass : bool) (pp : option PostProcessor)
    (call : option nat) (p : Protocol) :
  exists c, run (_get_answer _bypass pp call) p = Blocked c (awaiting_answer p).
Proof.
  eexists. unfold _get_answer. cbn.
  rewrite list_lookup_middle by reflexivity. reflexivity.
Qed.

Lemma get_answer_still_waiting (_bypass : bool) (pp : option PostProcessor)
    (call : option nat) (p p1 p2 : Protocol) (c : Coro Value) :
  run (_get_answer _bypass pp call) p = Blocked c p1 ->
  futures p2 !! length (futures p) = Some Pending ->
  run c p2 = Blocked c p2.
Proof.
  unfold _get_answer. cbn. rewrite list_lookup_middle by reflexivity.
  intros [= <- <-] Hf. cbn. rewrite Hf. reflexivity.
Qed.

Lemma get_answer_error (_bypass : bool) (pp : option PostProcessor)
    (call : option nat) (p p1 p2 : Protocol) (c : Coro Value) (e : exn) :
  run (_get_answer _bypass pp call) p = Blocked c p1 ->
  futures p2 !! length (futures p) = Some (Done (Err e)) ->
  run c p2 = Finished (Err e) p2.
Proof.
  unfold _get_answer. cbn. rewrite list_lookup_middle by reflexivity.
  intros [= <- <-] Hf. cbn. rewrite Hf. reflexivity.
Qed.

Lemma get_answer_queued (pp : option PostProcessor) (call : option nat)
    (p p1 p2 : Protocol) (c : Coro Value) (v : Value) :
  run (_get_answer false pp call) p = Blocked c p1 ->
  futures p2 !! length (futures p) = Some (Done (Ok v)) ->
  _in_transaction p2 = true ->
  run c p2 =
  match ne_status v (u "QUEUED") with
  | Err e => Finished (Err e) p2
  | Ok true => Finished (Err (RedisException ExpectedQueued)) p2
  | Ok false =>
      let p3 := with_futures (futures p2 ++ [Pending]) p2 in
      match _transaction_response_queue p2 with
      | Some q =>
          Finished (Ok (VFuture (length (futures p2))))
            (with_transaction_response_queue
               (Some (q ++ [(length (futures p2), pp, call)])) p3)
      | None => Finished (Err AttributeError) p3
      end
  end.
Proof.
  unfold _get_answer. cbn. rewrite list_lookup_middle by reflexivity.
  intros [= <- <-] Hf Htx. cbn. rewrite Hf. cbn. rewrite Htx. cbn.
  destruct (ne_status v _) as [[|]|e]; cbn; try reflexivity.
  unfold transaction_response_queue_append. cbn.
  destruct (_transaction_response_queue p2); reflexivity.
Qed.

Lemma get_answer_plain (_bypass : bool) (call : nat)
    (p p1 p2 : Protocol) (c : Coro Value) (v : Value) :
  run (_get_answer _bypass None (Some call)) p = Blocked c p1 ->
  futures p2 !! length (futures p) = Some (Done (Ok v)) ->
  _in_transaction p2 && negb _bypass = false ->
  run c p2 =
  if bool_decide (call ∈ _pipelined_calls p2)
  then Finished (Ok v)
         (with_pipelined_calls (_pipelined_calls p2 ∖ {[ call ]}) p2)
  else Finished (Err KeyError) p2.
Proof.
  unfold _get_answer. cbn. rewrite list_lookup_middle by reflexivity.
  intros [= <- <-] Hf Hmode. cbn. rewrite Hf. cbn. rewrite Hmode. cbn.
  unfold remove_call. destruct (bool_decide _); reflexivity.
Qed.

Lemma ne_status_QUEUED (v : Value) :
  ne_status v (u "QUEUED") = Ok false <-> v = VStatus (u "QUEUED").
Proof.
  unfold ne_status, eq_status. split.
  - destruct v; try discriminate.
    destruct (bool_decide_reflect (status = u "QUEUED")) as [->|]; [reflexivity|discriminate].
  - intros ->. rewrite bool_decide_eq_true_2 by reflexivity. reflexivity.
Qed.

(** C4 fails on the code.  In a transaction, a SET is sent and exec is
    called before the reply to the SET has been read.  exec takes the
    transaction answer queue away when it is called, and the protocol
    stays in the transaction until the reply to EXEC has been dealt
    with.  The server answers the SET with QUEUED (future 1): the SET
    raises [AttributeError] instead of handing out a future, and nothing
    is stored for EXEC to resolve.  The server has queued the SET all
    the same, so the reply to EXEC brings one result, for which exec
    finds no entry: exec raises [IndexError] and the protocol is left
    in the transaction, without an answer queue. *)
Lemma queued_reply_after_exec :
  let s1 := run (set (u "k") (u "v") (Some 0%nat)) transaction_started in
  let s2 := run (Transaction.exec 0) (outcome_state s1) in
  let p3 := receive (b "+QUEUED" ++ CRLF) (outcome_state s2) in
  let s3 := resume s1 p3 in
  let p4 := receive (b "*1" ++ CRLF ++ b "+OK" ++ CRLF) (outcome_state s3) in
  let s4 := resume s2 (protocol (loop_turn {| protocol := p4; running := [] |})) in
  result s1 = None /\
  result s2 = None /\
  in_transaction p3 = true /\
  _transaction_response_queue p3 = None /\
  futures p3 !! 1%nat = Some (Done (Ok (VStatus (u "QUEUED")))) /\
  result s3 = Some (Err AttributeError) /\
  transaction_futures (outcome_state s3) = [] /\
  result s4 = Some (Err IndexError) /\
  in_transaction (outcome_state s4) = true /\
  _transaction_response_queue (outcome_state s4) = None.
Proof. vm_compute. repeat split; reflexivity. Qed.

(** X27. Queueing a command in a transaction.  A command sent without
    [_bypass] suspends in [_get_answer] on a new future at the tail of
    the reply queue.  When that future is answered while the protocol
    is in a transaction, the answer has to be [StatusReply('QUEUED')]:
    any other answer, and any error reply, raises.  When the answer is
    QUEUED and the transaction answer queue is in place, as it is from
    MULTI until exec is called, the caller gets a new, pending future,
    detached from the reply queue, which is appended to the transaction
    answer queue together with the post-processor and the call record,
    for EXEC to resolve. *)
Theorem queued_in_transaction (pp : option PostProcessor) (call : option nat)
    (p : Protocol) :
  exists c,
    run (_get_answer false pp call) p = Blocked c (awaiting_answer p) /\
    forall (p2 : Protocol),
      _in_transaction p2 = true ->
      let f := length (futures p) in
      let f2 := length (futures p2) in
      (forall q : list TxEntry,
         _transaction_response_queue p2 = Some q ->
         futures p2 !! f = Some (Done (Ok (VStatus (u "QUEUED")))) ->
         run c p2 =
         Finished (Ok (VFuture f2))
           (with_transaction_response_queue (Some (q ++ [(f2, pp, call)]))
              (with_futures (futures p2 ++ [Pending]) p2))) /\
      (forall v, futures p2 !! f = Some (Done (Ok v)) ->
         v <> VStatus (u "QUEUED") ->
         exists e, run c p2 = Finished (Err e) p2) /\
      (forall e, futures p2 !! f = Some (Done (Err e)) ->
         run c p2 = Finished (Err e) p2).
Proof.
  destruct (get_answer_suspends false pp call p) as [c Hc].
  exists c. split; [exact Hc|].
  intros p2 Htx f f2. split; [|split].
  - intros q Hq Hf. rewrite (get_answer_queued _ _ _ _ _ _ _ Hc Hf Htx).
    rewrite (proj2 (ne_status_QUEUED _) eq_refl). cbn zeta.
    rewrite Hq. reflexivity.
  - intros v Hf Hv. rewrite (get_answer_queued _ _ _ _ _ _ _ Hc Hf Htx).
    destruct (ne_status v (u "QUEUED")) as [[|]|e] eqn:Hne; eauto.
    by apply ne_status_QUEUED in Hne.
  - intros e Hf. exact (get_answer_error _ _ _ _ _ _ _ _ Hc Hf).
Qed.

Lemma queued_in_transaction_witness :
  let p2 := receive (b "+QUEUED" ++ CRLF) (awaiting_answer transaction_started) in
  exists c,
    run (_get_answer false (Some int_to_bool) None) transaction_started
    = Blocked c (awaiting_answer transaction_started) /\
    run c p2 =
    Finished (Ok (VFuture 2))
      (with_transaction_response_queue (Some [(2%nat, Some int_to_bool, None)])
         (with_futures (futures p2 ++ [Pending]) p2)).
Proof.
  destruct (queued_in_transaction (Some int_to_bool) None transaction_started)
    as (c & Hrun & Hresume).
  exists c. split; [exact Hrun|].
  refine (proj1 (Hresume _ _) [] _ _); vm_compute; reflexivity.
Defined.

(** ** Sending a query *)

Lemma send_command_args_bytes (args : list bytes) (p : Protocol) :
  _send_command_args (map ArgBytes args) p
  = (Ok tt,
     with_transport
       (transport p
        ++ concat (map (fun a => b "$" ++ bytes_of_int (Z.of_nat (length a))
                                 ++ CRLF ++ a ++ CRLF) args)) p).
Proof.
  revert p. induction args as [|a args IH]; intros p.
  - simpl. rewrite app_nil_r. destruct p; reflexivity.
  - simpl. unfold bind, write, modify. simpl. rewrite IH.
    unfold with_transport; simpl. do 2 f_equal.
    repeat (rewrite <- app_assoc; simpl). reflexivity.
Qed.

Lemma send_command_bytes (args : list bytes) (p : Protocol) :
  _send_command (map ArgBytes args) p
  = (Ok tt, with_transport (transport p ++ request args) p).
Proof.
  unfold _send_command, bind, write, modify. simpl.
  rewrite send_command_args_bytes. rewrite length_map.
  unfold with_transport, request; simpl. do 2 f_equal.
  repeat (rewrite <- app_assoc; simpl). reflexivity.
Qed.

Lemma query_unfold (a : bytes) (args : list bytes) (_bypass : bool)
    (pp : option PostProcessor) (blocking : bool) (p : Protocol) :
  exists c,
    run (_get_answer _bypass pp (Some (length (calls p))))
      (written (a :: args) blocking p)
    = Blocked c (sent (a :: args) blocking p) /\
    run (_query (map ArgBytes (a :: args)) _bypass pp blocking) p
    = Blocked (cbind c Return) (sent (a :: args) blocking p).
Proof.
  unfold _query.
  change (map ArgBytes (a :: args)) with (ArgBytes a :: map ArgBytes args).
  cbn -[_get_answer _send_command].
  rewrite (send_command_bytes (a :: args)), run_cbind.
  destruct (get_answer_suspends _bypass pp (Some (length (calls p)))
              (written (a :: args) blocking p)) as [c Hc].
  exists c. split; [exact Hc|].
  change (with_transport _ _) with (written (a :: args) blocking p).
  rewrite Hc. reflexivity.
Qed.

Lemma query_suspends (a : bytes) (args : list bytes) (_bypass : bool)
    (pp : option PostProcessor) (blocking : bool) (p : Protocol) :
  exists c,
    run (_query (map ArgBytes (a :: args)) _bypass pp blocking) p
    = Blocked c (sent (a :: args) blocking p).
Proof.
  destruct (query_unfold a args _bypass pp blocking p) as (c & _ & Hc).
  eauto.
Qed.

(** The query is still waiting while its future is pending. *)
Lemma query_still_waiting (a : bytes) (args : list bytes) (_bypass : bool)
    (pp : option PostProcessor) (blocking : bool) (p p1 p2 : Protocol)
    (c : Coro Value) :
  run (_query (map ArgBytes (a :: args)) _bypass pp blocking) p = Blocked c p1 ->
  futures p2 !! length (futures p) = Some Pending ->
  run c p2 = Blocked c p2.
Proof.
  destruct (query_unfold a args _bypass pp blocking p) as (c0 & Hc0 & Hq).
  rewrite Hq. intros [= <- <-] Hf.
  rewrite run_cbind, (get_answer_still_waiting _ _ _ _ _ _ _ Hc0 Hf).
  reflexivity.
Qed.

(** An error reply is raised in the caller of [_query]. *)
Lemma query_error (a : bytes) (args : list bytes) (_bypass : bool)
    (pp : option PostProcessor) (blocking : bool) (p p1 p2 : Protocol)
    (c : Coro Value) (e : exn) :
  run (_query (map ArgBytes (a :: args)) _bypass pp blocking) p = Blocked c p1 ->
  futures p2 !! length (futures p) = Some (Done (Err e)) ->
  run c p2 = Finished (Err e) p2.
Proof.
  destruct (query_unfold a args _bypass pp blocking p) as (c0 & Hc0 & Hq).
  rewrite Hq. intros [= <- <-] Hf.
  rewrite run_cbind, (get_answer_error _ _ _ _ _ _ _ _ Hc0 Hf).
  reflexivity.
Qed.

(** Outside a transaction, or with [_bypass], a query without
    post-processor returns the reply and removes its call record. *)
Lemma query_plain (a : bytes) (args : list bytes) (_bypass : bool)
    (blocking : bool) (p p1 p2 : Protocol) (c : Coro Value) (v : Value) :
  run (_query (map ArgBytes (a :: args)) _bypass None blocking) p = Blocked c p1 ->
  futures p2 !! length (futures p) = Some (Done (Ok v)) ->
  _in_transaction p2 && negb _bypass = false ->
  run c p2 =
  if bool_decide (length (calls p) ∈ _pipelined_calls p2)
  then Finished (Ok v)
         (with_pipelined_calls (_pipelined_calls p2 ∖ {[ length (calls p) ]}) p2)
  else Finished (Err KeyError) p2.
Proof.
  destruct (query_unfold a args _bypass None blocking p) as (c0 & Hc0 & Hq).
  rewrite Hq. intros [= <- <-] Hf Hmode.
  rewrite run_cbind, (get_answer_plain _ _ _ _ _ _ _ Hc0 Hf Hmode).
  destruct (bool_decide _); reflexivity.
Qed.

(** ** DISCARD *)

Lemma eq_status_OK (v : Value) :
  eq_status v (u "OK") = Ok true <-> v = VStatus (u "OK").
Proof.
  unfold eq_status. split.
  - destruct v; try discriminate.
    destruct (bool_decide_reflect (status = u "OK")) as [->|];
      [reflexivity|discriminate].
  - intros ->. rewrite bool_decide_eq_true_2 by reflexivity. reflexivity.
Qed.

(** C8 as stated fails: a SET is queued in a transaction, the
    transaction is discarded and the server answers OK; the discard
    returns normally, the protocol is out of the transaction, and the
    future handed out for the SET (future 2) is still pending instead of
    failed. *)
Lemma discard_counterexample :
  let s1 := run (multi None None) (connection_made utf8 None 0) in
  let s2 := resume s1 (receive (b "+OK" ++ CRLF) (outcome_state s1)) in
  let s3 := run (set (u "k") (u "v") (Some 0%nat)) (outcome_state s2) in
  let s4 := resume s3 (receive (b "+QUEUED" ++ CRLF) (outcome_state s3)) in
  let s5 := run (Transaction.discard 0) (outcome_state s4) in
  let s6 := resume s5 (receive (b "+OK" ++ CRLF) (outcome_state s5)) in
  result s2 = Some (Ok (VTransaction 0)) /\
  result s4 = Some (Ok (VFuture 2)) /\
  transaction_futures (outcome_state s4) = [2%nat] /\
  result s6 = Some (Ok VNone) /\
  in_transaction (outcome_state s6) = false /\
  futures (outcome_state s6) !! 2%nat = Some Pending.
Proof. vm_compute. repeat split; reflexivity. Qed.

(** C8, amended. In a transaction, discard empties the transaction
    answer queue and leaves the transaction at once, then sends DISCARD
    and suspends on its reply; the reply has to be [StatusReply('OK')]
    for discard to return normally.  The futures that were queued are
    dropped from the queue without being resolved: no future of the
    protocol changes, neither when DISCARD is sent nor when its reply
    arrives. *)
Theorem discard_drops_queue (p : Protocol) :
  _in_transaction p = true ->
  let f := length (futures p) in
  let call := length (calls p) in
  exists c p1,
    run _discard p = Blocked c p1 /\
    transport p1
    = transport p ++ b "*1" ++ CRLF ++ b "$7" ++ CRLF ++ b "discard" ++ CRLF /\
    _transaction_response_queue p1 = Some [] /\
    _in_transaction p1 = false /\
    _transaction p1 = None /\
    _queue p1 = _queue p ++ [f] /\
    futures p1 = futures p ++ [Pending] /\
    forall p2,
      _in_transaction p2 = false ->
      call ∈ _pipelined_calls p2 ->
      let p3 := with_pipelined_calls (_pipelined_calls p2 ∖ {[ call ]}) p2 in
      (futures p2 !! f = Some (Done (Ok (VStatus (u "OK")))) ->
         run c p2 = Finished (Ok VNone) p3) /\
      (forall v, futures p2 !! f = Some (Done (Ok v)) -> v <> VStatus (u "OK") ->
         exists e, run c p2 = Finished (Err e) p3) /\
      (forall e, futures p2 !! f = Some (Done (Err e)) ->
         run c p2 = Finished (Err e) p2).
Proof.
  intros Htx f call. unfold _discard.
  set (p0 := with_transaction None
               (with_in_transaction false
                  (with_transaction_response_queue (Some []) p))).
  destruct (query_unfold (b "discard") [] false None false p0) as (c0 & _ & Hq).
  exists (cbind (cbind c0 Return)
            (fun result => cbind (sync (assert_status result (u "OK")))
                             (fun _ => Return VNone))).
  exists (sent [b "discard"] false p0).
  split.
  { rewrite run_gets, Htx. cbn [negb]. rewrite !run_modify. fold p0.
    rewrite run_cbind.
    change [ArgBytes (b "discard")] with (map ArgBytes [b "discard"]).
    rewrite Hq. reflexivity. }
  split.
  { change (transport (sent [b "discard"] false p0))
      with (transport p ++ request [b "discard"]).
    apply (f_equal (app (transport p))). vm_compute. reflexivity. }
  do 5 (split; [reflexivity|]).
  intros p2 Hmode Hcall.
  assert (Hm : _in_transaction p2 && negb false = false) by (by rewrite Hmode).
  split; [|split].
  - intros Hf. rewrite run_cbind.
    rewrite (query_plain _ _ _ _ _ _ _ _ _ Hq Hf Hm).
    rewrite bool_decide_eq_true_2 by exact Hcall.
    rewrite run_sync. unfold assert_status, bind, lift.
    rewrite (proj2 (eq_status_OK _) eq_refl). reflexivity.
  - intros v Hf Hv. rewrite run_cbind.
    rewrite (query_plain _ _ _ _ _ _ _ _ _ Hq Hf Hm).
    rewrite bool_decide_eq_true_2 by exact Hcall.
    rewrite run_sync. unfold assert_status, bind, lift.
    destruct (eq_status v (u "OK")) as [[|]|e] eqn:Heq.
    + by apply eq_status_OK in Heq.
    + eexists. reflexivity.
    + eexists. reflexivity.
  - intros e Hf. rewrite run_cbind.
    rewrite (query_error _ _ _ _ _ _ _ _ _ _ Hq Hf). reflexivity.
Qed.

Lemma discard_drops_queue_witness :
  let p2 :=
    receive (b "+OK" ++ CRLF)
      (sent [b "discard"] false
         (with_transaction None
            (with_in_transaction false
               (with_transaction_response_queue (Some [])
                  transaction_with_queued_set)))) in
  exists c p1,
    run _discard transaction_with_queued_set = Blocked c p1 /\
    run c p2 =
    Finished (Ok VNone)
      (with_pipelined_calls (_pipelined_calls p2 ∖ {[ 2%nat ]}) p2) /\
    futures p2 !! 2%nat = Some Pending.
Proof.
  assert (Htx : _in_transaction transaction_with_queued_set = true)
    by (vm_compute; reflexivity).
  destruct (discard_drops_queue transaction_with_queued_set Htx)
    as (c & p1 & Hrun & _ & _ & _ & _ & _ & _ & Hresume).
  exists c, p1. split; [exact Hrun|]. split.
  - apply Hresume.
    + vm_compute. reflexivity.
    + apply (bool_decide_unpack _). vm_compute. reflexivity.
    + vm_compute. reflexivity.
  - vm_compute. reflexivity.
Defined.

(** ** EXEC *)

(** C1 as stated fails: a SET is queued in a transaction and the server
    answers EXEC with the nil multi bulk reply [*-1].  The parser makes a
    [MultiBulkReply] of count -1 out of it, not [None]; exec returns
    normally and leaves the transaction, and the future handed out for
    the SET (future 2) is dropped from the queue still pending. *)
Lemma exec_nil_counterexample :
  let s1 := run (multi None None) (connection_made utf8 None 0) in
  let s2 := resume s1 (receive (b "+OK" ++ CRLF) (outcome_state s1)) in
  let s3 := run (set (u "k") (u "v") (Some 0%nat)) (outcome_state s2) in
  let s4 := resume s3 (receive (b "+QUEUED" ++ CRLF) (outcome_state s3)) in
  let s5 := run (Transaction.exec 0) (outcome_state s4) in
  let p5 := receive (b "*-1" ++ CRLF) (outcome_state s5) in
  let s6 := resume s5 p5 in
  result s4 = Some (Ok (VFuture 2)) /\
  transaction_futures (outcome_state s4) = [2%nat] /\
  futures p5 !! 3%nat = Some (Done (Ok (VMultiBulk 0))) /\
  replies p5 = [{| count := -1; queue := [] |}] /\
  result s6 = Some (Ok VNone) /\
  in_transaction (outcome_state s6) = false /\
  transaction_futures (outcome_state s6) = [] /\
  futures (outcome_state s6) !! 2%nat = Some Pending.
Proof. vm_compute. repeat split; reflexivity. Qed.

(** C1, amended. In a transaction, exec takes the transaction answer
    queue, sends EXEC and suspends on its reply.  When that reply is the
    null reply [None], exec raises the 'Transaction failed.'
    [RedisException] in its caller; it resolves none of the futures that
    were stored in the queue (no future of the protocol changes). *)
Theorem exec_null_reply (p : Protocol) :
  _in_transaction p = true ->
  let f := length (futures p) in
  let call := length (calls p) in
  exists c p1,
    run _exec p = Blocked c p1 /\
    transport p1
    = transport p ++ b "*1" ++ CRLF ++ b "$4" ++ CRLF ++ b "exec" ++ CRLF /\
    _transaction_response_queue p1 = None /\
    _queue p1 = _queue p ++ [f] /\
    futures p1 = futures p ++ [Pending] /\
    forall p2,
      futures p2 !! f = Some (Done (Ok VNone)) ->
      call ∈ _pipelined_calls p2 ->
      run c p2 =
      Finished (Err (RedisException TransactionFailed))
        (with_pipelined_calls (_pipelined_calls p2 ∖ {[ call ]}) p2).
Proof.
  intros Htx f call. unfold _exec.
  set (p0 := with_transaction_response_queue None p).
  destruct (query_unfold (b "exec") [] true None false p0) as (c0 & _ & Hq).
  eexists. exists (sent [b "exec"] false p0).
  split.
  { rewrite run_gets, Htx. cbn [negb]. rewrite run_gets, run_modify. fold p0.
    rewrite run_cbind.
    change [ArgBytes (b "exec")] with (map ArgBytes [b "exec"]).
    rewrite Hq. reflexivity. }
  split.
  { change (transport (sent [b "exec"] false p0))
      with (transport p ++ request [b "exec"]).
    apply (f_equal (app (transport p))). vm_compute. reflexivity. }
  do 3 (split; [reflexivity|]).
  intros p2 Hf Hcall.
  assert (Hm : _in_transaction p2 && negb true = false) by apply andb_false_r.
  rewrite run_cbind, (query_plain _ _ _ _ _ _ _ _ _ Hq Hf Hm).
  rewrite bool_decide_eq_true_2 by exact Hcall.
  reflexivity.
Qed.

Lemma exec_null_reply_witness :
  let p2 :=
    receive (b "$-1" ++ CRLF)
      (sent [b "exec"] false
         (with_transaction_response_queue None transaction_with_queued_set)) in
  exists c p1,
    run _exec transaction_with_queued_set = Blocked c p1 /\
    run c p2 =
    Finished (Err (RedisException TransactionFailed))
      (with_pipelined_calls (_pipelined_calls p2 ∖ {[ 2%nat ]}) p2).
Proof.
  assert (Htx : _in_transaction transaction_with_queued_set = true)
    by (vm_compute; reflexivity).
  destruct (exec_null_reply transaction_with_queued_set Htx)
    as (c & p1 & Hrun & _ & _ & _ & _ & Hresume).
  exists c, p1. split; [exact Hrun|]. apply Hresume.
  - vm_compute. reflexivity.
  - apply (bool_decide_unpack _). vm_compute. reflexivity.
Defined.

(** ** Connection loss *)

Lemma fail_all_notin (e : exn) (q : list nat) (fs : list FutState) (f : nat) :
  f ∉ q -> fail_all e q fs !! f = fs !! f.
Proof.
  revert fs. induction q as [|g q IH]; intros fs Hf; [reflexivity|].
  apply not_elem_of_cons in Hf as [Hne Hf]. simpl.
  rewrite IH by assumption. by apply list_lookup_insert_ne.
Qed.

Lemma fail_all_in (e : exn) (q : list nat) (fs : list FutState) (f : nat) :
  NoDup q -> f ∈ q -> is_Some (fs !! f) ->
  fail_all e q fs !! f = Some (Done (Err e)).
Proof.
  revert fs. induction q as [|g q IH]; intros fs Hnd Hf Hsome.
  - by apply elem_of_nil in Hf.
  - apply NoDup_cons in Hnd as [Hg Hnd]. simpl.
    apply elem_of_cons in Hf as [->|Hf].
    + rewrite fail_all_notin by assumption.
      apply list_lookup_insert_eq. by apply lookup_lt_is_Some.
    + apply IH; [assumption..|].
      apply lookup_lt_is_Some. rewrite length_insert.
      by apply lookup_lt_is_Some.
Qed.

Lemma fail_all_length (e : exn) (q : list nat) (fs : list FutState) :
  length (fail_all e q fs) = length fs.
Proof.
  revert fs. induction q as [|g q IH]; intros fs; [reflexivity|].
  simpl. rewrite IH. apply length_insert.
Qed.

Lemma connection_lost_loop_spec (exc : str) (q : list nat) :
  forall (turns : nat) (p : Protocol),
    _queue p = q ->
    (length q <= turns)%nat ->
    NoDup q ->
    (forall f, f ∈ q -> futures p !! f = Some Pending) ->
    connection_lost_loop turns exc p
    = (Ok tt,
       with_queue []
         (with_futures
            (fail_all (RedisException (ConnectionLost exc)) q (futures p)) p)).
Proof.
  induction q as [|f q IH]; intros turns p Hq Hturns Hnd Hpending.
  - destruct turns; simpl; rewrite Hq; rewrite <- Hq;
      destruct p; reflexivity.
  - destruct turns as [|turns]; [simpl in Hturns; lia|].
    apply NoDup_cons in Hnd as [Hf Hnd].
    simpl. rewrite Hq. unfold bind, popleft. rewrite Hq.
    unfold set_exception, resolve. cbn [futures with_queue].
    rewrite (Hpending f) by (apply elem_of_cons; by left).
    rewrite IH; [reflexivity|reflexivity|simpl in Hturns; lia|assumption|].
    intros g Hg. cbn [futures with_futures with_queue].
    rewrite list_lookup_insert_ne by (intros ->; contradiction).
    apply Hpending, elem_of_cons. by right.
Qed.

(** C3 as stated fails: the protocol holds a queued SET (future 2) in
    its transaction answer queue and waits for the reply to a second SET
    (future 3) when the connection is lost.  The waiting future 3 is
    failed; the queued future 2 is not, and it is still unresolved after
    [connection_lost]. *)
Lemma connection_lost_counterexample :
  let p := outcome_state
             (run (set (u "k2") (u "v2") (Some 0%nat))
                transaction_with_queued_set) in
  let outcome := connection_lost (u "None") p in
  _queue p = [3%nat] /\
  transaction_futures p = [2%nat] /\
  outcome.1 = Ok tt /\
  futures outcome.2 !! 3%nat
  = Some (Done (Err (RedisException (ConnectionLost (u "None"))))) /\
  transaction_futures outcome.2 = [2%nat] /\
  futures outcome.2 !! 2%nat = Some Pending /\
  length (unresolved outcome.2) = 1%nat.
Proof. vm_compute. repeat split; reflexivity. Qed.

(** C3, amended. When the connection is lost, every future waiting in
    the reply queue is failed with the 'Connection lost' [RedisException]
    and the reply queue is left empty.  Nothing else changes: the
    transaction answer queue keeps its entries and every future outside
    the reply queue, those of the transaction answer queue among them,
    stays as it was, so the unresolved futures that remain are those that
    were unresolved outside the reply queue. *)
Theorem connection_lost_fails_reply_queue (exc : str) (p : Protocol) :
  NoDup (_queue p) ->
  (forall f, f ∈ _queue p -> futures p !! f = Some Pending) ->
  exists p',
    connection_lost exc p = (Ok tt, p') /\
    _queue p' = [] /\
    (forall f, f ∈ _queue p ->
       futures p' !! f = Some (Done (Err (RedisException (ConnectionLost exc))))) /\
    (forall f, f ∉ _queue p -> futures p' !! f = futures p !! f) /\
    _transaction_response_queue p' = _transaction_response_queue p /\
    unresolved p' = filter (fun f => f ∉ _queue p) (unresolved p).
Proof.
  intros Hnd Hpending.
  eexists. split.
  { unfold connection_lost, bind, gets. cbn [id].
    apply connection_lost_loop_spec; auto. }
  split; [reflexivity|]. split; [|split; [|split; [reflexivity|]]].
  - intros f Hf. cbn [futures with_futures with_queue].
    apply fail_all_in; [assumption..|]. rewrite (Hpending f Hf). eauto.
  - intros f Hf. cbn [futures with_futures with_queue].
    by apply fail_all_notin.
  - unfold unresolved, pending. cbn [futures with_futures with_queue].
    set (e := RedisException (ConnectionLost exc)).
    rewrite fail_all_length, list_filter_filter.
    apply list_filter_iff. intros f. split.
    + intros Hf. destruct (decide (f ∈ _queue p)) as [Hin|Hnotin].
      * rewrite (fail_all_in e _ _ f Hnd Hin) in Hf; [discriminate|].
        rewrite (Hpending f Hin). eauto.
      * rewrite fail_all_notin in Hf by assumption. auto.
    + intros [Hf Hnotin]. by rewrite fail_all_notin.
Qed.

Lemma connection_lost_fails_reply_queue_witness :
  let p := outcome_state
             (run (set (u "k2") (u "v2") (Some 0%nat))
                transaction_with_queued_set) in
  exists p',
    connection_lost (u "None") p = (Ok tt, p') /\
    _queue p' = [] /\
    futures p' !! 3%nat
    = Some (Done (Err (RedisException (ConnectionLost (u "None"))))) /\
    futures p' !! 2%nat = Some Pending.
Proof.
  intros p.
  assert (Hnd : NoDup (_queue p))
    by (apply (bool_decide_unpack _); vm_compute; reflexivity).
  assert (Hpending : forall f, f ∈ _queue p -> futures p !! f = Some Pending).
  { intros f Hf. assert (Hq : _queue p = [3%nat]) by (vm_compute; reflexivity).
    rewrite Hq in Hf. apply list_elem_of_singleton in Hf as ->.
    vm_compute. reflexivity. }
  destruct (connection_lost_fails_reply_queue (u "None") p Hnd Hpending)
    as (p' & Hrun & Hq & Hin & Hout & _).
  exists p'. split; [exact Hrun|]. split; [exact Hq|]. split.
  - apply Hin. apply (bool_decide_unpack _). vm_compute. reflexivity.
  - rewrite Hout.
    + vm_compute. reflexivity.
    + apply (bool_decide_unpack _). vm_compute. reflexivity.
Defined.

(** ** Call records *)

(** C9 fails on the code. A blocking BRPOPLPUSH is answered with an
    error reply: the command raises the server's error in its caller and
    no future is left unresolved, but the call record (call 0) is still
    in [_pipelined_calls].  The protocol keeps reporting a blocking call
    in progress and the pool never hands it out again. *)
Lemma error_reply_keeps_call_record :
  let s1 := run (brpoplpush (u "src") (u "dst") 0 None)
              (connection_made utf8 None 0) in
  let p1 := receive (b "-WRONGTYPE wrong kind of value" ++ CRLF)
              (outcome_state s1) in
  let s2 := resume s1 p1 in
  elements (_pipelined_calls (outcome_state s1)) = [0%nat] /\
  result s2
  = Some (Err (RedisException (ServerError (b "WRONGTYPE wrong kind of value")))) /\
  unresolved (outcome_state s2) = [] /\
  elements (_pipelined_calls (outcome_state s2)) = [0%nat] /\
  in_blocking_call (outcome_state s2) = true /\
  in_use (outcome_state s2) = true /\
  (Connection.__getattr__ "get"
     {| _poolsize := 1; _transport_protocol_pairs := [0%nat];
        protocols := [outcome_state s2] |}).1
  = Err (RedisException PoolInUse).
Proof. vm_compute. repeat split; reflexivity. Qed.

(** The same command answered with a value: the record is removed. *)
Lemma value_reply_removes_call_record :
  let s1 := run (brpoplpush (u "src") (u "dst") 0 None)
              (connection_made utf8 None 0) in
  let s2 := resume s1 (receive (b "$1" ++ CRLF ++ b "x" ++ CRLF)
                         (outcome_state s1)) in
  result s2 = Some (Ok (VStr (u "x"))) /\
  elements (_pipelined_calls (outcome_state s2)) = [] /\
  in_use (outcome_state s2) = false.
Proof. vm_compute. repeat split; reflexivity. Qed.

(** ** SET *)

(** C10 as stated fails: the request written for [set('hello', 'world')]
    is not the frame with the upper-case command name. *)
Lemma set_request_counterexample :
  transport (outcome_state (run (set (u "hello") (u "world") None)
                              (connection_made utf8 None 0)))
  <> b "*3" ++ CRLF ++ b "$3" ++ CRLF ++ b "SET" ++ CRLF
     ++ b "$5" ++ CRLF ++ b "hello" ++ CRLF
     ++ b "$5" ++ CRLF ++ b "world" ++ CRLF.
Proof. vm_compute. discriminate. Qed.

(** C10, amended. [set('hello', 'world')] on a fresh protocol writes
    exactly the request [*3\r\n$3\r\nset\r\n$5\r\nhello\r\n$5\r\nworld\r\n],
    with the command name in lower case, and suspends; when the server
    replies [+OK\r\n] the future of the command is resolved and the
    command returns [StatusReply('OK')]. *)
Theorem set_hello_world :
  let s1 := run (set (u "hello") (u "world") None)
              (connection_made utf8 None 0) in
  let p1 := receive (b "+OK" ++ CRLF) (outcome_state s1) in
  let s2 := resume s1 p1 in
  result s1 = None /\
  transport (outcome_state s1)
  = b "*3" ++ CRLF ++ b "$3" ++ CRLF ++ b "set" ++ CRLF
    ++ b "$5" ++ CRLF ++ b "hello" ++ CRLF
    ++ b "$5" ++ CRLF ++ b "world" ++ CRLF /\
  _queue (outcome_state s1) = [0%nat] /\
  futures p1 = [Done (Ok (VStatus (u "OK")))] /\
  result s2 = Some (Ok (VStatus (u "OK"))) /\
  transport (outcome_state s2) = transport (outcome_state s1).
Proof. vm_compute. repeat split; reflexivity. Qed.

(** ** Answering the reply queue *)

Lemma push_answer_spec (answer : Value) (p : Protocol) (f : nat) (q : list nat) :
  _queue p = f :: q ->
  futures p !! f = Some Pending ->
  _push_answer answer p
  = (Ok tt,
     with_futures (<[f := Done (answer_result answer)]> (futures p))
       (with_queue q p)).
Proof.
  intros Hq Hf. unfold _push_answer, bind, popleft. rewrite Hq.
  destruct answer; unfold set_result, set_exception, resolve;
    cbn [futures with_queue]; rewrite Hf; reflexivity.
Qed.

Lemma push_answer_empty (answer : Value) (p : Protocol) :
  _queue p = [] -> _push_answer answer p = (Err IndexError, p).
Proof.
  intros Hq. unfold _push_answer, bind, popleft. rewrite Hq. reflexivity.
Qed.

Lemma new_futures_spec (n : nat) (p : Protocol) :
  new_futures n p
  = (Ok (seq (length (futures p)) n),
     with_futures (futures p ++ replicate n Pending) p).
Proof.
  revert p. induction n as [|n IH]; intros p.
  - simpl. unfold ret. rewrite app_nil_r. destruct p; reflexivity.
  - simpl. unfold bind, Future at 1. rewrite IH. unfold ret.
    cbn [futures with_futures]. rewrite length_app, <- app_assoc. simpl.
    rewrite Nat.add_1_r. reflexivity.
Qed.

Lemma push_answers_spec (fs : list nat) :
  forall (answers : list Value) (q : list nat) (p : Protocol),
    _queue p = fs ++ q ->
    NoDup fs ->
    (forall f, f ∈ fs -> futures p !! f = Some Pending) ->
    length answers = length fs ->
    exists p',
      push_answers answers p = (Ok tt, p') /\
      _queue p' = q /\
      (forall i f a, fs !! i = Some f -> answers !! i = Some a ->
         futures p' !! f = Some (Done (answer_result a))) /\
      (forall g, g ∉ fs -> futures p' !! g = futures p !! g).
Proof.
  induction fs as [|c fs IH]; intros answers q p Hq Hnd Hpending Hlen.
  - destruct answers; [|discriminate]. exists p. simpl.
    split; [reflexivity|]. split; [exact Hq|]. split; [|reflexivity].
    intros i f a Hi. by rewrite lookup_nil in Hi.
  - destruct answers as [|a answers]; [discriminate|].
    apply NoDup_cons in Hnd as [Hc Hnd].
    assert (Hcp : futures p !! c = Some Pending)
      by (apply Hpending, elem_of_cons; by left).
    simpl. unfold bind.
    rewrite (push_answer_spec a p c (fs ++ q) Hq Hcp).
    destruct (IH answers q
                (with_futures (<[c := Done (answer_result a)]> (futures p))
                   (with_queue (fs ++ q) p)))
      as (p' & Hrun & Hq' & Hin & Hout).
    + reflexivity.
    + exact Hnd.
    + intros f Hf. cbn [futures with_futures with_queue].
      rewrite list_lookup_insert_ne by (intros ->; contradiction).
      apply Hpending, elem_of_cons. by right.
    + simpl in Hlen. lia.
    + exists p'. split; [exact Hrun|]. split; [exact Hq'|]. split.
      * intros [|i] f b Hi Hb; simpl in Hi, Hb.
        -- injection Hi as <-. injection Hb as <-.
           rewrite Hout by exact Hc. cbn [futures with_futures with_queue].
           apply list_lookup_insert_eq. by apply lookup_lt_Some in Hcp.
        -- by apply (Hin i).
      * intros g Hg. apply not_elem_of_cons in Hg as [Hne Hg].
        rewrite Hout by exact Hg. cbn [futures with_futures with_queue].
        by apply list_lookup_insert_ne.
Qed.

Lemma handle_multi_bulk_reply_spec (line : bytes) (n : Z) (p : Protocol)
    (f : nat) (q : list nat) :
  _in_pubsub p = false ->
  _queue p = f :: q ->
  futures p !! f = Some Pending ->
  int line = Ok n ->
  _handle_multi_bulk_reply line p = (Ok tt, multi_bulk_header n f q p).
Proof.
  intros Hps Hq Hf Hint.
  unfold _handle_multi_bulk_reply, bind, lift. rewrite Hint.
  unfold new_MultiBulkReply, gets. cbn [_in_pubsub with_replies]. rewrite Hps.
  rewrite (push_answer_spec _ _ f q) by assumption.
  rewrite new_futures_spec.
  unfold appendleft_all, Task, modify, multi_bulk_header.
  cbn [futures with_futures with_queue with_replies _queue tasks with_tasks
       answer_result].
  rewrite length_insert. reflexivity.
Qed.

Lemma push_answer_answers_head (answer : Value) (p : Protocol) (f : nat)
    (q : list nat) :
  _queue p = f :: q ->
  futures p !! f = Some Pending ->
  answers_head (_push_answer answer) p f q (answer_result answer).
Proof.
  intros Hq Hf. eexists. rewrite (push_answer_spec answer p f q Hq Hf).
  repeat split.
Qed.

Ltac prefix_test :=
  first [ rewrite bool_decide_eq_true_2 by reflexivity
        | rewrite bool_decide_eq_false_2 by (vm_compute; discriminate) ].

Lemma line_received_status (line : bytes) (p : Protocol) :
  _line_received (b "+" ++ line) p = _handle_status_reply line p.
Proof. unfold _line_received. cbn [take drop app]. by repeat prefix_test. Qed.

Lemma line_received_error (line : bytes) (p : Protocol) :
  _line_received (b "-" ++ line) p = _handle_error_reply line p.
Proof. unfold _line_received. cbn [take drop app]. by repeat prefix_test. Qed.

Lemma line_received_bulk (line : bytes) (p : Protocol) :
  _line_received (b "$" ++ line) p = _handle_bulk_reply line p.
Proof. unfold _line_received. cbn [take drop app]. by repeat prefix_test. Qed.

Lemma line_received_multi_bulk (line : bytes) (p : Protocol) :
  _line_received (b "*" ++ line) p = _handle_multi_bulk_reply line p.
Proof. unfold _line_received. cbn [take drop app]. by repeat prefix_test. Qed.

Lemma line_received_int (line : bytes) (p : Protocol) :
  _line_received (b ":" ++ line) p = _handle_int_reply line p.
Proof. unfold _line_received. cbn [take drop app]. by repeat prefix_test. Qed.

(** ** Nested multi bulk replies *)

Lemma Frame_nested_ind (P : Frame -> Prop) :
  (forall answer, P (Single answer)) ->
  (forall line children, Forall P children -> P (Header line children)) ->
  forall frame, P frame.
Proof.
  intros HS HH. fix IH 1. intros [answer|line children]; [apply HS|].
  apply HH. induction children as [|frame children IHc]; constructor.
  - apply IH.
  - exact IHc.
Qed.

Lemma answer_frame_Header (line : bytes) (children : list Frame) :
  answer_frame (Header line children)
  = bind (_handle_multi_bulk_reply line) (fun _ => answer_frames children).
Proof. reflexivity. Qed.

Lemma holds_reply_later (frame : Frame) (touched : nat -> Prop)
    (p p' : Protocol) (f : nat) :
  holds_reply frame p f -> later touched p p' -> ~ touched f ->
  holds_reply frame p' f.
Proof.
  intros Hholds (_ & _ & Hfut & Hrep) Hf.
  destruct frame as [answer|line children]; simpl in *.
  - rewrite Hfut; [assumption| |assumption]. by apply lookup_lt_Some in Hholds.
  - destruct Hholds as (reply & r & Hres & Hr & Hint).
    exists reply, r. split; [|split; [by apply Hrep|assumption]].
    rewrite Hfut; [assumption| |assumption]. by apply lookup_lt_Some in Hres.
Qed.

Lemma answer_frames_spec (frames : list Frame) :
  Forall answered_to_head frames ->
  Forall well_formed frames ->
  forall (p : Protocol) (cs q : list nat),
    _in_pubsub p = false ->
    _queue p = cs ++ q ->
    length cs = length frames ->
    NoDup cs ->
    (forall c, c ∈ cs -> futures p !! c = Some Pending) ->
    exists p',
      answer_frames frames p = (Ok tt, p') /\
      _queue p' = q /\
      (forall i c frame, cs !! i = Some c -> frames !! i = Some frame ->
         holds_reply frame p' c) /\
      later (fun g => g ∈ cs) p p'.
Proof.
  induction frames as [|frame frames IH];
    intros Hall Hwf p cs q Hps Hq Hlen Hnd Hpending.
  - destruct cs; [|discriminate]. exists p. simpl.
    split; [reflexivity|]. split; [exact Hq|]. split.
    + intros i c frame Hi. by rewrite lookup_nil in Hi.
    + repeat split; auto.
  - destruct cs as [|c cs]; [discriminate|].
    apply Forall_cons in Hall as [Hframe Hall].
    apply Forall_cons in Hwf as [Hwf1 Hwf].
    apply NoDup_cons in Hnd as [Hc Hnd].
    assert (Hcp : futures p !! c = Some Pending)
      by (apply Hpending, elem_of_cons; by left).
    destruct (Hframe Hwf1 p c (cs ++ q) Hps Hq Hcp)
      as (p1 & Hrun1 & Hq1 & Hholds1 & Hlater1).
    pose proof Hlater1 as (Hps1 & Hlen1 & Hfut1 & Hrep1).
    destruct (IH Hall Hwf p1 cs q) as (p' & Hrun & Hq' & Hholds & Hlater).
    + by rewrite Hps1.
    + exact Hq1.
    + simpl in Hlen. lia.
    + exact Hnd.
    + intros g Hg.
      assert (Hgp : futures p !! g = Some Pending)
        by (apply Hpending, elem_of_cons; by right).
      rewrite Hfut1; [exact Hgp|by apply lookup_lt_Some in Hgp|].
      intros ->. contradiction.
    + pose proof Hlater as (Hps' & Hlen' & Hfut' & Hrep').
      exists p'. split.
      { simpl. unfold bind. rewrite Hrun1. exact Hrun. }
      split; [exact Hq'|]. split.
      * intros [|i] g fr Hi Hfr; simpl in Hi, Hfr.
        -- simplify_eq. by apply (holds_reply_later _ _ _ _ _ Hholds1 Hlater).
        -- by apply (Hholds i).
      * split; [by rewrite Hps', Hps1|]. split; [lia|]. split.
        -- intros g Hg Hng. apply not_elem_of_cons in Hng as [Hne Hng].
           rewrite Hfut' by (assumption || lia). by apply Hfut1.
        -- intros reply r Hr. by apply Hrep', Hrep1.
Qed.

Lemma answer_frame_spec (frame : Frame) : answered_to_head frame.
Proof.
  induction frame as [answer|line children IH] using Frame_nested_ind;
    intros Hwf p f q Hps Hq Hf.
  - exists (with_futures (<[f := Done (answer_result answer)]> (futures p))
              (with_queue q p)).
    split; [by apply push_answer_spec|]. split; [reflexivity|].
    apply lookup_lt_Some in Hf as Hflt.
    unfold later. cbn [holds_reply futures with_futures with_queue].
    split; [by apply list_lookup_insert_eq|].
    split; [reflexivity|]. split; [by rewrite length_insert|].
    split; [|auto].
    intros g _ Hg. apply list_lookup_insert_ne. congruence.
  - inversion Hwf as [|line' children' n Hint Hlen Hwfc]; subst.
    apply lookup_lt_Some in Hf as Hflt.
    set (p1 := multi_bulk_header n f q p).
    set (cs := seq (length (futures p)) (Z.to_nat n)).
    destruct (answer_frames_spec children IH Hwfc p1 cs q)
      as (p' & Hrun & Hq' & Hholds & Hlater).
    + exact Hps.
    + reflexivity.
    + unfold cs. by rewrite length_seq.
    + apply NoDup_seq.
    + intros c Hc. apply elem_of_seq in Hc. unfold p1, multi_bulk_header.
      cbn [futures with_futures with_queue with_tasks].
      rewrite lookup_app_r by (rewrite length_insert; lia).
      rewrite length_insert. apply lookup_replicate_2. lia.
    + pose proof Hlater as (Hps' & Hlen' & Hfut' & Hrep').
      assert (Hf1 : futures p1 !! f
                    = Some (Done (Ok (VMultiBulk (length (replies p)))))).
      { unfold p1, multi_bulk_header.
        cbn [futures with_futures with_queue with_tasks].
        rewrite lookup_app_l by (by rewrite length_insert).
        by apply list_lookup_insert_eq. }
      assert (Hlen1 : (length (futures p) <= length (futures p1))%nat).
      { unfold p1, multi_bulk_header.
        cbn [futures with_futures with_queue with_tasks].
        rewrite length_app, length_insert. lia. }
      assert (Hfcs : f ∉ cs).
      { unfold cs. rewrite elem_of_seq. lia. }
      exists p'. split.
      { rewrite answer_frame_Header. unfold bind.
        rewrite (handle_multi_bulk_reply_spec line n p f q Hps Hq Hf Hint).
        exact Hrun. }
      split; [exact Hq'|]. split.
      * exists (length (replies p)), {| count := n; queue := [] |}.
        split; [|split; [|exact Hint]].
        -- rewrite Hfut' by (assumption || lia). exact Hf1.
        -- apply Hrep'. unfold p1, multi_bulk_header.
           cbn [replies with_replies with_futures with_queue with_tasks].
           by apply list_lookup_middle.
      * split; [by rewrite Hps'|]. split; [lia|]. split.
        -- intros g Hg Hne.
           rewrite Hfut'; [|lia|unfold cs; rewrite elem_of_seq; lia].
           unfold p1, multi_bulk_header.
           cbn [futures with_futures with_queue with_tasks].
           rewrite lookup_app_l by (rewrite length_insert; lia).
           apply list_lookup_insert_ne. congruence.
        -- intros reply r Hr. apply Hrep'. unfold p1, multi_bulk_header.
           cbn [replies with_replies with_futures with_queue with_tasks].
           by apply lookup_app_l_Some.
Qed.

(** C2. Outside pubsub mode, every reply the parser decodes pops the
    future at the head of the reply queue and resolves it with that reply
    (an error reply becomes the future's exception).  The header of a
    multi bulk reply with [n >= 0] children moreover creates exactly [n]
    new futures and puts them, in order, at the head of the queue, so that
    the next [n] replies answered by the parser resolve the children in
    wire order and leave the rest of the queue as it was; this also holds
    when children are multi bulk replies themselves, each child then
    being followed by its own children. *)
Theorem replies_answer_head_of_queue (p : Protocol) (f : nat) (q : list nat) :
  _in_pubsub p = false ->
  _queue p = f :: q ->
  futures p !! f = Some Pending ->
  (forall answer,
     answers_head (_push_answer answer) p f q (answer_result answer)) /\
  (forall line status, decode ascii line = Ok status ->
     answers_head (_line_received (b "+" ++ line)) p f q (Ok (VStatus status))) /\
  (forall line,
     answers_head (_line_received (b "-" ++ line)) p f q
       (Err (RedisException (ServerError line)))) /\
  (forall line n, int line = Ok n ->
     answers_head (_line_received (b ":" ++ line)) p f q (Ok (VInt n))) /\
  (forall line, int line = Ok (-1) ->
     answers_head (_line_received (b "$" ++ line)) p f q (Ok VNone)) /\
  (forall line value,
     let buffer := _bulk_reply_buffer p ++ line ++ CRLF in
     Z.of_nat (length buffer) > _bulk_reply_len p ->
     decode (encoding p) (slice_to (_bulk_reply_len p) buffer) = Ok value ->
     answers_head (_handle_bulk_reply_part line) p f q (Ok (VStr value))) /\
  (forall line n, int line = Ok n -> 0 <= n ->
     let reply := length (replies p) in
     let children := seq (length (futures p)) (Z.to_nat n) in
     exists p',
       _line_received (b "*" ++ line) p = (Ok tt, p') /\
       replies p' = replies p ++ [{| count := n; queue := [] |}] /\
       futures p'
       = <[f := Done (Ok (VMultiBulk reply))]> (futures p)
         ++ replicate (Z.to_nat n) Pending /\
       _queue p' = children ++ q /\
       forall answers, length answers = Z.to_nat n ->
         exists p'',
           push_answers answers p' = (Ok tt, p'') /\
           _queue p'' = q /\
           (forall i c a, children !! i = Some c -> answers !! i = Some a ->
              futures p'' !! c = Some (Done (answer_result a))) /\
           (forall g, g ∉ children -> futures p'' !! g = futures p' !! g)) /\
  (forall line children, well_formed (Header line children) ->
     exists p',
       answer_frame (Header line children) p = (Ok tt, p') /\
       _queue p' = q /\
       holds_reply (Header line children) p' f /\
       forall i child, children !! i = Some child ->
         holds_reply child p' (length (futures p) + i)).
Proof.
  intros Hps Hq Hf.
  assert (Hpush := fun a => push_answer_answers_head a p f q Hq Hf).
  split; [exact Hpush|].
  split.
  { intros line status Hdec. unfold answers_head.
    rewrite line_received_status. unfold _handle_status_reply, bind, lift.
    rewrite Hdec. apply (Hpush (VStatus status)). }
  split.
  { intros line. unfold answers_head. rewrite line_received_error.
    apply (Hpush (VExc (RedisException (ServerError line)))). }
  split.
  { intros line n Hint. unfold answers_head. rewrite line_received_int.
    unfold _handle_int_reply, bind, lift. rewrite Hint.
    apply (Hpush (VInt n)). }
  split.
  { intros line Hint. unfold answers_head. rewrite line_received_bulk.
    unfold _handle_bulk_reply, bind, lift. rewrite Hint.
    rewrite bool_decide_eq_true_2 by reflexivity. apply (Hpush VNone). }
  split.
  { intros line value buffer Hlen Hdec.
    unfold answers_head, _handle_bulk_reply_part, bind, modify, gets, _decode, lift.
    cbn [_bulk_reply_buffer with_bulk_reply_buffer _bulk_reply_len encoding].
    rewrite <- app_assoc. fold buffer.
    rewrite (proj2 (Z.gtb_gt _ _)) by lia.
    unfold bind, gets. cbn [encoding with_bulk_reply_buffer]. rewrite Hdec.
    rewrite (push_answer_spec (VStr value) _ f q) by assumption.
    eexists. repeat split. }
  assert (Hflen : (f < length (futures p))%nat) by (by apply lookup_lt_Some in Hf).
  assert (Hchildren : forall n c, c ∈ seq (length (futures p)) (Z.to_nat n) ->
            futures (multi_bulk_header n f q p) !! c = Some Pending).
  { intros n c Hc. unfold multi_bulk_header.
    cbn [futures with_futures with_queue with_tasks].
    apply elem_of_seq in Hc.
    rewrite lookup_app_r by (rewrite length_insert; lia).
    rewrite length_insert. apply lookup_replicate_2. lia. }
  split.
  { intros line n Hint Hn reply children.
    rewrite line_received_multi_bulk.
    rewrite (handle_multi_bulk_reply_spec line n p f q Hps Hq Hf Hint).
    eexists. split; [reflexivity|]. do 3 (split; [reflexivity|]).
    intros answers Hlen.
    apply push_answers_spec.
    - reflexivity.
    - apply NoDup_seq.
    - apply Hchildren.
    - unfold children. by rewrite length_seq. }
  intros line children Hwf.
  destruct (answer_frame_spec _ Hwf p f q Hps Hq Hf)
    as (p' & Hrun & Hq' & Hholds & _).
  exists p'. split; [exact Hrun|]. split; [exact Hq'|]. split; [exact Hholds|].
  inversion Hwf as [|line' children' n Hint Hlen Hwfc]; subst line' children'.
  rewrite answer_frame_Header in Hrun. unfold bind in Hrun.
  rewrite (handle_multi_bulk_reply_spec line n p f q Hps Hq Hf Hint) in Hrun.
  destruct (answer_frames_spec children
              (proj2 (Forall_forall _ _) (fun fr _ => answer_frame_spec fr))
              Hwfc (multi_bulk_header n f q p)
              (seq (length (futures p)) (Z.to_nat n)) q)
    as (p'' & Hrun' & _ & Hholds' & _).
  - exact Hps.
  - reflexivity.
  - by rewrite length_seq.
  - apply NoDup_seq.
  - apply Hchildren.
  - rewrite Hrun' in Hrun. injection Hrun as <-.
    intros i child Hi. apply (Hholds' i); [|exact Hi].
    apply lookup_seq. split; [reflexivity|].
    rewrite <- Hlen. by apply lookup_lt_Some in Hi.
Qed.

Lemma replies_answer_head_of_queue_witness :
  exists p' p'',
    _line_received (b "*" ++ b "3") waiting_for_mget = (Ok tt, p') /\
    _queue p' = [1; 2; 3]%nat /\
    push_answers [VStr (u "x"); VNone; VStr (u "z")] p' = (Ok tt, p'') /\
    _queue p'' = [] /\
    futures p'' !! 1%nat = Some (Done (Ok (VStr (u "x")))) /\
    futures p'' !! 2%nat = Some (Done (Ok VNone)) /\
    futures p'' !! 3%nat = Some (Done (Ok (VStr (u "z")))).
Proof.
  assert (Hps : _in_pubsub waiting_for_mget = false) by (vm_compute; reflexivity).
  assert (Hq : _queue waiting_for_mget = [0%nat]) by (vm_compute; reflexivity).
  assert (Hf : futures waiting_for_mget !! 0%nat = Some Pending)
    by (vm_compute; reflexivity).
  destruct (replies_answer_head_of_queue waiting_for_mget 0 [] Hps Hq Hf)
    as (_ & _ & _ & _ & _ & _ & Hmulti & _).
  assert (Hint : int (b "3") = Ok 3) by (vm_compute; reflexivity).
  destruct (Hmulti (b "3") 3 Hint ltac:(lia))
    as (p' & Hrun & _ & _ & Hq' & Hchildren).
  destruct (Hchildren [VStr (u "x"); VNone; VStr (u "z")] eq_refl)
    as (p'' & Hpush & Hq'' & Hres & _).
  exists p', p''. split; [exact Hrun|]. split.
  { rewrite Hq'. vm_compute. reflexivity. }
  split; [exact Hpush|]. split; [exact Hq''|].
  split; [|split].
  - apply (Hres 0%nat 1%nat (VStr (u "x"))); vm_compute; reflexivity.
  - apply (Hres 1%nat 2%nat VNone); vm_compute; reflexivity.
  - apply (Hres 2%nat 3%nat (VStr (u "z"))); vm_compute; reflexivity.
Defined.

(** A multi bulk reply whose first child is a multi bulk reply, as an
    EXEC reply can be: on the wire [*2 *1 $1 a :1].  The parser and
    [answer_frame] agree; the children are futures 1 and 2 and the
    grandchild, which arrives between them, is future 3. *)
Example nested_reply :
  let frame := Header (b "2") [Header (b "1") [Single (VStr (u "a"))];
                               Single (VInt 1)] in
  let wire := b "*2" ++ CRLF ++ b "*1" ++ CRLF ++ b "$1" ++ CRLF
              ++ b "a" ++ CRLF ++ b ":1" ++ CRLF in
  let p := (answer_frame frame waiting_for_mget).2 in
  futures (receive wire waiting_for_mget) = futures p /\
  _queue p = [] /\
  futures p = [Done (Ok (VMultiBulk 0)); Done (Ok (VMultiBulk 1));
               Done (Ok (VInt 1)); Done (Ok (VStr (u "a")))] /\
  replies p = [{| count := 2; queue := [] |}; {| count := 1; queue := [] |}].
Proof. vm_compute. repeat split; reflexivity. Qed.

(** ** The parser and the chunking of its input *)

Lemma split_crlf_cons (c d : byte) (buffer : bytes) :
  split_crlf (c :: d :: buffer) =
  if bool_decide (c = CR) && bool_decide (d = LF) then Some ([], buffer)
  else match split_crlf (d :: buffer) with
       | Some (line, r) => Some (c :: line, r)
       | None => None
       end.
Proof. reflexivity. Qed.

Lemma split_crlf_Some (buffer line rest : bytes) :
  split_crlf buffer = Some (line, rest) -> buffer = line ++ CRLF ++ rest.
Proof.
  revert line. induction buffer as [|c buffer IH]; intros line; [intros [=]|].
  destruct buffer as [|d buffer]; [intros [=]|].
  rewrite split_crlf_cons.
  destruct (bool_decide (c = CR) && bool_decide (d = LF)) eqn:Htest.
  - intros ?. simplify_eq. apply andb_true_iff in Htest as [Hc Hd].
    apply bool_decide_eq_true in Hc, Hd. by subst.
  - destruct (split_crlf (d :: buffer)) as [[line' rest']|]; [|intros [=]].
    intros ?. simplify_eq. simpl. f_equal. by apply IH.
Qed.

Lemma split_crlf_app (buffer line rest data : bytes) :
  split_crlf buffer = Some (line, rest) ->
  split_crlf (buffer ++ data) = Some (line, rest ++ data).
Proof.
  revert line. induction buffer as [|c buffer IH]; intros line; [intros [=]|].
  destruct buffer as [|d buffer]; [intros [=]|].
  change ((c :: d :: buffer) ++ data) with (c :: d :: (buffer ++ data)).
  rewrite !split_crlf_cons.
  destruct (bool_decide (c = CR) && bool_decide (d = LF)).
  - intros ?. by simplify_eq.
  - change (d :: (buffer ++ data)) with ((d :: buffer) ++ data).
    destruct (split_crlf (d :: buffer)) as [[line' rest']|]; [|intros [=]].
    intros ?. simplify_eq. by rewrite (IH line' eq_refl).
Qed.

Lemma split_crlf_shorter (buffer line rest : bytes) :
  split_crlf buffer = Some (line, rest) -> (length rest < length buffer)%nat.
Proof.
  intros H. apply split_crlf_Some in H as ->. rewrite !length_app. simpl. lia.
Qed.

Lemma buffer_free_ret {A} (a : A) : buffer_free (ret a).
Proof. intros buf p. reflexivity. Qed.

Lemma buffer_free_raise {A} (e : exn) : buffer_free (raise (A := A) e).
Proof. intros buf p. reflexivity. Qed.

Lemma buffer_free_lift {A} (r : Res A) : buffer_free (lift r).
Proof. intros buf p. reflexivity. Qed.

Lemma buffer_free_bind {A B} (m : M A) (k : A -> M B) :
  buffer_free m -> (forall a, buffer_free (k a)) -> buffer_free (bind m k).
Proof.
  intros Hm Hk buf p. unfold bind. rewrite Hm.
  destruct (m p) as [[a|e] p']; simpl; [apply Hk|reflexivity].
Qed.

Lemma buffer_free_gets {A} (f : Protocol -> A) :
  (forall buf p, f (with_buffer buf p) = f p) -> buffer_free (gets f).
Proof. intros Hf buf p. unfold gets. simpl. by rewrite Hf. Qed.

Lemma buffer_free_modify (g : Protocol -> Protocol) :
  (forall buf p, g (with_buffer buf p) = with_buffer buf (g p)) ->
  buffer_free (modify g).
Proof. intros Hg buf p. unfold modify. simpl. by rewrite Hg. Qed.

Lemma buffer_free_if {A} (c : bool) (m1 m2 : M A) :
  buffer_free m1 -> buffer_free m2 -> buffer_free (if c then m1 else m2).
Proof. by destruct c. Qed.

Lemma buffer_free_Future : buffer_free Future.
Proof. intros buf p. reflexivity. Qed.

Lemma buffer_free_resolve (f : nat) (r : Res Value) : buffer_free (resolve f r).
Proof.
  intros buf p. unfold resolve. cbn [futures with_buffer].
  destruct (futures p !! f) as [[|]|]; reflexivity.
Qed.

Lemma buffer_free_set_result (f : nat) (v : Value) :
  buffer_free (set_result f v).
Proof. apply buffer_free_resolve. Qed.

Lemma buffer_free_set_exception (f : nat) (e : exn) :
  buffer_free (set_exception f e).
Proof. apply buffer_free_resolve. Qed.

Lemma buffer_free_popleft : buffer_free popleft.
Proof.
  intros buf p. unfold popleft. cbn [_queue with_buffer].
  destruct (_queue p); reflexivity.
Qed.

Lemma buffer_free_new_MultiBulkReply (n : Z) : buffer_free (new_MultiBulkReply n).
Proof. intros buf p. reflexivity. Qed.

Lemma buffer_free_Task (t : TaskSpec) : buffer_free (Task t).
Proof. intros buf p. reflexivity. Qed.

Lemma buffer_free_new_futures (n : nat) : buffer_free (new_futures n).
Proof. intros buf p. rewrite !new_futures_spec. reflexivity. Qed.

Create HintDb buffer_free.
#[local] Hint Resolve buffer_free_ret buffer_free_raise buffer_free_lift
  buffer_free_bind buffer_free_if buffer_free_Future buffer_free_resolve
  buffer_free_set_result buffer_free_set_exception buffer_free_popleft buffer_free_new_MultiBulkReply buffer_free_Task
  buffer_free_new_futures : buffer_free.
#[local] Hint Extern 1 (buffer_free (gets _)) =>
  apply buffer_free_gets; reflexivity : buffer_free.
#[local] Hint Extern 1 (buffer_free (modify _)) =>
  apply buffer_free_modify; reflexivity : buffer_free.

Lemma buffer_free_push_answer (answer : Value) : buffer_free (_push_answer answer).
Proof.
  unfold _push_answer. apply buffer_free_bind; [auto with buffer_free|].
  intros f. destruct answer; apply buffer_free_resolve.
Qed.
#[local] Hint Resolve buffer_free_push_answer : buffer_free.

Lemma buffer_free_line_received (line : bytes) : buffer_free (_line_received line).
Proof.
  unfold _line_received, _handle_status_reply, _handle_error_reply,
    _handle_bulk_reply, _handle_multi_bulk_reply, _handle_int_reply,
    appendleft_all.
  repeat first
    [ solve [auto with buffer_free]
    | apply buffer_free_if
    | apply buffer_free_bind; [|intros ?] ].
Qed.

Lemma buffer_free_bulk_reply_part (line : bytes) :
  buffer_free (_handle_bulk_reply_part line).
Proof.
  unfold _handle_bulk_reply_part, _decode.
  repeat first
    [ solve [auto with buffer_free]
    | apply buffer_free_if
    | apply buffer_free_bind; [|intros ?] ].
Qed.

Lemma buffer_free_dispatch (line : bytes) : buffer_free (dispatch line).
Proof.
  intros buf p. unfold dispatch. cbn [_in_bulk_reply with_buffer].
  destruct (_in_bulk_reply p);
    [apply buffer_free_bulk_reply_part | apply buffer_free_line_received].
Qed.

Lemma with_buffer_id (p : Protocol) : with_buffer (_buffer p) p = p.
Proof. destruct p; reflexivity. Qed.

Lemma dispatch_buffer (line : bytes) (p : Protocol) :
  _buffer (dispatch line p).2 = _buffer p.
Proof.
  rewrite <- (with_buffer_id p) at 1. rewrite buffer_free_dispatch. reflexivity.
Qed.

Lemma loop_none (turns : nat) (p : Protocol) :
  split_crlf (_buffer p) = None -> data_received_loop turns p = (Ok tt, p).
Proof. intros H. destruct turns; simpl; rewrite H; reflexivity. Qed.

Lemma loop_turn_eq (turns : nat) (p : Protocol) (line rest : bytes) :
  split_crlf (_buffer p) = Some (line, rest) ->
  data_received_loop (S turns) p =
  match dispatch line (with_buffer rest p) with
  | (Ok _, p2) => data_received_loop turns p2
  | (Err e, p2) => (Err e, p2)
  end.
Proof.
  intros H. simpl. rewrite H. unfold bind, modify, gets, dispatch.
  cbn [_in_bulk_reply with_buffer].
  destruct (_in_bulk_reply p); reflexivity.
Qed.

(** The loop never runs out of turns: any bound above the length of the
    buffer gives the same result. *)
Lemma loop_turns (n : nat) :
  forall (m : nat) (p : Protocol),
    (length (_buffer p) <= n)%nat ->
    (length (_buffer p) <= m)%nat ->
    data_received_loop n p = data_received_loop m p.
Proof.
  induction n as [|n IH]; intros m p Hn Hm;
    destruct (split_crlf (_buffer p)) as [[line rest]|] eqn:Hs;
    try (by rewrite !loop_none);
    pose proof (split_crlf_shorter _ _ _ Hs) as Hshort; [lia|].
  destruct m as [|m]; [lia|].
  rewrite !(loop_turn_eq _ _ _ _ Hs).
  pose proof (dispatch_buffer line (with_buffer rest p)) as Hbuf.
  destruct (dispatch line (with_buffer rest p)) as [[[]|e] p2]; [|reflexivity].
  simpl in Hbuf. apply IH; rewrite Hbuf; lia.
Qed.

Lemma data_received_eq (data : bytes) (p : Protocol) :
  data_received data p
  = data_received_loop (length (_buffer p ++ data))
      (with_buffer (_buffer p ++ data) p).
Proof. reflexivity. Qed.

(** A loop that returns leaves no complete line in the buffer. *)
Lemma loop_idle (n : nat) :
  forall (p p' : Protocol),
    (length (_buffer p) <= n)%nat ->
    data_received_loop n p = (Ok tt, p') -> idle p'.
Proof.
  induction n as [|n IH]; intros p p' Hn;
    destruct (split_crlf (_buffer p)) as [[line rest]|] eqn:Hs;
    try (rewrite loop_none by assumption; intros ?; by simplify_eq);
    pose proof (split_crlf_shorter _ _ _ Hs) as Hshort; [lia|].
  rewrite (loop_turn_eq _ _ _ _ Hs).
  pose proof (dispatch_buffer line (with_buffer rest p)) as Hbuf.
  destruct (dispatch line (with_buffer rest p)) as [[[]|e] p2]; [|intros [=]].
  simpl in Hbuf. apply IH. rewrite Hbuf. lia.
Qed.

Lemma data_received_idle (data : bytes) (p p' : Protocol) :
  data_received data p = (Ok tt, p') -> idle p'.
Proof. rewrite data_received_eq. by apply loop_idle. Qed.

(** Appending [data] to the buffer before the loop runs amounts to
    running the loop, appending [data] to what it left in the buffer and
    running it again; an exception leaves [data] unread. *)
Lemma loop_app (data : bytes) (n : nat) :
  forall (m : nat) (p : Protocol),
    (length (_buffer p) <= n)%nat ->
    (length (_buffer p ++ data) <= m)%nat ->
    data_received_loop m (with_buffer (_buffer p ++ data) p) =
    match data_received_loop n p with
    | (Ok _, p1) =>
        data_received_loop (length (_buffer p1 ++ data))
          (with_buffer (_buffer p1 ++ data) p1)
    | (Err e, p1) => (Err e, with_buffer (_buffer p1 ++ data) p1)
    end.
Proof.
  induction n as [|n IH]; intros m p Hn Hm;
    destruct (split_crlf (_buffer p)) as [[line rest]|] eqn:Hs;
    try (rewrite (loop_none _ p) by assumption; by apply loop_turns);
    pose proof (split_crlf_shorter _ _ _ Hs) as Hshort; [lia|].
  assert (Hs' : split_crlf (_buffer (with_buffer (_buffer p ++ data) p))
                = Some (line, rest ++ data)) by (by apply split_crlf_app).
  destruct m as [|m]; [rewrite length_app in Hm; lia|].
  rewrite (loop_turn_eq _ _ _ _ Hs), (loop_turn_eq _ _ _ _ Hs').
  change (with_buffer (rest ++ data) (with_buffer (_buffer p ++ data) p))
    with (with_buffer (rest ++ data) (with_buffer rest p)).
  rewrite (buffer_free_dispatch line (rest ++ data) (with_buffer rest p)).
  pose proof (dispatch_buffer line (with_buffer rest p)) as Hbuf.
  destruct (dispatch line (with_buffer rest p)) as [[[]|e] p2];
    simpl in Hbuf; cbn [fst snd].
  - rewrite <- Hbuf. apply IH.
    + rewrite Hbuf. lia.
    + rewrite Hbuf. rewrite length_app in *. lia.
  - by rewrite Hbuf.
Qed.

Lemma data_received_app (data1 data2 : bytes) (p : Protocol) :
  data_received (data1 ++ data2) p =
  match data_received data1 p with
  | (Ok _, p1) => data_received data2 p1
  | (Err e, p1) => (Err e, with_buffer (_buffer p1 ++ data2) p1)
  end.
Proof.
  rewrite !data_received_eq, app_assoc.
  set (p' := with_buffer (_buffer p ++ data1) p).
  change (with_buffer ((_buffer p ++ data1) ++ data2) p)
    with (with_buffer (_buffer p' ++ data2) p').
  change (_buffer p ++ data1) with (_buffer p').
  rewrite (loop_app data2 (length (_buffer p'))) by lia.
  destruct (data_received_loop (length (_buffer p')) p') as [[[]|e] p1];
    reflexivity.
Qed.

Lemma data_received_nil (p : Protocol) :
  idle p -> data_received [] p = (Ok tt, p).
Proof.
  intros Hidle. rewrite data_received_eq, app_nil_r, with_buffer_id.
  by apply loop_none.
Qed.

(** Feeding chunks one after the other or their concatenation at once:
    the same exception, or none; the same state when the data is
    processed without exception, and otherwise the same state up to the
    unread bytes in the buffer. *)
Lemma feed_concat (chunks : list bytes) :
  forall p : Protocol,
    idle p ->
    (feed chunks p).1 = (data_received (concat chunks) p).1 /\
    ((data_received (concat chunks) p).1 = Ok tt ->
       (feed chunks p).2 = (data_received (concat chunks) p).2) /\
    with_buffer [] (feed chunks p).2
    = with_buffer [] (data_received (concat chunks) p).2.
Proof.
  induction chunks as [|chunk chunks IH]; intros p Hidle.
  - simpl. rewrite data_received_nil by assumption. auto.
  - simpl. rewrite data_received_app. unfold bind.
    destruct (data_received chunk p) as [[[]|e] p1] eqn:Hchunk.
    + apply IH. by apply (data_received_idle chunk p).
    + simpl. split; [reflexivity|]. split; [intros [=]|reflexivity].
Qed.

Lemma concat_bytewise (data : bytes) : concat (bytewise data) = data.
Proof. induction data as [|c data IH]; [reflexivity|]. simpl. by rewrite IH. Qed.

(** C6. The parser does not depend on how its input is cut into chunks:
    for every byte sequence, and so for the concatenation of every
    sequence of RESP frames, feeding the bytes one at a time answers the
    same futures with the same replies as feeding them in a single chunk.
    Both deliveries raise the same exception or none; without exception
    they end in the same protocol state, and with an exception in states
    that differ only in the unread rest of the input buffer. *)
Theorem chunking_invariance (data : bytes) (p : Protocol) :
  idle p ->
  let whole := data_received data p in
  let piecewise := feed (bytewise data) p in
  piecewise.1 = whole.1 /\
  (whole.1 = Ok tt -> piecewise.2 = whole.2) /\
  with_buffer [] piecewise.2 = with_buffer [] whole.2.
Proof.
  intros Hidle. cbv zeta.
  pose proof (feed_concat (bytewise data) p Hidle) as H.
  rewrite concat_bytewise in H. exact H.
Qed.

Lemma chunking_invariance_witness :
  feed (bytewise mget_reply) waiting_for_mget
  = data_received mget_reply waiting_for_mget /\
  futures (data_received mget_reply waiting_for_mget).2
  = [Done (Ok (VMultiBulk 0)); Done (Ok (VStr (u "x"))); Done (Ok VNone);
     Done (Ok (VStr (u "z")))].
Proof.
  assert (Hidle : idle waiting_for_mget) by (vm_compute; reflexivity).
  destruct (chunking_invariance mget_reply waiting_for_mget Hidle)
    as (Hres & Hstate & _).
  split; [|vm_compute; reflexivity].
  apply injective_projections; [exact Hres|].
  apply Hstate. vm_compute. reflexivity.
Defined.

(** ** End-to-end scenarios *)

(** [MGET a b c] answered with [*3 $1 x $-1 $1 z]: once the loop has run
    the task that copies the children to the reply's queue, the command
    returns the list [["x", None, "z"]]. *)
Example mget_scenario :
  let s1 := run (mget [u "a"; u "b"; u "c"] None) (connection_made utf8 None 0) in
  let l := loop_turn {| protocol := receive mget_reply (outcome_state s1);
                        running := [] |} in
  let s2 := resume s1 (protocol l) in
  result s2 = Some (Ok (VList [VStr (u "x"); VNone; VStr (u "z")])) /\
  _queue (outcome_state s2) = [] /\
  unresolved (outcome_state s2) = [] /\
  in_use (outcome_state s2) = false.
Proof. vm_compute. repeat split; reflexivity. Qed.

(** Two pipelined [INCR n]: the requests are written back to back and
    the replies [:1] and [:2] resolve the commands in order. *)
Example pipelined_incr_scenario :
  let s1 := run (incr (u "n") None) (connection_made utf8 None 0) in
  let s2 := run (incr (u "n") None) (outcome_state s1) in
  let p := receive (b ":1" ++ CRLF ++ b ":2" ++ CRLF) (outcome_state s2) in
  let r1 := resume s1 p in
  let r2 := resume s2 (outcome_state r1) in
  transport (outcome_state s2)
  = request [b "incr"; b "n"] ++ request [b "incr"; b "n"] /\
  _queue (outcome_state s2) = [0; 1]%nat /\
  result r1 = Some (Ok (VInt 1)) /\
  result r2 = Some (Ok (VInt 2)) /\
  in_use (outcome_state r2) = false.
Proof. vm_compute. repeat split; reflexivity. Qed.

(** [MULTI; SET k v; INCR c; EXEC]: the commands of the transaction
    return detached futures (2 and 4); EXEC answered with [*2 +OK :1]
    resolves them in order and leaves the transaction. *)
Example multi_exec_scenario :
  let s1 := run (incr (u "c") (Some 0%nat)) transaction_with_queued_set in
  let s2 := resume s1 (receive (b "+QUEUED" ++ CRLF) (outcome_state s1)) in
  let s3 := run (Transaction.exec 0) (outcome_state s2) in
  let l := loop_turn
             {| protocol :=
                  receive (b "*2" ++ CRLF ++ b "+OK" ++ CRLF ++ b ":1" ++ CRLF)
                    (outcome_state s3);
                running := [] |} in
  let s4 := resume s3 (protocol l) in
  result s2 = Some (Ok (VFuture 4)) /\
  transaction_futures (outcome_state s2) = [2; 4]%nat /\
  result s4 = Some (Ok VNone) /\
  futures (outcome_state s4) !! 2%nat = Some (Done (Ok (VStatus (u "OK")))) /\
  futures (outcome_state s4) !! 4%nat = Some (Done (Ok (VInt 1))) /\
  unresolved (outcome_state s4) = [] /\
  in_use (outcome_state s4) = false.
Proof. vm_compute. repeat split; reflexivity. Qed.

(** [BLPOP q 0] on a pool of one protocol: while the command waits the
    protocol is in use and the pool has nothing to hand out; the reply
    [*2 $1 q $1 v] resolves the command to [["q", "v"]] and frees the
    protocol. *)
Example blpop_scenario :
  let pool := Connection.create 1 None 0 in
  let selected := Connection.__getattr__ "blpop" pool in
  let s1 := run (blpop [u "q"] 0 None) (connection_made utf8 None 0) in
  let waiting := {| _poolsize := 1; _transport_protocol_pairs := [0%nat];
                    protocols := [outcome_state s1] |} in
  let l := loop_turn
             {| protocol :=
                  receive (b "*2" ++ CRLF ++ b "$1" ++ CRLF ++ b "q" ++ CRLF
                           ++ b "$1" ++ CRLF ++ b "v" ++ CRLF)
                    (outcome_state s1);
                running := [] |} in
  let s2 := resume s1 (protocol l) in
  selected.1 = Ok 0%nat /\
  Connection.connections_in_use pool = 0%nat /\
  in_use (outcome_state s1) = true /\
  Connection.connections_in_use waiting = 1%nat /\
  (Connection.__getattr__ "get" waiting).1 = Err (RedisException PoolInUse) /\
  result s2 = Some (Ok (VList [VStr (u "q"); VStr (u "v")])) /\
  in_use (outcome_state s2) = false.
Proof. vm_compute. repeat split; reflexivity. Qed.

(** ** Integers on the wire *)

Lemma digits_value_digit (c : byte) (k acc : Z) (bs : bytes) :
  c <> "_"%byte -> digit_of c = Some k ->
  digits_value acc (c :: bs) = digits_value (10 * acc + k) bs.
Proof.
  intros Hc Hk. simpl. rewrite bool_decide_eq_false_2 by exact Hc.
  rewrite Hk. reflexivity.
Qed.

Lemma list_byte_of_string_String (a : Ascii.ascii) (s : string) :
  String.list_byte_of_string (String a s)
  = Ascii.byte_of_ascii a :: String.list_byte_of_string s.
Proof. reflexivity. Qed.

Lemma digits_value_uint (d : Decimal.uint) :
  forall acc : Z,
    digits_value acc (String.list_byte_of_string (NilEmpty.string_of_uint d))
    = Ok (uint_value acc d).
Proof.
  induction d; intros acc; [reflexivity|..];
    cbn [NilEmpty.string_of_uint uint_value];
    rewrite list_byte_of_string_String;
    (erewrite digits_value_digit;
     [apply IHd|vm_compute; discriminate|vm_compute; reflexivity]).
Qed.

Lemma of_uint_acc_value (d : Decimal.uint) :
  forall acc : positive,
    Z.pos (Pos.of_uint_acc d acc) = uint_value (Z.pos acc) d.
Proof.
  induction d; intros acc; cbn [Pos.of_uint_acc uint_value];
    [reflexivity|..]; rewrite IHd; f_equal; lia.
Qed.

Lemma of_uint_value (d : Decimal.uint) :
  Z.of_N (Pos.of_uint d) = uint_value 0 d.
Proof.
  induction d; cbn [Pos.of_uint uint_value]; [reflexivity|exact IHd|..];
    cbn [Z.of_N]; rewrite of_uint_acc_value; reflexivity.
Qed.

Lemma decimal_bytes_cases (c : byte) :
  c ∈ decimal_bytes ->
  is_space c = false /\ c <> CR /\ c <> "_"%byte /\
  (c = "-"%byte \/ (c <> "-"%byte /\ c <> "+"%byte /\ is_Some (digit_of c))).
Proof.
  intros H.
  change (c ∈ ["-"; "0"; "1"; "2"; "3"; "4"; "5"; "6"; "7"; "8"; "9"]%byte) in H.
  repeat (apply elem_of_cons in H as [->|H]);
    [..|by apply elem_of_nil in H];
    (split; [reflexivity|]; split; [discriminate|]; split; [discriminate|]);
    first [ left; reflexivity
          | right; split; [discriminate|]; split; [discriminate|];
            vm_compute; eauto ].
Qed.

Lemma uint_bytes_decimal (d : Decimal.uint) :
  Forall (fun c => c ∈ decimal_bytes /\ c <> "-"%byte)
    (String.list_byte_of_string (NilEmpty.string_of_uint d)).
Proof.
  induction d; [constructor|..];
    cbn [NilEmpty.string_of_uint]; rewrite list_byte_of_string_String;
    (constructor; [|exact IHd]);
    (split; [apply (bool_decide_unpack _); vm_compute; reflexivity
            |vm_compute; discriminate]).
Qed.

Lemma strip_no_space (bs : bytes) :
  Forall (fun c => is_space c = false) bs -> strip bs = bs.
Proof.
  intros Hbs. unfold strip.
  set (lstrip := fix go (l : bytes) : bytes :=
         match l with
         | c :: l' => if is_space c then go l' else l
         | [] => []
         end).
  assert (Hl : forall l, Forall (fun c => is_space c = false) l -> lstrip l = l).
  { intros [|c l] Hall; [reflexivity|].
    apply Forall_cons in Hall as [Hc _]. simpl. by rewrite Hc. }
  rewrite (Hl bs Hbs), Hl by (by apply Forall_reverse).
  apply reverse_involutive.
Qed.

Lemma int_unsigned (c : byte) (ds : bytes) :
  Forall (fun c => c ∈ decimal_bytes) (c :: ds) -> c <> "-"%byte ->
  int (c :: ds) = digits_value 0 (c :: ds).
Proof.
  intros Hall Hc. unfold int. rewrite strip_no_space.
  - apply Forall_cons in Hall as [Hdec _].
    destruct (decimal_bytes_cases c Hdec) as (_ & _ & _ & [->|(_ & Hplus & [k Hk])]);
      [done|].
    cbv beta iota zeta.
    destruct (decide (c = "-"%byte)); [done|].
    destruct (decide (c = "+"%byte)); [done|].
    rewrite Hk. reflexivity.
  - eapply Forall_impl; [exact Hall|]. intros x Hx.
    apply (decimal_bytes_cases x Hx).
Qed.

Lemma int_signed (c : byte) (ds : bytes) :
  Forall (fun c => c ∈ decimal_bytes) (c :: ds) -> c <> "-"%byte ->
  int ("-"%byte :: c :: ds)
  = match digits_value 0 (c :: ds) with Ok z => Ok (- z) | Err e => Err e end.
Proof.
  intros Hall Hc. unfold int. rewrite strip_no_space.
  - apply Forall_cons in Hall as [Hdec _].
    destruct (decimal_bytes_cases c Hdec) as (_ & _ & _ & [->|(_ & Hplus & [k Hk])]);
      [done|].
    cbv beta iota zeta.
    destruct (decide ("-"%byte = "-"%byte)); [|done].
    rewrite Hk. reflexivity.
  - constructor; [reflexivity|].
    eapply Forall_impl; [exact Hall|]. intros x Hx.
    apply (decimal_bytes_cases x Hx).
Qed.

Lemma uint_bytes_cons (p : positive) :
  exists c ds,
    String.list_byte_of_string (NilEmpty.string_of_uint (Pos.to_uint p)) = c :: ds /\
    Forall (fun c => c ∈ decimal_bytes) (c :: ds) /\ c <> "-"%byte.
Proof.
  pose proof (uint_bytes_decimal (Pos.to_uint p)) as Hall.
  pose proof (DecimalPos.Unsigned.to_uint_nonnil p) as Hnil.
  destruct (String.list_byte_of_string _) as [|c ds] eqn:Hbytes.
  - destruct (Pos.to_uint p); [done|discriminate..].
  - exists c, ds. split; [reflexivity|]. split.
    + eapply Forall_impl; [exact Hall|]. by intros x [Hx _].
    + by apply Forall_cons in Hall as [[_ Hc] _].
Qed.

Lemma bytes_of_int_pos (p : positive) :
  bytes_of_int (Z.pos p)
  = String.list_byte_of_string (NilEmpty.string_of_uint (Pos.to_uint p)).
Proof.
  unfold bytes_of_int. cbn [Z.to_int NilZero.string_of_int].
  pose proof (DecimalPos.Unsigned.to_uint_nonnil p) as Hnil.
  destruct (Pos.to_uint p); [done|reflexivity..].
Qed.

Lemma bytes_of_int_neg (p : positive) :
  bytes_of_int (Z.neg p)
  = "-"%byte
    :: String.list_byte_of_string (NilEmpty.string_of_uint (Pos.to_uint p)).
Proof.
  unfold bytes_of_int. cbn [Z.to_int NilZero.string_of_int].
  rewrite list_byte_of_string_String.
  pose proof (DecimalPos.Unsigned.to_uint_nonnil p) as Hnil.
  destruct (Pos.to_uint p); [done|reflexivity..].
Qed.

Lemma uint_value_to_uint (p : positive) :
  uint_value 0 (Pos.to_uint p) = Z.pos p.
Proof.
  rewrite <- of_uint_value, DecimalPos.Unsigned.of_to. reflexivity.
Qed.

Lemma int_bytes_of_int (z : Z) : int (bytes_of_int z) = Ok z.
Proof.
  destruct z as [|p|p].
  - vm_compute. reflexivity.
  - rewrite bytes_of_int_pos.
    destruct (uint_bytes_cons p) as (c & ds & Hbytes & Hall & Hc).
    rewrite Hbytes, int_unsigned by assumption.
    rewrite <- Hbytes, digits_value_uint, uint_value_to_uint. reflexivity.
  - rewrite bytes_of_int_neg.
    destruct (uint_bytes_cons p) as (c & ds & Hbytes & Hall & Hc).
    rewrite Hbytes, int_signed by assumption.
    rewrite <- Hbytes, digits_value_uint, uint_value_to_uint. reflexivity.
Qed.

Lemma bytes_of_int_decimal (z : Z) :
  Forall (fun c => c ∈ decimal_bytes) (bytes_of_int z).
Proof.
  destruct z as [|p|p].
  - apply (bool_decide_unpack _). vm_compute. reflexivity.
  - rewrite bytes_of_int_pos. eapply Forall_impl; [apply uint_bytes_decimal|].
    by intros x [Hx _].
  - rewrite bytes_of_int_neg. constructor.
    + apply (bool_decide_unpack _). vm_compute. reflexivity.
    + eapply Forall_impl; [apply uint_bytes_decimal|]. by intros x [Hx _].
Qed.

(** ** Lines on the wire *)

Lemma split_crlf_line (line rest : bytes) :
  split_crlf line = None ->
  split_crlf (line ++ CRLF ++ rest) = Some (line, rest).
Proof.
  induction line as [|c line IH]; intros Hnone; [reflexivity|].
  destruct line as [|d line].
  - change (split_crlf (c :: CR :: LF :: rest) = Some ([c], rest)).
    rewrite split_crlf_cons.
    rewrite (bool_decide_eq_false_2 (CR = LF)) by discriminate.
    rewrite andb_false_r. reflexivity.
  - change ((c :: d :: line) ++ CRLF ++ rest)
      with (c :: d :: (line ++ CRLF ++ rest)).
    rewrite split_crlf_cons in Hnone |- *.
    destruct (bool_decide (c = CR) && bool_decide (d = LF)); [discriminate|].
    change (d :: (line ++ CRLF ++ rest)) with ((d :: line) ++ CRLF ++ rest).
    rewrite IH; [reflexivity|].
    by destruct (split_crlf (d :: line)) as [[? ?]|].
Qed.

Lemma split_crlf_no_CR (line : bytes) :
  Forall (fun c => c <> CR) line -> split_crlf line = None.
Proof.
  induction line as [|c line IH]; intros Hall; [reflexivity|].
  apply Forall_cons in Hall as [Hc Hall].
  destruct line as [|d line]; [reflexivity|].
  rewrite split_crlf_cons, (bool_decide_eq_false_2 (c = CR)) by exact Hc.
  cbn [andb]. by rewrite IH.
Qed.

Lemma split_crlf_prefix (buffer data : bytes) :
  split_crlf (buffer ++ data) = None -> split_crlf buffer = None.
Proof.
  intros Hnone. destruct (split_crlf buffer) as [[line rest]|] eqn:Hs; [|done].
  by rewrite (split_crlf_app _ _ _ data Hs) in Hnone.
Qed.

(** A complete line that arrives on an empty buffer is dispatched, and
    the loop has nothing left to read. *)
Lemma data_received_line (line : bytes) (p : Protocol) :
  split_crlf (_buffer p ++ line) = None ->
  data_received (line ++ CRLF) p
  = dispatch (_buffer p ++ line) (with_buffer [] p).
Proof.
  intros Hnone. rewrite data_received_eq.
  assert (Hs : split_crlf (_buffer (with_buffer (_buffer p ++ line ++ CRLF) p))
               = Some (_buffer p ++ line, [])).
  { cbn [_buffer with_buffer]. rewrite app_assoc.
    rewrite <- (app_nil_r CRLF) at 1. by apply split_crlf_line. }
  rewrite length_app, length_app. cbn [length CRLF].
  replace (length (_buffer p) + (length line + 2))%nat
    with (S (length (_buffer p) + length line + 1)) by lia.
  rewrite (loop_turn_eq _ _ _ _ Hs).
  change (with_buffer [] (with_buffer _ p)) with (with_buffer [] p).
  pose proof (dispatch_buffer (_buffer p ++ line) (with_buffer [] p)) as Hbuf.
  destruct (dispatch _ _) as [[[]|e] p2]; [|reflexivity].
  apply loop_none. simpl in Hbuf. by rewrite Hbuf.
Qed.

(** X1. Integers survive the wire.  The decimal notation that
    [_encode_int] writes for an integer argument (and that the [%i] of
    the length headers of a request writes) is read back by [int()],
    which the reply handlers use, as that same integer, negative
    numbers included; so an integer reply [:<n>\r\n] written that way
    resolves the future at the head of the reply queue with [n]. *)
Theorem encode_int_round_trip (z : Z) (p : Protocol) (f : nat) (q : list nat) :
  int (_encode_int z) = Ok z /\
  (_buffer p = [] -> _in_bulk_reply p = false ->
   _queue p = f :: q -> futures p !! f = Some Pending ->
   data_received (b ":" ++ _encode_int z ++ CRLF) p
   = (Ok tt,
      with_futures (<[f := Done (Ok (VInt z))]> (futures p)) (with_queue q p))).
Proof.
  split; [apply int_bytes_of_int|].
  intros Hbuf Hline Hq Hf. unfold _encode_int.
  rewrite (app_assoc (b ":")), data_received_line.
  - rewrite Hbuf. cbn [app]. rewrite <- Hbuf, with_buffer_id.
    unfold dispatch. rewrite Hline, line_received_int.
    unfold _handle_int_reply, bind, lift. rewrite int_bytes_of_int.
    by apply (push_answer_spec (VInt z)).
  - rewrite Hbuf. apply split_crlf_no_CR.
    constructor; [discriminate|].
    eapply Forall_impl; [apply bytes_of_int_decimal|].
    intros c Hc. apply (decimal_bytes_cases c Hc).
Qed.

Lemma encode_int_round_trip_witness :
  futures (data_received (b ":" ++ _encode_int (-42) ++ CRLF) waiting_for_get).2
  = [Done (Ok (VInt (-42)))].
Proof.
  destruct (encode_int_round_trip (-42) waiting_for_get 0%nat []) as [_ Hwire].
  rewrite (Hwire eq_refl eq_refl eq_refl eq_refl). reflexivity.
Defined.

(** X2. A reply line that arrives in two pieces: the first piece, which
    holds no line terminator, is only kept in the buffer, without error
    and without any reply being handled; when the rest of the line and
    its [\r\n] arrive, the whole line is handled exactly once, as
    [_line_received] (or, inside a bulk reply, [_handle_bulk_reply_part])
    handles it, and the buffer is empty again. *)
Theorem line_in_two_pieces (part1 part2 : bytes) (p : Protocol) :
  _buffer p = [] ->
  split_crlf (part1 ++ part2) = None ->
  data_received part1 p = (Ok tt, with_buffer part1 p) /\
  data_received (part2 ++ CRLF) (with_buffer part1 p)
  = (if _in_bulk_reply p then _handle_bulk_reply_part (part1 ++ part2) p
     else _line_received (part1 ++ part2) p) /\
  _buffer (data_received (part2 ++ CRLF) (with_buffer part1 p)).2 = [].
Proof.
  intros Hbuf Hnone.
  assert (Hp : with_buffer [] (with_buffer part1 p) = p).
  { change (with_buffer [] (with_buffer part1 p)) with (with_buffer [] p).
    rewrite <- Hbuf. apply with_buffer_id. }
  split; [|split].
  - rewrite data_received_eq, Hbuf. cbn [app].
    apply loop_none. cbn [_buffer with_buffer].
    by apply (split_crlf_prefix part1 part2).
  - rewrite data_received_line by exact Hnone.
    cbn [_buffer with_buffer]. rewrite Hp. reflexivity.
  - rewrite data_received_line by exact Hnone.
    cbn [_buffer with_buffer]. rewrite Hp, dispatch_buffer. exact Hbuf.
Qed.

Lemma line_in_two_pieces_witness :
  data_received (b "+O") waiting_for_get
  = (Ok tt, with_buffer (b "+O") waiting_for_get) /\
  futures (data_received (b "K" ++ CRLF) (with_buffer (b "+O") waiting_for_get)).2
  = [Done (Ok (VStatus (u "OK")))].
Proof.
  assert (Hbuf : _buffer waiting_for_get = []) by (vm_compute; reflexivity).
  assert (Hnone : split_crlf (b "+O" ++ b "K") = None) by (vm_compute; reflexivity).
  destruct (line_in_two_pieces (b "+O") (b "K") waiting_for_get Hbuf Hnone)
    as (H1 & H2 & _).
  split; [exact H1|]. rewrite H2. vm_compute. reflexivity.
Defined.

(** ** Bulk replies on the wire *)

Lemma split_crlf_ends (bs : bytes) : is_Some (split_crlf (bs ++ CRLF)).
Proof.
  destruct (split_crlf bs) as [[line rest]|] eqn:Hs.
  - rewrite (split_crlf_app _ _ _ CRLF Hs). eauto.
  - rewrite <- (app_nil_r CRLF), (split_crlf_line bs [] Hs). eauto.
Qed.

Lemma bulk_part_incomplete (line : bytes) (p : Protocol) :
  Z.of_nat (length (_bulk_reply_buffer p ++ line ++ CRLF)) <= _bulk_reply_len p ->
  _handle_bulk_reply_part line p
  = (Ok tt, with_bulk_reply_buffer (_bulk_reply_buffer p ++ line ++ CRLF) p).
Proof.
  intros Hlen. unfold _handle_bulk_reply_part, bind, modify, gets.
  cbn [_bulk_reply_buffer with_bulk_reply_buffer _bulk_reply_len].
  rewrite <- app_assoc.
  destruct (Z.gtb_spec (Z.of_nat (length (_bulk_reply_buffer p ++ line ++ CRLF)))
              (_bulk_reply_len p)); [lia|].
  reflexivity.
Qed.

Lemma bulk_part_complete (line : bytes) (p : Protocol) (f : nat) (q : list nat)
    (value : str) :
  Z.of_nat (length (_bulk_reply_buffer p ++ line ++ CRLF)) > _bulk_reply_len p ->
  decode (encoding p)
    (slice_to (_bulk_reply_len p) (_bulk_reply_buffer p ++ line ++ CRLF))
  = Ok value ->
  _queue p = f :: q ->
  futures p !! f = Some Pending ->
  _handle_bulk_reply_part line p
  = (Ok tt,
     with_bulk_reply_buffer []
       (with_bulk_reply_len 0
          (with_in_bulk_reply false
             (with_futures (<[f := Done (Ok (VStr value))]> (futures p))
                (with_queue q p))))).
Proof.
  intros Hlen Hdec Hq Hf.
  unfold _handle_bulk_reply_part, bind, modify, gets, _decode, lift.
  cbn [_bulk_reply_buffer with_bulk_reply_buffer _bulk_reply_len encoding].
  rewrite <- app_assoc.
  rewrite (proj2 (Z.gtb_gt _ _)) by lia.
  unfold bind, gets. cbn [encoding with_bulk_reply_buffer]. rewrite Hdec.
  rewrite (push_answer_spec (VStr value) _ f q) by assumption.
  reflexivity.
Qed.

Lemma bulk_part_undecodable (line : bytes) (p : Protocol) (e : exn) :
  Z.of_nat (length (_bulk_reply_buffer p ++ line ++ CRLF)) > _bulk_reply_len p ->
  decode (encoding p)
    (slice_to (_bulk_reply_len p) (_bulk_reply_buffer p ++ line ++ CRLF))
  = Err e ->
  _handle_bulk_reply_part line p
  = (Err e, with_bulk_reply_buffer (_bulk_reply_buffer p ++ line ++ CRLF) p).
Proof.
  intros Hlen Hdec.
  unfold _handle_bulk_reply_part, bind, modify, gets, _decode, lift.
  cbn [_bulk_reply_buffer with_bulk_reply_buffer _bulk_reply_len encoding].
  rewrite <- app_assoc.
  rewrite (proj2 (Z.gtb_gt _ _)) by lia.
  unfold bind, gets. cbn [encoding with_bulk_reply_buffer]. rewrite Hdec.
  reflexivity.
Qed.

(** The loop of [data_received] inside a bulk reply: the parts of the
    payload that end in [\r\n] are put together again until more than
    the announced number of bytes has come in; only then is the payload
    decoded. *)
Lemma bulk_loop (payload : bytes) (f : nat) (q : list nat) :
  forall (n : nat) (p : Protocol),
    (length (_buffer p) <= n)%nat ->
    _in_bulk_reply p = true ->
    _bulk_reply_len p = Z.of_nat (length payload) ->
    _bulk_reply_buffer p ++ _buffer p = payload ++ CRLF ->
    (length (_bulk_reply_buffer p) <= length payload)%nat ->
    _queue p = f :: q ->
    futures p !! f = Some Pending ->
    data_received_loop n p =
    match decode (encoding p) payload with
    | Ok value => (Ok tt, bulk_answered value f q p)
    | Err e => (Err e, with_bulk_reply_buffer (payload ++ CRLF) (with_buffer [] p))
    end.
Proof.
  induction n as [|n IH]; intros p Hn Hbulk Hlen Hdata Hacc Hq Hf.
  - apply (f_equal length) in Hdata. rewrite !length_app in Hdata.
    simpl in Hdata. lia.
  - assert (Hbuf : _buffer p
                   = drop (length (_bulk_reply_buffer p)) payload ++ CRLF).
    { apply (f_equal (drop (length (_bulk_reply_buffer p)))) in Hdata.
      rewrite drop_app_length in Hdata. rewrite Hdata.
      by apply drop_app_le. }
    destruct (split_crlf_ends (drop (length (_bulk_reply_buffer p)) payload))
      as [[line rest] Hs].
    rewrite <- Hbuf in Hs.
    rewrite (loop_turn_eq _ _ _ _ Hs). unfold dispatch.
    cbn [_in_bulk_reply with_buffer]. rewrite Hbulk.
    apply split_crlf_Some in Hs as Hsplit.
    set (acc := _bulk_reply_buffer p ++ line ++ CRLF).
    assert (Hacc' : acc ++ rest = payload ++ CRLF).
    { unfold acc. rewrite <- Hdata, Hsplit, <- !app_assoc. reflexivity. }
    destruct (decide (length acc <= length payload)%nat) as [Hle|Hgt].
    + rewrite bulk_part_incomplete
        by (cbn [_bulk_reply_buffer with_buffer _bulk_reply_len]; fold acc; lia).
      cbn [_bulk_reply_buffer with_buffer]. fold acc.
      rewrite IH; [reflexivity|..]; try assumption.
      * cbn [_buffer with_bulk_reply_buffer with_buffer].
        apply (f_equal length) in Hsplit. rewrite !length_app in Hsplit.
        simpl in Hsplit. lia.
    + assert (Hrest : rest = []).
      { apply (f_equal length) in Hacc' as Hlens.
        rewrite !length_app in Hlens. simpl in Hlens.
        destruct rest as [|r [|r' rest]]; [reflexivity| |simpl in Hlens; lia].
        exfalso. unfold acc in Hacc'.
        change (payload ++ CRLF) with (payload ++ [CR] ++ [LF]) in Hacc'.
        rewrite (app_assoc payload) in Hacc'.
        apply app_inj_tail in Hacc' as [Hacc' _].
        change CRLF with ([CR] ++ [LF]) in Hacc'.
        rewrite !app_assoc in Hacc'.
        by apply app_inj_tail in Hacc' as [_ ?]. }
      subst rest. rewrite app_nil_r in Hacc'.
      assert (Hslice : slice_to (_bulk_reply_len p) acc = payload).
      { rewrite Hacc', Hlen. unfold slice_to.
        rewrite (proj2 (Z.leb_le 0 _)) by lia.
        by rewrite Nat2Z.id, take_app_length. }
      destruct (decode (encoding p) payload) as [value|e] eqn:Hdec.
      * erewrite (bulk_part_complete line (with_buffer [] p) f q value);
          [apply loop_none; reflexivity|..]; try assumption.
        -- cbn [_bulk_reply_buffer with_buffer _bulk_reply_len]. fold acc. lia.
        -- cbn [_bulk_reply_buffer with_buffer _bulk_reply_len encoding].
           fold acc. rewrite Hslice. exact Hdec.
      * rewrite (bulk_part_undecodable line (with_buffer [] p) e).
        -- cbn [_bulk_reply_buffer with_buffer]. fold acc. rewrite Hacc'.
           reflexivity.
        -- cbn [_bulk_reply_buffer with_buffer _bulk_reply_len]. fold acc. lia.
        -- cbn [_bulk_reply_buffer with_buffer _bulk_reply_len encoding].
           fold acc. rewrite Hslice. exact Hdec.
Qed.

(** A whole bulk reply, whether its payload can be decoded or not. *)
Lemma data_received_bulk_frame (payload : bytes)
    (p : Protocol) (f : nat) (q : list nat) :
  _buffer p = [] ->
  _in_bulk_reply p = false ->
  _queue p = f :: q ->
  futures p !! f = Some Pending ->
  data_received (bulk payload) p =
  match decode (encoding p) payload with
  | Ok value => (Ok tt, bulk_answered value f q p)
  | Err e => (Err e, bulk_undecoded payload p)
  end.
Proof.
  intros Hbuf Hline Hq Hf.
  rewrite data_received_eq, Hbuf. cbn [app].
  set (digits := bytes_of_int (Z.of_nat (length payload))).
  assert (Hs : split_crlf (_buffer (with_buffer (bulk payload) p))
               = Some (b "$" ++ digits, payload ++ CRLF)).
  { cbn [_buffer with_buffer]. unfold bulk. fold digits.
    rewrite (app_assoc (b "$")). apply split_crlf_line, split_crlf_no_CR.
    constructor; [discriminate|].
    eapply Forall_impl; [apply bytes_of_int_decimal|].
    intros c Hc. apply (decimal_bytes_cases c Hc). }
  rewrite (loop_turns _ (S (length (bulk payload)))) by (cbn [_buffer with_buffer]; lia).
  rewrite (loop_turn_eq _ _ _ _ Hs). unfold dispatch.
  cbn [_in_bulk_reply with_buffer]. rewrite Hline, line_received_bulk.
  unfold _handle_bulk_reply, bind, lift. fold digits.
  unfold digits at 1. rewrite int_bytes_of_int.
  rewrite bool_decide_eq_false_2 by lia.
  unfold modify.
  rewrite (bulk_loop payload f q); [reflexivity|..]; try assumption;
    try reflexivity.
  - cbn [_buffer with_bulk_reply_buffer with_bulk_reply_len with_in_bulk_reply
         with_buffer].
    unfold bulk. rewrite !length_app. lia.
  - cbn [_bulk_reply_buffer with_bulk_reply_buffer length]. lia.
Qed.

Lemma data_received_bulk (payload : bytes) (value : str)
    (p : Protocol) (f : nat) (q : list nat) :
  _buffer p = [] ->
  _in_bulk_reply p = false ->
  _queue p = f :: q ->
  futures p !! f = Some Pending ->
  decode (encoding p) payload = Ok value ->
  data_received (bulk payload) p = (Ok tt, bulk_answered value f q p).
Proof.
  intros Hbuf Hline Hq Hf Hdec.
  by rewrite (data_received_bulk_frame payload p f q Hbuf Hline Hq Hf), Hdec.
Qed.

(** X3. Bulk replies are framed by their length, not by their content.
    From line mode with an empty buffer, take the bytes
    [$L\r\n<payload>\r\n], where [L] is the length of the payload.
    When the payload can be decoded in the encoding of the protocol,
    they resolve the future at the head of the reply queue with the
    decoded text, whatever else the payload holds, line terminators
    included; afterwards the parser is back in line mode and its
    buffers are empty, and the same holds when the frame arrives cut in
    two at any place: the first piece is taken without exception.  When
    the payload cannot be decoded, [data_received] raises the decoding
    error once the frame is complete: the head of the reply queue stays
    pending and queued, and the parser is left inside the bulk reply,
    which still holds the payload. *)
Theorem bulk_reply_is_framed_by_length (payload : bytes)
    (p : Protocol) (f : nat) (q : list nat) :
  _buffer p = [] ->
  _in_bulk_reply p = false ->
  _queue p = f :: q ->
  futures p !! f = Some Pending ->
  (forall value, decode (encoding p) payload = Ok value ->
     data_received (bulk payload) p = (Ok tt, bulk_answered value f q p) /\
     forall piece1 piece2, bulk payload = piece1 ++ piece2 ->
       exists p1,
         data_received piece1 p = (Ok tt, p1) /\
         data_received piece2 p1 = (Ok tt, bulk_answered value f q p)) /\
  (forall e, decode (encoding p) payload = Err e ->
     let p' := bulk_undecoded payload p in
     data_received (bulk payload) p = (Err e, p') /\
     _in_bulk_reply p' = true /\
     _bulk_reply_buffer p' = payload ++ CRLF /\
     _queue p' = f :: q /\
     futures p' !! f = Some Pending).
Proof.
  intros Hbuf Hline Hq Hf.
  pose proof (data_received_bulk_frame payload p f q Hbuf Hline Hq Hf) as Hwhole.
  split.
  - intros value Hdec. rewrite Hdec in Hwhole.
    split; [exact Hwhole|].
    intros piece1 piece2 Hcut. rewrite Hcut, data_received_app in Hwhole.
    destruct (data_received piece1 p) as [[[]|e] p1]; [|discriminate].
    exists p1. split; [reflexivity|exact Hwhole].
  - intros e Hdec p'. rewrite Hdec in Hwhole.
    split; [exact Hwhole|]. split; [reflexivity|]. split; [reflexivity|].
    split; [exact Hq|exact Hf].
Qed.

Lemma bulk_reply_is_framed_by_length_witness :
  futures (data_received (b "$4" ++ CRLF ++ b "a" ++ CRLF ++ b "b" ++ CRLF)
             waiting_for_get).2
  = [Done (Ok (VStr (u "a" ++ [13; 10]%N ++ u "b")))] /\
  data_received (bulk [xff]) waiting_for_get
  = (Err UnicodeDecodeError, bulk_undecoded [xff] waiting_for_get).
Proof.
  assert (Hdec : decode (encoding waiting_for_get) (b "a" ++ CRLF ++ b "b")
                 = Ok (u "a" ++ [13; 10]%N ++ u "b")) by (vm_compute; reflexivity).
  assert (Hundec : decode (encoding waiting_for_get) [xff]
                   = Err UnicodeDecodeError) by (vm_compute; reflexivity).
  split.
  - destruct (bulk_reply_is_framed_by_length (b "a" ++ CRLF ++ b "b")
                waiting_for_get 0%nat [] eq_refl eq_refl eq_refl eq_refl)
      as [Hok _].
    destruct (Hok _ Hdec) as [H _].
    change (bulk (b "a" ++ CRLF ++ b "b"))
      with (b "$" ++ bytes_of_int 4 ++ CRLF ++ (b "a" ++ CRLF ++ b "b") ++ CRLF) in H.
    replace (b "$4" ++ CRLF ++ b "a" ++ CRLF ++ b "b" ++ CRLF)
      with (b "$" ++ bytes_of_int 4 ++ CRLF ++ (b "a" ++ CRLF ++ b "b") ++ CRLF)
      by (vm_compute; reflexivity).
    rewrite H. vm_compute. reflexivity.
  - destruct (bulk_reply_is_framed_by_length [xff]
                waiting_for_get 0%nat [] eq_refl eq_refl eq_refl eq_refl)
      as [_ Herr].
    exact (proj1 (Herr _ Hundec)).
Defined.

(** ** A request read back by the parser *)

Lemma data_received_bulks (args : list bytes) :
  forall (values : list str) (p : Protocol) (cs q : list nat),
    _buffer p = [] ->
    _in_bulk_reply p = false ->
    _queue p = cs ++ q ->
    NoDup cs ->
    (forall c, c ∈ cs -> futures p !! c = Some Pending) ->
    Forall2 (fun a v => decode (encoding p) a = Ok v) args values ->
    length cs = length args ->
    exists p',
      data_received (concat (map bulk args)) p = (Ok tt, p') /\
      _queue p' = q /\
      hold_values p' cs values /\
      (forall g, g ∉ cs -> futures p' !! g = futures p !! g) /\
      replies p' = replies p /\
      tasks p' = tasks p.
Proof.
  induction args as [|a args IH];
    intros values p cs q Hbuf Hline Hq Hnd Hpending Hdec Hlen.
  - destruct cs; [|discriminate]. exists p. simpl.
    rewrite data_received_nil by (unfold idle; by rewrite Hbuf).
    split; [reflexivity|]. split; [exact Hq|]. split; [|auto].
    intros i c v Hi. by rewrite lookup_nil in Hi.
  - destruct cs as [|c cs]; [discriminate|].
    apply Forall2_cons_inv_l in Hdec as (v & values' & Hv & Hdec & ->).
    apply NoDup_cons in Hnd as [Hc Hnd].
    assert (Hcp : futures p !! c = Some Pending)
      by (apply Hpending, elem_of_cons; by left).
    cbn [map concat]. rewrite data_received_app.
    rewrite (data_received_bulk a v p c (cs ++ q)) by assumption.
    destruct (IH values' (bulk_answered v c (cs ++ q) p) cs q)
      as (p' & Hrun & Hq' & Hhold & Hout & Hrep & Htasks);
      try reflexivity; try assumption.
    + intros g Hg. cbn [futures bulk_answered with_futures with_queue
                        with_bulk_reply_buffer with_bulk_reply_len
                        with_in_bulk_reply with_buffer].
      rewrite list_lookup_insert_ne by (intros ->; contradiction).
      apply Hpending, elem_of_cons. by right.
    + simpl in Hlen. lia.
    + exists p'. split; [exact Hrun|]. split; [exact Hq'|].
      split; [|split; [|split; [exact Hrep|exact Htasks]]].
      * intros [|i] g w Hi Hw; simpl in Hi, Hw.
        -- simplify_eq. rewrite Hout by exact Hc.
           apply list_lookup_insert_eq. by apply lookup_lt_Some in Hcp.
        -- by apply (Hhold i).
      * intros g Hg. apply not_elem_of_cons in Hg as [Hne Hg].
        rewrite Hout by exact Hg. by apply list_lookup_insert_ne.
Qed.

Lemma data_received_request (args : list bytes) (values : list str)
    (p : Protocol) (f : nat) (q : list nat) :
  _buffer p = [] ->
  _in_bulk_reply p = false ->
  _in_pubsub p = false ->
  _queue p = f :: q ->
  futures p !! f = Some Pending ->
  Forall2 (fun a v => decode (encoding p) a = Ok v) args values ->
  let reply := length (replies p) in
  let children := seq (length (futures p)) (length args) in
  exists p',
    data_received (request args) p = (Ok tt, p') /\
    _queue p' = q /\
    futures p' !! f = Some (Done (Ok (VMultiBulk reply))) /\
    replies p'
    = replies p ++ [{| count := Z.of_nat (length args); queue := [] |}] /\
    hold_values p' children values /\
    tasks p' = tasks p ++ [TaskHandleResults reply children].
Proof.
  intros Hbuf Hline Hps Hq Hf Hdec reply children.
  set (n := Z.of_nat (length args)).
  assert (Hflt : (f < length (futures p))%nat) by (by apply lookup_lt_Some in Hf).
  assert (Hheader :
    data_received (b "*" ++ bytes_of_int n ++ CRLF) p
    = (Ok tt, multi_bulk_header n f q p)).
  { rewrite (app_assoc (b "*")), data_received_line.
    - rewrite Hbuf. cbn [app]. rewrite <- Hbuf, with_buffer_id.
      unfold dispatch. rewrite Hline, line_received_multi_bulk.
      apply handle_multi_bulk_reply_spec; try assumption.
      apply int_bytes_of_int.
    - rewrite Hbuf. apply split_crlf_no_CR.
      constructor; [discriminate|].
      eapply Forall_impl; [apply bytes_of_int_decimal|].
      intros c Hc. apply (decimal_bytes_cases c Hc). }
  assert (Hn : Z.to_nat n = length args) by apply Nat2Z.id.
  destruct (data_received_bulks args values (multi_bulk_header n f q p)
              children q)
    as (p' & Hrun & Hq' & Hhold & Hout & Hrep & Htasks);
    try assumption; try reflexivity.
  - unfold multi_bulk_header, children. cbn [_queue with_tasks with_queue].
    by rewrite Hn.
  - apply NoDup_seq.
  - intros c Hc. apply elem_of_seq in Hc. unfold multi_bulk_header.
    cbn [futures with_futures with_queue with_tasks].
    rewrite lookup_app_r by (rewrite length_insert; lia).
    rewrite length_insert. apply lookup_replicate_2. lia.
  - unfold children. by rewrite length_seq.
  - exists p'. split.
    { assert (Hreq : request args
                     = (b "*" ++ bytes_of_int n ++ CRLF) ++ concat (map bulk args))
        by (unfold request; rewrite <- !app_assoc; reflexivity).
      rewrite Hreq, data_received_app, Hheader. exact Hrun. }
    split; [exact Hq'|]. split; [|split; [|split]].
    + rewrite Hout by (unfold children; rewrite elem_of_seq; lia).
      unfold multi_bulk_header. cbn [futures with_futures with_queue with_tasks].
      rewrite lookup_app_l by (by rewrite length_insert).
      by apply list_lookup_insert_eq.
    + exact Hrep.
    + exact Hhold.
    + rewrite Htasks. unfold multi_bulk_header, children.
      cbn [tasks with_tasks]. by rewrite Hn.
Qed.

(** X4. The parser reads back what [_send_command] writes.  Take the
    bytes that [_send_command] appends to the transport of any protocol
    for the arguments [args].  Received from line mode outside pubsub
    mode, they are a multi bulk reply of as many bulk replies: the
    future at the head of the reply queue gets a new [MultiBulkReply]
    whose count is the number of arguments, every argument is decoded
    into a new future of its own, in order, a task is created to move
    them to the reply's queue, and the rest of the reply queue is left
    as it was. *)
Theorem request_is_parsed_back (args : list bytes) (values : list str)
    (sender p : Protocol) (f : nat) (q : list nat) :
  _buffer p = [] ->
  _in_bulk_reply p = false ->
  _in_pubsub p = false ->
  _queue p = f :: q ->
  futures p !! f = Some Pending ->
  Forall2 (fun a v => decode (encoding p) a = Ok v) args values ->
  let sent_bytes :=
    drop (length (transport sender))
      (transport (_send_command (map ArgBytes args) sender).2) in
  let reply := length (replies p) in
  let children := seq (length (futures p)) (length args) in
  sent_bytes = request args /\
  exists p',
    data_received sent_bytes p = (Ok tt, p') /\
    _queue p' = q /\
    futures p' !! f = Some (Done (Ok (VMultiBulk reply))) /\
    replies p'
    = replies p ++ [{| count := Z.of_nat (length args); queue := [] |}] /\
    hold_values p' children values /\
    tasks p' = tasks p ++ [TaskHandleResults reply children].
Proof.
  intros Hbuf Hline Hps Hq Hf Hdec sent_bytes reply children.
  assert (Hsent : sent_bytes = request args).
  { unfold sent_bytes. rewrite send_command_bytes.
    cbn [snd transport with_transport]. apply drop_app_length. }
  split; [exact Hsent|]. rewrite Hsent.
  by apply data_received_request.
Qed.

Lemma request_is_parsed_back_witness :
  exists p',
    data_received (request [b "get"; b "k"]) waiting_for_get = (Ok tt, p') /\
    _queue p' = [] /\
    futures p' !! 1%nat = Some (Done (Ok (VStr (u "get")))) /\
    futures p' !! 2%nat = Some (Done (Ok (VStr (u "k")))).
Proof.
  assert (Hdec : Forall2 (fun a v => decode (encoding waiting_for_get) a = Ok v)
                   [b "get"; b "k"] [u "get"; u "k"]).
  { repeat constructor; vm_compute; reflexivity. }
  destruct (request_is_parsed_back [b "get"; b "k"] [u "get"; u "k"]
              (connection_made utf8 None 0) waiting_for_get 0%nat []
              eq_refl eq_refl eq_refl eq_refl eq_refl Hdec)
    as (Hsent & p' & Hrun & Hq & _ & _ & Hhold & _).
  rewrite Hsent in Hrun.
  exists p'. split; [exact Hrun|]. split; [exact Hq|]. split.
  - apply (Hhold 0%nat); reflexivity.
  - apply (Hhold 1%nat); reflexivity.
Defined.

(** ** What receiving data leaves alone *)

Section keeps.

Context (R : Protocol -> Protocol -> Prop) `{!PreOrder R}.

Lemma keeps_ret {A} (a : A) : keeps R (ret a).
Proof. intros p. reflexivity. Qed.

Lemma keeps_raise {A} (e : exn) : keeps R (raise (A := A) e).
Proof. intros p. reflexivity. Qed.

Lemma keeps_lift {A} (r : Res A) : keeps R (lift r).
Proof. intros p. reflexivity. Qed.

Lemma keeps_gets {A} (f : Protocol -> A) : keeps R (gets f).
Proof. intros p. reflexivity. Qed.

Lemma keeps_bind {A B} (m : M A) (k : A -> M B) :
  keeps R m -> (forall a, keeps R (k a)) -> keeps R (bind m k).
Proof.
  intros Hm Hk p. unfold bind. specialize (Hm p).
  destruct (m p) as [[a|e] p']; simpl in *; [|exact Hm].
  etransitivity; [exact Hm|apply Hk].
Qed.

Lemma keeps_if {A} (c : bool) (m1 m2 : M A) :
  keeps R m1 -> keeps R m2 -> keeps R (if c then m1 else m2).
Proof. by destruct c. Qed.

Lemma keeps_modify (g : Protocol -> Protocol) :
  (forall p, R p (g p)) -> keeps R (modify g).
Proof. intros Hg p. apply Hg. Qed.

(** The assignments the parser and [connection_lost] make. *)
Hypothesis R_buffer : forall v p, R p (with_buffer v p).
Hypothesis R_in_bulk_reply : forall v p, R p (with_in_bulk_reply v p).
Hypothesis R_bulk_reply_len : forall v p, R p (with_bulk_reply_len v p).
Hypothesis R_bulk_reply_buffer : forall v p, R p (with_bulk_reply_buffer v p).
Hypothesis R_queue : forall v p, R p (with_queue v p).
Hypothesis R_tasks : forall v p, R p (with_tasks v p).
Hypothesis R_replies :
  forall r p, R p (with_replies (replies p ++ [r]) p).
Hypothesis R_Future :
  forall p, R p (with_futures (futures p ++ [Pending]) p).
Hypothesis R_resolve :
  forall f r p, futures p !! f = Some Pending ->
    R p (with_futures (<[f := Done r]> (futures p)) p).

Lemma keeps_Future : keeps R Future.
Proof. intros p. apply R_Future. Qed.

Lemma keeps_resolve (f : nat) (r : Res Value) : keeps R (resolve f r).
Proof.
  intros p. unfold resolve.
  destruct (futures p !! f) as [[|]|] eqn:Hf; simpl; try reflexivity.
  by apply R_resolve.
Qed.

Lemma keeps_popleft : keeps R popleft.
Proof.
  intros p. unfold popleft. destruct (_queue p); simpl; [reflexivity|].
  apply R_queue.
Qed.

Lemma keeps_push_answer (answer : Value) : keeps R (_push_answer answer).
Proof.
  unfold _push_answer. apply keeps_bind; [apply keeps_popleft|].
  intros f. destruct answer; apply keeps_resolve.
Qed.

Lemma keeps_new_futures (n : nat) : keeps R (new_futures n).
Proof.
  induction n as [|n IH]; [apply keeps_ret|]. simpl.
  apply keeps_bind; [apply keeps_Future|]. intros f.
  apply keeps_bind; [exact IH|]. intros fs. apply keeps_ret.
Qed.

Ltac keeps_steps :=
  repeat first
    [ apply keeps_ret | apply keeps_raise | apply keeps_lift | apply keeps_gets
    | apply keeps_push_answer | apply keeps_new_futures
    | apply keeps_modify; intros ?;
      first [ apply R_buffer | apply R_in_bulk_reply | apply R_bulk_reply_len
            | apply R_bulk_reply_buffer | apply R_queue | apply R_tasks ]
    | apply keeps_if
    | apply keeps_bind; [|intros ?] ].

Lemma keeps_line_received (line : bytes) : keeps R (_line_received line).
Proof.
  unfold _line_received, _handle_status_reply, _handle_error_reply,
    _handle_bulk_reply, _handle_multi_bulk_reply, _handle_int_reply,
    appendleft_all, Task.
  keeps_steps. intros p. apply R_replies.
Qed.

Lemma keeps_bulk_reply_part (line : bytes) :
  keeps R (_handle_bulk_reply_part line).
Proof. unfold _handle_bulk_reply_part, _decode. keeps_steps. Qed.

Lemma keeps_dispatch (line : bytes) : keeps R (dispatch line).
Proof.
  intros p. unfold dispatch.
  destruct (_in_bulk_reply p);
    [apply keeps_bulk_reply_part | apply keeps_line_received].
Qed.

Lemma keeps_data_received_loop (n : nat) : keeps R (data_received_loop n).
Proof.
  induction n as [|n IH]; intros p;
    destruct (split_crlf (_buffer p)) as [[line rest]|] eqn:Hs;
    try (rewrite loop_none by assumption; reflexivity).
  - simpl. rewrite Hs. reflexivity.
  - rewrite (loop_turn_eq _ _ _ _ Hs).
    pose proof (keeps_dispatch line (with_buffer rest p)) as Hd.
    pose proof (R_buffer rest p) as Hb.
    destruct (dispatch line (with_buffer rest p)) as [[[]|e] p2]; simpl in Hd.
    + etransitivity; [exact Hb|]. etransitivity; [exact Hd|]. apply IH.
    + etransitivity; [exact Hb|exact Hd].
Qed.

Lemma keeps_data_received (data : bytes) : keeps R (data_received data).
Proof.
  intros p. rewrite data_received_eq.
  etransitivity; [apply (R_buffer (_buffer p ++ data))|].
  apply keeps_data_received_loop.
Qed.

Lemma keeps_connection_lost (exc : str) : keeps R (connection_lost exc).
Proof.
  intros p. unfold connection_lost, bind, gets. cbn [id].
  generalize (length (_queue p)). intros n. revert p.
  induction n as [|n IH]; intros p; simpl.
  - destruct (_queue p); reflexivity.
  - destruct (_queue p) as [|f q] eqn:Hq; [reflexivity|].
    unfold bind, popleft. rewrite Hq.
    pose proof (keeps_resolve f (Err (RedisException (ConnectionLost exc)))
                  (with_queue q p)) as Hr.
    unfold set_exception.
    destruct (resolve f _ (with_queue q p)) as [[[]|e] p2]; simpl in Hr.
    + etransitivity; [apply (R_queue q)|]. etransitivity; [exact Hr|]. apply IH.
    + etransitivity; [apply (R_queue q)|exact Hr].
Qed.

End keeps.

#[local] Instance same_request_state_preorder : PreOrder same_request_state.
Proof.
  split.
  - intros p. reflexivity.
  - intros p1 p2 p3 H12 H23. unfold same_request_state in *. congruence.
Qed.

#[local] Instance settled_preorder : PreOrder settled.
Proof.
  split.
  - intros p f r Hf. exact Hf.
  - intros p1 p2 p3 H12 H23 f r Hf. by apply H23, H12.
Qed.

Lemma same_request_state_in_use (p p' : Protocol) :
  same_request_state p p' -> in_use p' = in_use p.
Proof.
  unfold same_request_state, request_state. intros [= Ht Hps Htx Htr Hq Hpc Hc Hm].
  unfold in_use, in_blocking_call, in_pubsub, in_transaction.
  by rewrite Hps, Htx, Hpc, Hc.
Qed.

Lemma settled_resolve (f : nat) (r : Res Value) (p : Protocol) :
  futures p !! f = Some Pending ->
  settled p (with_futures (<[f := Done r]> (futures p)) p).
Proof.
  intros Hf g s Hg. cbn [futures with_futures].
  rewrite list_lookup_insert_ne; [exact Hg|]. intros ->. congruence.
Qed.

Lemma settled_Future (p : Protocol) :
  settled p (with_futures (futures p ++ [Pending]) p).
Proof. intros g s Hg. cbn [futures with_futures]. by apply lookup_app_l_Some. Qed.

(** X5. Receiving data only answers replies.  Whatever bytes arrive
    and whatever state the protocol is in, and whether [data_received]
    returns or raises, it writes nothing to the transport and leaves
    the pubsub flag, the transaction flag, the transaction object, the
    transaction answer queue and the set of pipelined calls as they
    were; so [in_use] does not change either. *)
Theorem data_received_keeps_request_state (data : bytes) (p : Protocol) :
  let p' := (data_received data p).2 in
  transport p' = transport p /\
  _in_pubsub p' = _in_pubsub p /\
  _in_transaction p' = _in_transaction p /\
  _transaction p' = _transaction p /\
  _transaction_response_queue p' = _transaction_response_queue p /\
  _pipelined_calls p' = _pipelined_calls p /\
  in_use p' = in_use p.
Proof.
  assert (H : same_request_state p (data_received data p).2)
    by (apply keeps_data_received; try apply _; reflexivity).
  pose proof (same_request_state_in_use _ _ H) as Huse.
  unfold same_request_state, request_state in H.
  injection H as Ht Hps Htx Htr Hq Hpc Hc Hm. cbv zeta. auto 10.
Qed.

(** X6. Losing the connection does not reset the request state.
    [connection_lost] fails the waiting futures and nothing else: the
    pubsub flag, the transaction flag and object, the transaction answer
    queue and the set of pipelined calls are as before, so a protocol
    that was in use (in a transaction, in pubsub mode or in a blocking
    call) is still reported in use afterwards. *)
Theorem connection_lost_keeps_request_state (exc : str) (p : Protocol) :
  let p' := (connection_lost exc p).2 in
  transport p' = transport p /\
  _in_pubsub p' = _in_pubsub p /\
  _in_transaction p' = _in_transaction p /\
  _transaction p' = _transaction p /\
  _transaction_response_queue p' = _transaction_response_queue p /\
  _pipelined_calls p' = _pipelined_calls p /\
  in_use p' = in_use p.
Proof.
  assert (H : same_request_state p (connection_lost exc p).2)
    by (apply keeps_connection_lost; try apply _; reflexivity).
  pose proof (same_request_state_in_use _ _ H) as Huse.
  unfold same_request_state, request_state in H.
  injection H as Ht Hps Htx Htr Hq Hpc Hc Hm. cbv zeta. auto 10.
Qed.

(** X7. A future is resolved at most once.  A future that is done keeps
    its result or exception through everything the parser and
    [connection_lost] do afterwards, for every input and also when they
    raise: both only ever resolve futures that are pending. *)
Theorem done_futures_are_final (p : Protocol) (f : nat) (r : Res Value) :
  futures p !! f = Some (Done r) ->
  (forall data, futures (data_received data p).2 !! f = Some (Done r)) /\
  (forall exc, futures (connection_lost exc p).2 !! f = Some (Done r)).
Proof.
  intros Hf. split.
  - intros data. revert f r Hf. change (settled p (data_received data p).2).
    apply keeps_data_received;
      first [ apply _ | exact settled_Future | exact settled_resolve
            | intros; intros g s Hg; exact Hg ].
  - intros exc. revert f r Hf. change (settled p (connection_lost exc p).2).
    apply keeps_connection_lost;
      first [ apply _ | exact settled_Future | exact settled_resolve
            | intros; intros g s Hg; exact Hg ].
Qed.

Lemma done_futures_are_final_witness :
  let p := receive (b "+OK" ++ CRLF) waiting_for_get in
  futures (data_received (b "+again" ++ CRLF) p).2 !! 0%nat
  = Some (Done (Ok (VStatus (u "OK")))) /\
  futures (connection_lost (u "None") p).2 !! 0%nat
  = Some (Done (Ok (VStatus (u "OK")))).
Proof.
  intros p.
  assert (Hf : futures p !! 0%nat = Some (Done (Ok (VStatus (u "OK")))))
    by (vm_compute; reflexivity).
  destruct (done_futures_are_final p 0%nat _ Hf) as [Hdata Hlost].
  split; [apply Hdata|apply Hlost].
Defined.

(** ** Writing a request *)

Lemma send_command_args_other (pre : list bytes) (post : list Arg)
    (p : Protocol) :
  _send_command_args (map ArgBytes pre ++ ArgOther :: post) p
  = (Err (RedisException CannotEncode),
     with_transport (transport p ++ concat (map bulk pre)) p).
Proof.
  revert p. induction pre as [|a pre IH]; intros p.
  - simpl. unfold raise. rewrite app_nil_r. destruct p; reflexivity.
  - simpl. unfold bind, write, modify. simpl. rewrite IH.
    unfold with_transport; simpl. do 2 f_equal.
    unfold bulk. repeat (rewrite <- app_assoc; simpl). reflexivity.
Qed.

(** X8. [_send_command] writes one request frame.  When all arguments
    are bytes it writes exactly [*K\r\n] followed by [$L\r\n<arg>\r\n]
    for every argument, in order, and changes nothing else.  When an
    argument is not bytes it raises 'Cannot encode', but only after the
    header, which announces all [K] arguments, and the arguments before
    the offending one have been written: the transport is left with
    the beginning of a request. *)
Theorem send_command_writes (pre : list bytes) (post : list Arg) (p : Protocol) :
  _send_command (map ArgBytes pre) p
  = (Ok tt, with_transport (transport p ++ request pre) p) /\
  _send_command (map ArgBytes pre ++ ArgOther :: post) p
  = (Err (RedisException CannotEncode),
     with_transport
       (transport p ++ b "*"
        ++ bytes_of_int (Z.of_nat (length pre + S (length post))) ++ CRLF
        ++ concat (map bulk pre)) p).
Proof.
  split; [apply send_command_bytes|].
  unfold _send_command, bind, write, modify. simpl.
  rewrite send_command_args_other.
  rewrite length_app, length_map. cbn [length].
  unfold with_transport; simpl. do 2 f_equal.
  repeat (rewrite <- app_assoc; simpl). reflexivity.
Qed.

(** ** Queries and [in_use] *)

Lemma in_blocking_call_spec (p : Protocol) :
  in_blocking_call p = true <->
  exists c, c ∈ _pipelined_calls p /\ is_blocking <$> calls p !! c = Some true.
Proof.
  unfold in_blocking_call. rewrite bool_decide_eq_true, Exists_exists.
  split; intros (c & Hc & Hb); exists c; (split; [|exact Hb]);
    by apply elem_of_elements.
Qed.

Lemma in_blocking_call_ext (p p' : Protocol) :
  (forall c, (c ∈ _pipelined_calls p' /\ is_blocking <$> calls p' !! c = Some true)
             <-> (c ∈ _pipelined_calls p /\ is_blocking <$> calls p !! c = Some true)) ->
  in_blocking_call p' = in_blocking_call p.
Proof.
  intros Hext.
  destruct (in_blocking_call p) eqn:Hp.
  - apply in_blocking_call_spec in Hp as (c & Hc). apply in_blocking_call_spec.
    exists c. by apply Hext.
  - destruct (in_blocking_call p') eqn:Hp'; [|reflexivity].
    apply in_blocking_call_spec in Hp' as (c & Hc).
    rewrite <- Hp. symmetry. apply in_blocking_call_spec. exists c. by apply Hext.
Qed.

Lemma in_blocking_call_sent (args : list bytes) (blocking : bool)
    (p : Protocol) :
  valid_calls p ->
  in_blocking_call (sent args blocking p) = blocking || in_blocking_call p.
Proof.
  intros Hvalid.
  destruct (blocking || in_blocking_call p) eqn:Hor.
  - apply in_blocking_call_spec.
    unfold sent, awaiting_answer, written.
    cbn [_pipelined_calls calls with_queue with_futures with_transport
         with_pipelined_calls with_calls].
    apply orb_true_iff in Hor as [->|Hp].
    + exists (length (calls p)). split; [set_solver|].
      by rewrite list_lookup_middle.
    + apply in_blocking_call_spec in Hp as (c & Hc & Hb).
      exists c. split; [set_solver|].
      destruct (calls p !! c) as [call|] eqn:Hcall; [|discriminate].
      by rewrite (lookup_app_l_Some _ _ _ _ Hcall).
  - apply orb_false_iff in Hor as [-> Hp].
    destruct (in_blocking_call (sent args false p)) eqn:Hs; [|reflexivity].
    apply in_blocking_call_spec in Hs as (c & Hc & Hb).
    unfold sent, awaiting_answer, written in Hc, Hb.
    cbn [_pipelined_calls calls with_queue with_futures with_transport
         with_pipelined_calls with_calls] in Hc, Hb.
    apply elem_of_union in Hc as [Hc|Hc].
    + apply elem_of_singleton in Hc as ->.
      by rewrite list_lookup_middle in Hb.
    + rewrite lookup_app_l in Hb by (by apply Hvalid).
      rewrite <- Hp. symmetry. apply in_blocking_call_spec. eauto.
Qed.

(** X9. A query marks the protocol for the time it waits.  [_query]
    with bytes arguments records its call, writes the request and
    suspends; in the state it waits in, [in_blocking_call] is true
    when the query was sent with [set_blocking] and is what it was
    before otherwise, so a blocking query makes the protocol [in_use]
    and a plain query does not. *)
Theorem query_in_blocking_call (a : bytes) (args : list bytes)
    (_bypass : bool) (pp : option PostProcessor) (blocking : bool)
    (p : Protocol) :
  valid_calls p ->
  exists c,
    run (_query (map ArgBytes (a :: args)) _bypass pp blocking) p
    = Blocked c (sent (a :: args) blocking p) /\
    in_blocking_call (sent (a :: args) blocking p)
    = blocking || in_blocking_call p /\
    in_use (sent (a :: args) blocking p) = blocking || in_use p /\
    valid_calls (sent (a :: args) blocking p).
Proof.
  intros Hvalid.
  destruct (query_suspends a args _bypass pp blocking p) as [c Hc].
  exists c. split; [exact Hc|]. split; [by apply in_blocking_call_sent|].
  split.
  - unfold in_use. rewrite in_blocking_call_sent by assumption.
    unfold in_pubsub, in_transaction, sent, awaiting_answer, written.
    cbn [_in_pubsub _in_transaction with_queue with_futures with_transport
         with_pipelined_calls with_calls].
    by rewrite !orb_assoc.
  - intros c0. unfold sent, awaiting_answer, written.
    cbn [_pipelined_calls calls with_queue with_futures with_transport
         with_pipelined_calls with_calls].
    rewrite length_app. cbn [length]. intros Hc0.
    apply elem_of_union in Hc0 as [Hc0|Hc0].
    + apply elem_of_singleton in Hc0 as ->. lia.
    + apply Hvalid in Hc0. lia.
Qed.

Lemma query_in_blocking_call_witness :
  exists c,
    run (_query (map ArgBytes [b "blpop"; b "q"; b "0"]) false
           (Some multibulk_as_list) true) (connection_made utf8 None 0)
    = Blocked c (sent [b "blpop"; b "q"; b "0"] true (connection_made utf8 None 0)) /\
    in_use (sent [b "blpop"; b "q"; b "0"] true (connection_made utf8 None 0))
    = true.
Proof.
  assert (Hvalid : valid_calls (connection_made utf8 None 0)).
  { intros c Hc. by apply elem_of_empty in Hc. }
  destruct (query_in_blocking_call (b "blpop") [b "q"; b "0"] false
              (Some multibulk_as_list) true _ Hvalid)
    as (c & Hrun & _ & Huse & _).
  exists c. split; [exact Hrun|exact Huse].
Defined.

Lemma data_received_same_request_state (data : bytes) (p : Protocol) :
  same_request_state p (data_received data p).2.
Proof. apply keeps_data_received; try apply _; reflexivity. Qed.

(** X10. A query that is answered with a value gives the protocol
    back.  Outside a transaction (or with [_bypass]), whatever data
    the server sends, once the future of a query without
    post-processor holds a value the query returns that value and
    removes its call record: the set of pipelined calls and [in_use]
    are what they were before the query was sent. *)
Theorem answered_query_restores_in_use (a : bytes) (args : list bytes)
    (_bypass blocking : bool) (p : Protocol) (data : bytes) (v : Value) :
  valid_calls p ->
  _in_transaction p && negb _bypass = false ->
  let s1 := run (_query (map ArgBytes (a :: args)) _bypass None blocking) p in
  let p2 := receive data (outcome_state s1) in
  futures p2 !! length (futures p) = Some (Done (Ok v)) ->
  exists p3,
    resume s1 p2 = Finished (Ok v) p3 /\
    _pipelined_calls p3 = _pipelined_calls p /\
    in_use p3 = in_use p.
Proof.
  intros Hvalid Hmode s1 p2.
  destruct (query_suspends a args _bypass None blocking p) as [c Hc].
  subst s1 p2. rewrite Hc. cbn [outcome_state resume]. intros Hf.
  set (p1 := sent (a :: args) blocking p) in *.
  pose proof (data_received_same_request_state data p1) as Hsame.
  fold (receive data p1) in Hsame. set (p2 := receive data p1) in *.
  unfold same_request_state, request_state in Hsame.
  injection Hsame as Ht Hps Htx Htr Hq Hpc Hcalls Hm.
  assert (Hmode2 : _in_transaction p2 && negb _bypass = false)
    by (by rewrite Htx).
  rewrite (query_plain _ _ _ _ _ _ _ _ _ Hc Hf Hmode2).
  assert (Hfresh : length (calls p) ∉ _pipelined_calls p).
  { intros Hin. apply Hvalid in Hin. lia. }
  rewrite Hpc.
  change (_pipelined_calls p1) with ({[length (calls p)]} ∪ _pipelined_calls p).
  rewrite bool_decide_eq_true_2
    by (apply elem_of_union_l, elem_of_singleton; reflexivity).
  eexists. split; [reflexivity|].
  assert (Hset : ({[length (calls p)]} ∪ _pipelined_calls p) ∖ {[length (calls p)]}
                 = _pipelined_calls p).
  { clear -Hfresh. apply set_eq. intros c0.
    rewrite elem_of_difference, elem_of_union, elem_of_singleton.
    split; [tauto|]. intros Hc0. split; [by right|]. intros ->. contradiction. }
  split.
  - cbn [_pipelined_calls with_pipelined_calls]. exact Hset.
  - unfold in_use, in_pubsub, in_transaction.
    cbn [_in_pubsub _in_transaction with_pipelined_calls].
    rewrite Hps, Htx. f_equal. f_equal.
    apply in_blocking_call_ext. intros c0.
    cbn [_pipelined_calls calls with_pipelined_calls].
    rewrite Hcalls.
    change (calls p1)
      with (calls p ++ [{| cmd := from_option ArgBytes ArgOther (head (a :: args));
                           is_blocking := blocking |}]).
    rewrite Hset. split; intros [Hc0 Hb]; (split; [exact Hc0|]).
    + by rewrite lookup_app_l in Hb by (by apply Hvalid).
    + by rewrite lookup_app_l by (by apply Hvalid).
Qed.

Lemma answered_query_restores_in_use_witness :
  let p := connection_made utf8 None 0 in
  let s1 := run (_query (map ArgBytes [b "brpoplpush"; b "s"; b "d"; b "0"])
                   false None true) p in
  let p2 := receive (b "$1" ++ CRLF ++ b "x" ++ CRLF) (outcome_state s1) in
  in_use (outcome_state s1) = true /\
  exists p3,
    resume s1 p2 = Finished (Ok (VStr (u "x"))) p3 /\ in_use p3 = false.
Proof.
  intros p s1 p2. split; [vm_compute; reflexivity|].
  assert (Hvalid : valid_calls p).
  { intros c Hc. by apply elem_of_empty in Hc. }
  assert (Hf : futures p2 !! length (futures p) = Some (Done (Ok (VStr (u "x")))))
    by (vm_compute; reflexivity).
  destruct (answered_query_restores_in_use (b "brpoplpush") [b "s"; b "d"; b "0"]
              false true p (b "$1" ++ CRLF ++ b "x" ++ CRLF) _ Hvalid eq_refl Hf)
    as (p3 & Hrun & _ & Huse).
  exists p3. split; [exact Hrun|exact Huse].
Defined.

(** ** Transactions *)

Lemma run_Return {A B} (a : A) (h : A -> Coro B) (p : Protocol) :
  run (cbind (Return a) h) p = run (h a) p.
Proof. reflexivity. Qed.

Lemma multi_suspends (p : Protocol) :
  _in_transaction p = false ->
  exists c0,
    run (_query (map ArgBytes [b "multi"]) false None false) p
    = Blocked (cbind c0 Return) (sent [b "multi"] false p) /\
    run (multi None None) p
    = Blocked
        (cbind
           (cbind (cbind c0 Return)
              (fun result =>
                 cbind (sync (assert_status result (u "OK")))
                   (fun _ =>
                      cbind (sync (modify (with_in_transaction true)))
                        (fun _ =>
                           cbind (sync (modify (with_transaction_response_queue
                                                  (Some []))))
                             (fun _ =>
                                cbind (sync new_Transaction)
                                  (fun t =>
                                     cbind (sync (modify (with_transaction (Some t))))
                                       (fun _ => Return (VTransaction t))))))))
           (fun result =>
              cbind (sync (typecheck_return None result))
                (fun _ => Return result)))
        (sent [b "multi"] false p).
Proof.
  intros Htx.
  destruct (query_unfold (b "multi") [] false None false p) as (c0 & _ & Hq).
  exists c0. split; [exact Hq|].
  unfold multi, _command.
  rewrite run_gets. unfold in_transaction. rewrite Htx.
  rewrite run_gets. cbn [andb].
  rewrite run_cbind, run_gets, Htx, run_Return, run_cbind.
  change [ArgBytes (b "multi")] with (map ArgBytes [b "multi"]).
  rewrite Hq. reflexivity.
Qed.

(** X11. [multi] starts a transaction only when the server says OK.
    Called outside a transaction, it sends MULTI and suspends without
    entering the transaction.  When the reply is [StatusReply('OK')] it
    sets the transaction flag, installs an empty transaction answer
    queue and returns a new transaction object, which is then the
    current one; from there the protocol is [in_use].  Any other reply
    fails the call and leaves the protocol outside a transaction. *)
Theorem multi_starts_transaction (p : Protocol) :
  _in_transaction p = false ->
  let f := length (futures p) in
  let call := length (calls p) in
  exists c,
    run (multi None None) p = Blocked c (sent [b "multi"] false p) /\
    transport (sent [b "multi"] false p)
    = transport p ++ b "*1" ++ CRLF ++ b "$5" ++ CRLF ++ b "multi" ++ CRLF /\
    _in_transaction (sent [b "multi"] false p) = false /\
    forall p2,
      _in_transaction p2 = false ->
      call ∈ _pipelined_calls p2 ->
      let p3 := with_pipelined_calls (_pipelined_calls p2 ∖ {[ call ]}) p2 in
      let t := transactions p2 in
      (futures p2 !! f = Some (Done (Ok (VStatus (u "OK")))) ->
         run c p2 = Finished (Ok (VTransaction t)) (in_new_transaction t p3) /\
         in_use (in_new_transaction t p3) = true /\
         forall name, name ∈ _all_commands ->
           Transaction.__getattr__ t name (in_new_transaction t p3)
           = (Ok tt, in_new_transaction t p3)) /\
      (forall v, futures p2 !! f = Some (Done (Ok v)) -> v <> VStatus (u "OK") ->
         exists e, run c p2 = Finished (Err e) p3) /\
      (forall e, futures p2 !! f = Some (Done (Err e)) ->
         run c p2 = Finished (Err e) p2).
Proof.
  intros Htx f call.
  destruct (multi_suspends p Htx) as (c0 & Hq & Hrun).
  eexists. split; [exact Hrun|]. split.
  { change (transport (sent [b "multi"] false p))
      with (transport p ++ request [b "multi"]).
    apply (f_equal (app (transport p))). vm_compute. reflexivity. }
  split; [exact Htx|].
  intros p2 Hmode Hcall p3 t.
  assert (Hm : _in_transaction p2 && negb false = false) by (by rewrite Hmode).
  split; [|split].
  - intros Hf. split; [|split].
    + rewrite run_cbind, run_cbind.
      rewrite (query_plain _ _ _ _ _ _ _ _ _ Hq Hf Hm).
      rewrite bool_decide_eq_true_2 by exact Hcall.
      rewrite run_sync. unfold assert_status, bind, lift.
      rewrite (proj2 (eq_status_OK _) eq_refl). reflexivity.
    + unfold in_use, in_transaction, in_new_transaction.
      cbn [_in_transaction with_transaction with_transactions
           with_transaction_response_queue with_in_transaction].
      apply orb_true_r.
    + intros name Hname. unfold Transaction.__getattr__.
      rewrite bool_decide_eq_true_2 by exact Hname.
      unfold bind, gets, in_new_transaction. cbn [_transaction with_transaction].
      rewrite bool_decide_eq_true_2 by reflexivity. reflexivity.
  - intros v Hf Hv. rewrite run_cbind, run_cbind.
    rewrite (query_plain _ _ _ _ _ _ _ _ _ Hq Hf Hm).
    rewrite bool_decide_eq_true_2 by exact Hcall.
    rewrite run_sync. unfold assert_status, bind, lift.
    destruct (eq_status v (u "OK")) as [[|]|e] eqn:Heq.
    + by apply eq_status_OK in Heq.
    + eexists. reflexivity.
    + eexists. reflexivity.
  - intros e Hf. rewrite run_cbind, run_cbind.
    rewrite (query_error _ _ _ _ _ _ _ _ _ _ Hq Hf). reflexivity.
Qed.

Lemma multi_starts_transaction_witness :
  let p := connection_made utf8 None 0 in
  let p2 := receive (b "+OK" ++ CRLF) (sent [b "multi"] false p) in
  exists c,
    run (multi None None) p = Blocked c (sent [b "multi"] false p) /\
    run c p2
    = Finished (Ok (VTransaction 0))
        (in_new_transaction 0
           (with_pipelined_calls (_pipelined_calls p2 ∖ {[ 0%nat ]}) p2)).
Proof.
  intros p p2.
  assert (Htx : _in_transaction p = false) by reflexivity.
  destruct (multi_starts_transaction p Htx) as (c & Hrun & _ & _ & Hresume).
  exists c. split; [exact Hrun|].
  assert (Hmode : _in_transaction p2 = false) by (vm_compute; reflexivity).
  assert (Hcall : length (calls p) ∈ _pipelined_calls p2)
    by (apply (bool_decide_unpack _); vm_compute; reflexivity).
  destruct (Hresume p2 Hmode Hcall) as (Hok & _ & _).
  apply Hok. vm_compute. reflexivity.
Defined.

(** X12. Inside a transaction the protocol only takes commands from the
    current transaction object.  A command called on the protocol
    itself, with no transaction object or with one that is not the
    current one as first argument, raises 'Cannot run command inside
    transaction' before the method is entered.  A command requested
    from a transaction object that is not the current one does not get
    that far: the object itself refuses it with 'Transaction already
    finished or invalid.'.  And [multi] called through the current
    transaction object raises 'Multi calls can not be nested.'.  In all
    three cases nothing is sent and the protocol is left exactly as it
    was. *)
Theorem transaction_guards (p : Protocol) :
  _in_transaction p = true ->
  (forall (return_type : option (list PyClass)) (stray : exn)
          (method : Coro Value) (a0 : option nat),
     a0 <> _transaction p \/ a0 = None ->
     run (_command return_type stray method a0) p
     = Finished (Err (RedisException CannotRunInsideTransaction)) p) /\
  (forall (other : nat) (name : string),
     _transaction p <> Some other ->
     name ∈ _all_commands ->
     Transaction.__getattr__ other name p
     = (Err (RedisException TransactionFinished), p)) /\
  (forall (t : nat) (keys : option (list str)),
     _transaction p = Some t ->
     run (multi keys (Some t)) p
     = Finished (Err (RedisException MultiNested)) p).
Proof.
  intros Htx. split; [|split].
  - intros return_type stray method a0 Ha0. unfold _command.
    rewrite run_gets. unfold in_transaction. rewrite Htx, run_gets.
    rewrite bool_decide_eq_false_2; [reflexivity|].
    intros [[x Hx] Heq]. destruct Ha0 as [Hne|Hnone]; congruence.
  - intros other name Hother Hname. unfold Transaction.__getattr__.
    rewrite bool_decide_eq_true_2 by exact Hname.
    unfold bind, gets, raise.
    rewrite bool_decide_eq_false_2 by exact Hother. reflexivity.
  - intros t keys Ht. unfold multi, _command.
    rewrite run_gets. unfold in_transaction. rewrite Htx, run_gets.
    rewrite bool_decide_eq_true_2 by (rewrite Ht; eauto).
    cbn [negb andb]. rewrite run_cbind, run_gets, Htx. reflexivity.
Qed.

Lemma transaction_guards_witness :
  let refused :=
    Finished (Err (RedisException CannotRunInsideTransaction))
      transaction_started in
  run (get (u "k") None) transaction_started = refused /\
  run (mget [u "k"] (Some 1%nat)) transaction_started = refused /\
  Transaction.__getattr__ 1 "get" transaction_started
  = (Err (RedisException TransactionFinished), transaction_started) /\
  run (multi None (Some 0%nat)) transaction_started
  = Finished (Err (RedisException MultiNested)) transaction_started.
Proof.
  assert (Htx : _in_transaction transaction_started = true)
    by (vm_compute; reflexivity).
  assert (Ht : _transaction transaction_started = Some 0%nat)
    by (vm_compute; reflexivity).
  destruct (transaction_guards transaction_started Htx)
    as (Hdirect & Hother & Hmulti).
  intros refused. split; [|split; [|split]].
  - apply Hdirect. by right.
  - apply Hdirect. left. rewrite Ht. discriminate.
  - apply Hother.
    + rewrite Ht. discriminate.
    + apply (bool_decide_unpack _). vm_compute. reflexivity.
  - apply Hmulti. exact Ht.
Defined.

Lemma exec_loop_turn {B} (reply : nat) (turns : nat) (f2 c : nat)
    (pp : option PostProcessor) (rest : list TxEntry) (n : Z)
    (item r : Value) (items : list Value) (p : Protocol)
    (h : unit -> Coro B) :
  replies p !! reply = Some {| count := n; queue := item :: items |} ->
  committed pp item = Some r ->
  c ∈ _pipelined_calls p ->
  futures p !! f2 = Some Pending ->
  run (cbind (_exec_loop reply (S turns) (Some ((f2, pp, Some c) :: rest))) h) p
  = run (cbind (_exec_loop reply turns (Some rest)) h)
      (exec_turn reply n items f2 c r p).
Proof.
  intros Hreply Hr Hc Hf.
  rewrite run_cbind. cbn [_exec_loop]. rewrite run_cbind. cbn [run].
  rewrite Hreply.
  assert (Hremove : forall p0, _pipelined_calls p0 = _pipelined_calls p ->
            remove_call c p0
            = (Ok tt, with_pipelined_calls (_pipelined_calls p ∖ {[ c ]}) p0)).
  { intros p0 Hp0. unfold remove_call. rewrite Hp0.
    by rewrite bool_decide_eq_true_2. }
  assert (Hset : forall p0, futures p0 = futures p ->
            set_result f2 r p0
            = (Ok tt, with_futures (<[f2 := Done (Ok r)]> (futures p)) p0)).
  { intros p0 Hp0. unfold set_result, resolve. by rewrite Hp0, Hf. }
  destruct pp as [[|]|];
    destruct item; try discriminate; cbn in Hr; simplify_eq;
    rewrite run_cbind; cbn [post_process cbind run sync];
    rewrite Hremove by reflexivity; rewrite Hset by reflexivity;
    rewrite <- run_cbind; reflexivity.
Qed.

Lemma exec_loop_spec {B} (reply : nat) (n : Z) (h : unit -> Coro B) :
  forall (entries : list TxEntry) (items more : list Value) (p : Protocol),
    replies p !! reply = Some {| count := n; queue := items ++ more |} ->
    Forall2 (fun (e : TxEntry) item => is_Some (committed e.1.2 item))
      entries items ->
    (forall e, e ∈ entries -> futures p !! e.1.1 = Some Pending) ->
    (forall e, e ∈ entries -> exists c, e.2 = Some c /\ c ∈ _pipelined_calls p) ->
    NoDup (entries.*1.*1) ->
    NoDup (entries.*2) ->
    exists p',
      run (cbind (_exec_loop reply (length entries) (Some entries)) h) p
      = run (h tt) p' /\
      replies p' = <[reply := {| count := n; queue := more |}]> (replies p) /\
      (forall i e item r, entries !! i = Some e -> items !! i = Some item ->
         committed e.1.2 item = Some r ->
         futures p' !! e.1.1 = Some (Done (Ok r))) /\
      (forall g, g ∉ entries.*1.*1 -> futures p' !! g = futures p !! g) /\
      (forall c, c ∈ _pipelined_calls p'
                 <-> c ∈ _pipelined_calls p /\ Some c ∉ entries.*2) /\
      same_request_state
        (with_pipelined_calls ∅ p) (with_pipelined_calls ∅ p').
Proof.
  induction entries as [|[[f2 pp] call] entries IH];
    intros items more p Hreply Hitems Hpending Hcalls Hndf Hndc.
  - apply Forall2_nil_inv_l in Hitems as ->. exists p.
    split; [reflexivity|]. split.
    { symmetry. apply list_insert_id. exact Hreply. }
    split; [intros i e item r Hi; by rewrite lookup_nil in Hi|].
    split; [reflexivity|]. split; [|reflexivity].
    intros c. cbn. rewrite elem_of_nil. tauto.
  - apply Forall2_cons_inv_l in Hitems as (item & items' & [r Hr] & Hitems & ->).
    cbn [fmap list_fmap fst snd] in Hndf, Hndc.
    apply NoDup_cons in Hndf as [Hf2 Hndf]. apply NoDup_cons in Hndc as [Hcall Hndc].
    destruct (Hcalls (f2, pp, call)) as (c & Hceq & Hc);
      [apply elem_of_cons; by left|]. cbn [snd] in Hceq. subst call.
    assert (Hf : futures p !! f2 = Some Pending).
    { apply (Hpending (f2, pp, Some c)). apply elem_of_cons. by left. }
    pose proof (exec_loop_turn reply (length entries) f2 c pp entries n item r
                  (items' ++ more) p h Hreply Hr Hc Hf) as Hturn.
    assert (Hreply_lt : (reply < length (replies p))%nat)
      by (by apply lookup_lt_Some in Hreply).
    destruct (IH items' more (exec_turn reply n (items' ++ more) f2 c r p))
      as (p' & Hrun & Hrep & Hres & Hout & Hset & Hsame); try assumption.
    + unfold exec_turn. cbn [replies with_futures with_pipelined_calls with_replies].
      by apply list_lookup_insert_eq.
    + intros e He. unfold exec_turn.
      cbn [futures with_futures with_pipelined_calls with_replies].
      rewrite list_lookup_insert_ne.
      * apply Hpending, elem_of_cons. by right.
      * intros ->. apply Hf2. apply list_elem_of_fmap. exists e.1.
        split; [reflexivity|]. apply list_elem_of_fmap. eauto.
    + intros e He. destruct (Hcalls e) as (c' & Hc'eq & Hc');
        [apply elem_of_cons; by right|].
      exists c'. split; [exact Hc'eq|]. unfold exec_turn.
      cbn [_pipelined_calls with_futures with_pipelined_calls with_replies].
      apply elem_of_difference. split; [exact Hc'|].
      rewrite elem_of_singleton. intros ->. apply Hcall.
      apply list_elem_of_fmap. eauto.
    + exists p'. split; [rewrite <- Hrun; exact Hturn|]. split.
      { rewrite Hrep. unfold exec_turn.
        cbn [replies with_futures with_pipelined_calls with_replies].
        apply list_insert_insert_eq. }
      split; [|split; [|split]].
      * intros [|i] e it r' Hi Hit Hr'; simpl in Hi, Hit.
        -- simplify_eq. cbn [fst snd] in *. rewrite Hout by exact Hf2.
           unfold exec_turn.
           cbn [futures with_futures with_pipelined_calls with_replies].
           rewrite list_lookup_insert_eq by (by apply lookup_lt_Some in Hf).
           congruence.
        -- by apply (Hres i e it).
      * intros g Hg. cbn [fmap list_fmap fst] in Hg.
        apply not_elem_of_cons in Hg as [Hne Hg].
        rewrite Hout by exact Hg. unfold exec_turn.
        cbn [futures with_futures with_pipelined_calls with_replies].
        by apply list_lookup_insert_ne.
      * intros c0. rewrite Hset. unfold exec_turn.
        cbn [_pipelined_calls with_futures with_pipelined_calls with_replies
             fmap list_fmap snd].
        rewrite elem_of_difference, elem_of_singleton, not_elem_of_cons.
        split.
        -- intros [[Hc0 Hne] Hnotin]. split; [exact Hc0|].
           split; [congruence|exact Hnotin].
        -- intros [Hc0 [Hne Hnotin]]. split; [|exact Hnotin].
           split; [exact Hc0|congruence].
      * etransitivity; [|exact Hsame]. reflexivity.
Qed.

Lemma run_cbind_Return_inv {A} (c : Coro A) (p p' : Protocol) (r : Res A) :
  run (cbind c Return) p = Finished r p' -> run c p = Finished r p'.
Proof.
  rewrite run_cbind. destruct (run c p) as [[a|e] p1|c1 p1]; simpl; congruence.
Qed.

(** X13. EXEC commits the queued commands in the order they were
    issued.  In a transaction, [_exec] takes the transaction answer
    queue, sends EXEC and suspends.  When the reply is a multi bulk
    reply whose queue holds one item for every queued command, [_exec]
    returns and the future handed out for the i-th queued command holds
    the i-th item of the reply (after the command's post-processor, if
    it has one); the call records of the queued commands and of EXEC
    itself are removed, no other future changes, and the protocol has
    left the transaction. *)
Theorem exec_commits_in_order (p : Protocol) (entries : list TxEntry) :
  _in_transaction p = true ->
  _transaction_response_queue p = Some entries ->
  let f := length (futures p) in
  let call := length (calls p) in
  exists c,
    run _exec p
    = Blocked c (sent [b "exec"] false (with_transaction_response_queue None p)) /\
    forall (p2 : Protocol) (reply : nat) (items : list Value),
      futures p2 !! f = Some (Done (Ok (VMultiBulk reply))) ->
      replies p2 !! reply
      = Some {| count := Z.of_nat (length entries); queue := items |} ->
      call ∈ _pipelined_calls p2 ->
      Some call ∉ entries.*2 ->
      Forall2 (fun (e : TxEntry) item => is_Some (committed e.1.2 item))
        entries items ->
      (forall e, e ∈ entries -> futures p2 !! e.1.1 = Some Pending) ->
      (forall e, e ∈ entries -> exists c, e.2 = Some c /\ c ∈ _pipelined_calls p2) ->
      NoDup (entries.*1.*1) ->
      NoDup (entries.*2) ->
      exists p3,
        run c p2 = Finished (Ok VNone) p3 /\
        (forall i e item r, entries !! i = Some e -> items !! i = Some item ->
           committed e.1.2 item = Some r ->
           futures p3 !! e.1.1 = Some (Done (Ok r))) /\
        (forall g, g ∉ entries.*1.*1 -> futures p3 !! g = futures p2 !! g) /\
        (forall c, c ∈ _pipelined_calls p3
                   <-> c ∈ _pipelined_calls p2 /\ c <> call
                       /\ Some c ∉ entries.*2) /\
        _in_transaction p3 = false /\
        _transaction p3 = None /\
        _transaction_response_queue p3 = Some [] /\
        transport p3 = transport p2.
Proof.
  intros Htx Hqueue f call. unfold _exec.
  set (p0 := with_transaction_response_queue None p).
  destruct (query_unfold (b "exec") [] true None false p0) as (c0 & _ & Hq).
  eexists. split.
  { rewrite run_gets, Htx. cbn [negb]. rewrite run_gets, run_modify. fold p0.
    rewrite run_cbind.
    change [ArgBytes (b "exec")] with (map ArgBytes [b "exec"]).
    rewrite Hq. reflexivity. }
  intros p2 reply items Hf Hreply Hcall Hfresh Hitems Hpending Hcalls Hndf Hndc.
  assert (Hm : _in_transaction p2 && negb true = false) by apply andb_false_r.
  rewrite run_cbind, (query_plain _ _ _ _ _ _ _ _ _ Hq Hf Hm).
  rewrite bool_decide_eq_true_2 by exact Hcall.
  set (p2' := with_pipelined_calls (_pipelined_calls p2 ∖ {[length (calls p0)]}) p2).
  destruct (exec_loop_spec reply (Z.of_nat (length entries)) Return
              entries items [] p2')
    as (p' & Hrun & Hrep & Hres & Hout & Hset & Hsame); try assumption.
  { rewrite app_nil_r. exact Hreply. }
  { intros e He. destruct (Hcalls e He) as (c & Hceq & Hc).
    exists c. split; [exact Hceq|]. unfold p2'.
    cbn [_pipelined_calls with_pipelined_calls].
    apply elem_of_difference. split; [exact Hc|].
    rewrite elem_of_singleton. intros ->. apply Hfresh.
    apply list_elem_of_fmap. eauto. }
  apply run_cbind_Return_inv in Hrun.
  exists (with_transaction None
            (with_in_transaction false
               (with_transaction_response_queue (Some []) p'))).
  split.
  { rewrite run_cbind, run_sync. unfold reply_count.
    change (replies p2') with (replies p2). rewrite Hreply.
    cbn [count]. unfold range. rewrite length_seq, Nat2Z.id.
    rewrite Hqueue, Hrun. reflexivity. }
  split; [exact Hres|]. split; [exact Hout|]. split.
  { intros c. cbn [_pipelined_calls with_transaction with_in_transaction
                   with_transaction_response_queue].
    rewrite Hset. unfold p2'. cbn [_pipelined_calls with_pipelined_calls].
    rewrite elem_of_difference, elem_of_singleton. tauto. }
  do 3 (split; [reflexivity|]).
  unfold same_request_state, request_state in Hsame.
  by injection Hsame.
Qed.

Lemma exec_commits_in_order_witness :
  let s := run (exists_ (u "k") (Some 0%nat)) transaction_with_queued_set in
  let p := outcome_state
             (resume s (receive (b "+QUEUED" ++ CRLF) (outcome_state s))) in
  let p1 := sent [b "exec"] false (with_transaction_response_queue None p) in
  let p2 := protocol
              (loop_turn
                 {| protocol :=
                      receive (b "*2" ++ CRLF ++ b "+OK" ++ CRLF ++ b ":1" ++ CRLF) p1;
                    running := [] |}) in
  exists c p3,
    run _exec p = Blocked c p1 /\
    run c p2 = Finished (Ok VNone) p3 /\
    futures p3 !! 2%nat = Some (Done (Ok (VStatus (u "OK")))) /\
    futures p3 !! 4%nat = Some (Done (Ok (VBool true))) /\
    _in_transaction p3 = false.
Proof.
  intros s p p1 p2.
  set (entries := [(2%nat, @None PostProcessor, Some 1%nat);
                   (4%nat, Some int_to_bool, Some 2%nat)] : list TxEntry).
  set (items := [VStatus (u "OK"); VInt 1]).
  assert (Htx : _in_transaction p = true) by (vm_compute; reflexivity).
  assert (Hqueue : _transaction_response_queue p = Some entries)
    by (vm_compute; reflexivity).
  destruct (exec_commits_in_order p _ Htx Hqueue) as (c & Hrun & Hresume).
  assert (Hf : futures p2 !! length (futures p) = Some (Done (Ok (VMultiBulk 0))))
    by (vm_compute; reflexivity).
  assert (Hreply : replies p2 !! 0%nat
                   = Some {| count := Z.of_nat (length entries); queue := items |})
    by (vm_compute; reflexivity).
  assert (Hcall : length (calls p) ∈ _pipelined_calls p2)
    by (apply (bool_decide_unpack _); vm_compute; reflexivity).
  assert (Hfresh : Some (length (calls p)) ∉ entries.*2)
    by (apply (bool_decide_unpack _); vm_compute; reflexivity).
  assert (Hitems : Forall2 (fun (e : TxEntry) item => is_Some (committed e.1.2 item))
                     entries items)
    by (repeat constructor; eexists; reflexivity).
  assert (Hpending : forall e : TxEntry, e ∈ entries ->
                       futures p2 !! e.1.1 = Some Pending).
  { intros e He. apply elem_of_cons in He as [->|He];
      [vm_compute; reflexivity|].
    apply list_elem_of_singleton in He as ->. vm_compute. reflexivity. }
  assert (Hcalls : forall e : TxEntry, e ∈ entries ->
                     exists c, e.2 = Some c /\ c ∈ _pipelined_calls p2).
  { intros e He. apply elem_of_cons in He as [->|He].
    - exists 1%nat. split; [reflexivity|].
      apply (bool_decide_unpack _). vm_compute. reflexivity.
    - apply list_elem_of_singleton in He as ->. exists 2%nat.
      split; [reflexivity|]. apply (bool_decide_unpack _). vm_compute. reflexivity. }
  assert (Hndf : NoDup (entries.*1.*1))
    by (apply (bool_decide_unpack _); vm_compute; reflexivity).
  assert (Hndc : NoDup (entries.*2))
    by (apply (bool_decide_unpack _); vm_compute; reflexivity).
  destruct (Hresume p2 0%nat items Hf Hreply Hcall Hfresh Hitems
              Hpending Hcalls Hndf Hndc)
    as (p3 & Hrun3 & Hres & _ & _ & Hmode & _).
  exists c, p3. split; [exact Hrun|]. split; [exact Hrun3|].
  split; [|split; [|exact Hmode]].
  - apply (Hres 0%nat (2%nat, None, Some 1%nat) (VStatus (u "OK"))); reflexivity.
  - apply (Hres 1%nat (4%nat, Some int_to_bool, Some 2%nat) (VInt 1)); reflexivity.
Defined.

Lemma discard_suspends (p : Protocol) :
  _in_transaction p = true ->
  exists c,
    run _discard p
    = Blocked c
        (sent [b "discard"] false
           (with_transaction None
              (with_in_transaction false
                 (with_transaction_response_queue (Some []) p)))).
Proof.
  intros Htx. unfold _discard.
  set (p0 := with_transaction None
               (with_in_transaction false
                  (with_transaction_response_queue (Some []) p))).
  destruct (query_unfold (b "discard") [] false None false p0) as (c0 & _ & Hq).
  eexists. rewrite run_gets, Htx. cbn [negb]. rewrite !run_modify. fold p0.
  rewrite run_cbind.
  change [ArgBytes (b "discard")] with (map ArgBytes [b "discard"]).
  rewrite Hq. reflexivity.
Qed.

(** X14. A discarded transaction cannot be used any more.  As soon as
    [discard] has been called on a transaction object, before the
    server has answered, the protocol is outside the transaction and
    every command requested from that transaction object is refused
    with 'Transaction already finished or invalid.'; whatever the
    server sends afterwards does not change that. *)
Theorem discarded_transaction_is_rejected (p : Protocol) (t : nat)
    (name : string) (data : bytes) :
  _in_transaction p = true ->
  name ∈ _all_commands ->
  let p1 := outcome_state (run (Transaction.discard t) p) in
  in_transaction p1 = false /\
  Transaction.__getattr__ t name p1
  = (Err (RedisException TransactionFinished), p1) /\
  Transaction.__getattr__ t name (receive data p1)
  = (Err (RedisException TransactionFinished), receive data p1).
Proof.
  intros Htx Hname p1. subst p1. unfold Transaction.discard.
  destruct (discard_suspends p Htx) as [c Hc]. rewrite Hc.
  cbn [outcome_state]. split; [reflexivity|].
  assert (Hreject : forall p', _transaction p' = None ->
            Transaction.__getattr__ t name p'
            = (Err (RedisException TransactionFinished), p')).
  { intros p' Hp'. unfold Transaction.__getattr__.
    rewrite bool_decide_eq_true_2 by exact Hname.
    unfold bind, gets. rewrite Hp'. reflexivity. }
  split; [by apply Hreject|]. apply Hreject.
  pose proof (data_received_same_request_state data
                (sent [b "discard"] false
                   (with_transaction None
                      (with_in_transaction false
                         (with_transaction_response_queue (Some []) p)))))
    as Hsame.
  unfold same_request_state, request_state in Hsame.
  injection Hsame as _ _ _ Htr _ _ _ _. exact Htr.
Qed.

Lemma discarded_transaction_is_rejected_witness :
  let p1 := outcome_state (run (Transaction.discard 0) transaction_with_queued_set) in
  Transaction.__getattr__ 0 "set" (receive (b "+OK" ++ CRLF) p1)
  = (Err (RedisException TransactionFinished), receive (b "+OK" ++ CRLF) p1).
Proof.
  assert (Htx : _in_transaction transaction_with_queued_set = true)
    by (vm_compute; reflexivity).
  assert (Hname : "set"%string ∈ _all_commands)
    by (apply (bool_decide_unpack _); vm_compute; reflexivity).
  exact (proj2 (proj2 (discarded_transaction_is_rejected
                         transaction_with_queued_set 0 "set" (b "+OK" ++ CRLF)
                         Htx Hname))).
Defined.




(** ** The items of a multi bulk reply *)

Lemma forwarded_nil (reply : nat) (r : MultiBulkReply) (p : Protocol) :
  replies p !! reply = Some r -> forwarded reply r [] p = p.
Proof.
  intros Hr. unfold forwarded. rewrite app_nil_r.
  replace {| count := count r; queue := queue r |} with r by (by destruct r).
  rewrite list_insert_id by exact Hr. by destruct p.
Qed.

Lemma handle_results_prefix (reply : nat) (fs2 : list nat) :
  forall (fs1 : list nat) (items : list Value) (p : Protocol)
         (r : MultiBulkReply),
    replies p !! reply = Some r ->
    Forall2 (fun f item => futures p !! f = Some (Done (Ok item))) fs1 items ->
    run (handle_results reply (fs1 ++ fs2)) p
    = run (handle_results reply fs2) (forwarded reply r items p).
Proof.
  induction fs1 as [|f fs1 IH]; intros items p r Hr Hdone.
  - apply Forall2_nil_inv_l in Hdone as ->. by rewrite forwarded_nil.
  - apply Forall2_cons_inv_l in Hdone as (item & items' & Hf & Hdone & ->).
    cbn [app handle_results]. rewrite run_cbind. cbn [run await].
    rewrite Hf. cbn [run]. rewrite run_sync. unfold put_nowait. rewrite Hr.
    rewrite (IH items' _ {| count := count r; queue := queue r ++ [item] |}).
    + unfold forwarded. cbn [replies with_replies count queue].
      rewrite list_insert_insert_eq, <- app_assoc. reflexivity.
    + cbn [replies with_replies]. apply list_lookup_insert_eq.
      by apply lookup_lt_Some in Hr.
    + exact Hdone.
Qed.

(** X16. The task that [_handle_multi_bulk_reply] starts moves the
    children of a multi bulk reply to the reply's queue in the order of
    the wire, and stops at the first one that cannot be moved.  When
    all children are answered with values, all of them are put on the
    queue, in order, and the task ends.  When a child is still pending,
    the values before it are on the queue and the task waits.  When a
    child was answered with an error reply, the values before it are on
    the queue and the task dies with that error: the children after it
    never reach the queue, so a reader of the reply is left waiting. *)
Theorem handle_results_forwards_in_order (reply : nat) (fs1 fs2 : list nat)
    (items : list Value) (p : Protocol) (r : MultiBulkReply) :
  replies p !! reply = Some r ->
  Forall2 (fun f item => futures p !! f = Some (Done (Ok item))) fs1 items ->
  run (handle_results reply fs1) p
  = Finished (Ok tt) (forwarded reply r items p) /\
  (forall f, futures p !! f = Some Pending ->
     exists c,
       run (handle_results reply (fs1 ++ f :: fs2)) p
       = Blocked c (forwarded reply r items p)) /\
  (forall f e, futures p !! f = Some (Done (Err e)) ->
     run (handle_results reply (fs1 ++ f :: fs2)) p
     = Finished (Err e) (forwarded reply r items p)).
Proof.
  intros Hr Hdone. split; [|split].
  - rewrite <- (app_nil_r fs1).
    by rewrite (handle_results_prefix reply [] fs1 items p r).
  - intros f Hf.
    rewrite (handle_results_prefix reply (f :: fs2) fs1 items p r) by assumption.
    cbn [handle_results]. rewrite run_cbind. cbn [run await].
    change (futures (forwarded reply r items p)) with (futures p).
    rewrite Hf. eauto.
  - intros f e Hf.
    rewrite (handle_results_prefix reply (f :: fs2) fs1 items p r) by assumption.
    cbn [handle_results]. rewrite run_cbind. cbn [run await].
    change (futures (forwarded reply r items p)) with (futures p).
    rewrite Hf. reflexivity.
Qed.

Lemma get_items_spec (reply : nat) (n : Z) :
  forall (items more : list Value) (p : Protocol),
    replies p !! reply = Some {| count := n; queue := items ++ more |} ->
    run (get_items reply (length items)) p
    = Finished (Ok items) (taken reply n more p).
Proof.
  unfold taken.
  induction items as [|item items IH]; intros more p Hr.
  - cbn [length get_items run].
    rewrite list_insert_id by exact Hr. by destruct p.
  - cbn [length get_items]. rewrite run_cbind. cbn [run]. rewrite Hr.
    cbn [app run]. rewrite run_cbind, (IH more).
    + cbn [run replies with_replies].
      by rewrite list_insert_insert_eq.
    + cbn [replies with_replies].
      apply list_lookup_insert_eq. by apply lookup_lt_Some in Hr.
Qed.

Lemma get_items_blocks (reply : nat) (n : Z) :
  forall (items : list Value) (turns : nat) (p : Protocol),
    replies p !! reply = Some {| count := n; queue := items |} ->
    (length items < turns)%nat ->
    exists c, run (get_items reply turns) p = Blocked c (taken reply n [] p).
Proof.
  unfold taken.
  induction items as [|item items IH]; intros turns p Hr Hlen;
    (destruct turns as [|turns]; [simpl in Hlen; lia|]).
  - cbn [get_items]. rewrite run_cbind. cbn [run]. rewrite Hr.
    rewrite list_insert_id by exact Hr.
    replace (with_replies (replies p) p) with p by (by destruct p). eauto.
  - cbn [get_items]. rewrite run_cbind. cbn [run]. rewrite Hr. cbn [run].
    rewrite run_cbind.
    edestruct (IH turns) as [c Hc]; [| |rewrite Hc].
    + cbn [replies with_replies].
      apply list_lookup_insert_eq. by apply lookup_lt_Some in Hr.
    + simpl in Hlen. lia.
    + cbn [replies with_replies].
      rewrite list_insert_insert_eq. eauto.
Qed.

Lemma get_as_list_spec (reply : nat) (n : Z) (items more : list Value)
    (p : Protocol) :
  replies p !! reply = Some {| count := n; queue := items ++ more |} ->
  length items = Z.to_nat n ->
  run (get_as_list reply) p
  = Finished (Ok (VList items)) (taken reply n more p).
Proof.
  intros Hr Hlen. unfold get_as_list. rewrite run_sync. unfold reply_count.
  rewrite Hr. cbn [count]. unfold range. rewrite length_seq, <- Hlen.
  rewrite run_cbind, (get_items_spec reply n items more p Hr). reflexivity.
Qed.

(** X17. [get_as_list] returns the items of a multi bulk reply in the
    order they were put on its queue.  When the queue holds at least
    [count] items, it returns the first [count] of them as a list and
    takes exactly those from the queue (none for a count of zero or
    less); when it holds fewer, it takes what is there and waits. *)
Theorem get_as_list_in_order (reply : nat) (n : Z) (items more : list Value)
    (p : Protocol) :
  replies p !! reply = Some {| count := n; queue := items ++ more |} ->
  (length items = Z.to_nat n ->
     run (get_as_list reply) p
     = Finished (Ok (VList items)) (taken reply n more p)) /\
  ((length (items ++ more) < Z.to_nat n)%nat ->
     exists c, run (get_as_list reply) p = Blocked c (taken reply n [] p)).
Proof.
  intros Hr. unfold get_as_list. rewrite run_sync. unfold reply_count.
  rewrite Hr. cbn [count]. unfold range. rewrite length_seq. split.
  - intros <-. rewrite run_cbind, (get_items_spec reply n items more p Hr).
    reflexivity.
  - intros Hlen. rewrite run_cbind.
    destruct (get_items_blocks reply n (items ++ more) (Z.to_nat n) p Hr Hlen)
      as [c Hc].
    rewrite Hc. eauto.
Qed.

Lemma handle_results_forwards_in_order_witness :
  let p := receive mget_reply waiting_for_mget in
  run (handle_results 0 [1; 2; 3]%nat) p
  = Finished (Ok tt)
      (forwarded 0 {| count := 3; queue := [] |}
         [VStr (u "x"); VNone; VStr (u "z")] p).
Proof.
  intros p.
  assert (Hr : replies p !! 0%nat = Some {| count := 3; queue := [] |})
    by (vm_compute; reflexivity).
  assert (Hdone : Forall2 (fun f item => futures p !! f = Some (Done (Ok item)))
                    [1; 2; 3]%nat [VStr (u "x"); VNone; VStr (u "z")])
    by (repeat constructor; vm_compute; reflexivity).
  exact (proj1 (handle_results_forwards_in_order 0 _ [] _ p _ Hr Hdone)).
Defined.

Lemma get_as_list_in_order_witness :
  let p := forwarded 0 {| count := 3; queue := [] |}
             [VStr (u "x"); VNone; VStr (u "z")]
             (receive mget_reply waiting_for_mget) in
  run (get_as_list 0) p
  = Finished (Ok (VList [VStr (u "x"); VNone; VStr (u "z")])) (taken 0 3 [] p).
Proof.
  intros p.
  assert (Hr : replies p !! 0%nat
               = Some {| count := 3;
                         queue := [VStr (u "x"); VNone; VStr (u "z")] ++ [] |})
    by (vm_compute; reflexivity).
  apply (proj1 (get_as_list_in_order 0 3 _ [] p Hr)). reflexivity.
Defined.

(** ** Published messages *)

Lemma handle_multi_bulk_reply_pubsub (line : bytes) (n : Z) (p : Protocol) :
  _in_pubsub p = true ->
  int line = Ok n ->
  _handle_multi_bulk_reply line p = (Ok tt, pubsub_header n p).
Proof.
  intros Hps Hint.
  unfold _handle_multi_bulk_reply, bind, lift. rewrite Hint.
  unfold new_MultiBulkReply, gets. cbn [_in_pubsub with_replies]. rewrite Hps.
  unfold Task at 1. unfold modify. rewrite new_futures_spec.
  unfold appendleft_all, Task, modify, pubsub_header. reflexivity.
Qed.

Lemma get_items_empty (reply : nat) (n : Z) (turns : nat) (p : Protocol) :
  replies p !! reply = Some {| count := n; queue := [] |} ->
  run (get_items reply (S turns)) p = Blocked (get_items reply (S turns)) p.
Proof.
  intros Hr. cbn [get_items]. rewrite run_cbind. cbn [run]. rewrite Hr.
  reflexivity.
Qed.

Lemma hold_values_Forall2 (p : Protocol) (cs : list nat) (values : list str) :
  length cs = length values ->
  hold_values p cs values ->
  Forall2 (fun f item => futures p !! f = Some (Done (Ok item))) cs
    (map VStr values).
Proof.
  intros Hlen Hhold. apply Forall2_same_length_lookup_2.
  - by rewrite length_map.
  - intros i c item Hc Hitem. rewrite list_lookup_fmap in Hitem.
    destruct (values !! i) as [v|] eqn:Hv; [|discriminate].
    injection Hitem as <-. by apply (Hhold i).
Qed.

(** X18. A published message reaches the pubsub queue.  In pubsub mode
    a multi bulk reply is not an answer to a request: its header leaves
    the reply queue alone, its children are decoded as usual, and once
    the event loop has run the two tasks created for it, the reply is
    appended to the pubsub queue as one list, behind the messages that
    were already waiting, where [get_next_published] finds it.  This
    holds for a frame whose first item is the word 'message'. *)
Theorem published_message_is_delivered (args : list bytes) (values : list str)
    (p : Protocol) (msgs : list Value) :
  _buffer p = [] ->
  _in_bulk_reply p = false ->
  _in_pubsub p = true ->
  _messages_queue p = Some msgs ->
  tasks p = [] ->
  Forall2 (fun a v => decode (encoding p) a = Ok v) args values ->
  head values = Some (u "message") ->
  let message := VList (map VStr values) in
  let l := loop_turn
             (loop_turn {| protocol := receive (request args) p;
                           running := [] |}) in
  running l = [] /\
  tasks (protocol l) = [] /\
  _messages_queue (protocol l) = Some (msgs ++ [message]) /\
  _queue (protocol l) = _queue p /\
  transport (protocol l) = transport p /\
  (msgs = [] ->
     run get_next_published (protocol l)
     = Finished (Ok message) (with_messages_queue (Some []) (protocol l))).
Proof.
  intros Hbuf Hline Hps Hmsgs Htasks Hdec Hhead message l.
  set (n := Z.of_nat (length args)).
  set (reply := length (replies p)).
  set (children := seq (length (futures p)) (length args)).
  assert (Hn : Z.to_nat n = length args) by apply Nat2Z.id.
  assert (Hlen : length args = length values) by (by eapply Forall2_length).
  destruct values as [|word values']; [discriminate|].
  injection Hhead as ->.
  destruct args as [|a args']; [discriminate|].
  (* the frame is received *)
  assert (Hheader :
    data_received (b "*" ++ bytes_of_int n ++ CRLF) p
    = (Ok tt, pubsub_header n p)).
  { rewrite (app_assoc (b "*")), data_received_line.
    - rewrite Hbuf. cbn [app]. rewrite <- Hbuf, with_buffer_id.
      unfold dispatch. rewrite Hline, line_received_multi_bulk.
      apply handle_multi_bulk_reply_pubsub; [assumption|].
      apply int_bytes_of_int.
    - rewrite Hbuf. apply split_crlf_no_CR.
      constructor; [discriminate|].
      eapply Forall_impl; [apply bytes_of_int_decimal|].
      intros c Hc. apply (decimal_bytes_cases c Hc). }
  destruct (data_received_bulks (a :: args') (u "message" :: values')
              (pubsub_header n p) children (_queue p))
    as (p' & Hrun & Hq' & Hhold & Hout & Hrep & Htasks');
    try assumption; try reflexivity.
  { unfold pubsub_header, children. cbn [_queue with_tasks with_queue].
    by rewrite Hn. }
  { apply NoDup_seq. }
  { intros c Hc. apply elem_of_seq in Hc. unfold pubsub_header.
    cbn [futures with_futures with_queue with_tasks].
    rewrite lookup_app_r by lia. apply lookup_replicate_2. lia. }
  { unfold children. by rewrite length_seq. }
  assert (Hreceive : receive (request (a :: args')) p = p').
  { unfold receive.
    assert (Hreq : request (a :: args')
                   = (b "*" ++ bytes_of_int n ++ CRLF)
                     ++ concat (map bulk (a :: args')))
      by (unfold request; rewrite <- !app_assoc; reflexivity).
    by rewrite Hreq, data_received_app, Hheader, Hrun. }
  pose proof (data_received_same_request_state (request (a :: args')) p) as Hsame.
  fold (receive (request (a :: args')) p) in Hsame. rewrite Hreceive in Hsame.
  unfold same_request_state, request_state in Hsame.
  injection Hsame as Ht _ _ _ _ _ _ Hm.
  assert (Hr' : replies p' !! reply = Some {| count := n; queue := [] |}).
  { rewrite Hrep. unfold pubsub_header.
    cbn [replies with_replies with_futures with_queue with_tasks].
    by apply list_lookup_middle. }
  (* first turn of the loop *)
  set (items := map VStr (u "message" :: values')).
  set (waiting :=
         cbind
           (cbind (get_items reply (length (a :: args')))
              (fun items => Return (VList items)))
           (fun result =>
              match result with
              | VList (VStr s :: _) =>
                  if bool_decide (s = u "message")
                  then sync (messages_queue_put result)
                  else Raise AssertionError
              | VList (VStatus _ :: _) => Raise AttributeError
              | VList (_ :: _) => Raise AssertionError
              | _ => Raise IndexError
              end)).
  set (p1 := forwarded reply {| count := n; queue := [] |} items
               (with_tasks [] p')).
  assert (Hturn1 :
    loop_turn {| protocol := receive (request (a :: args')) p; running := [] |}
    = {| protocol := p1; running := [waiting] |}).
  { rewrite Hreceive. unfold loop_turn. cbn [protocol running app].
    rewrite Htasks'. unfold pubsub_header at 1. cbn [tasks with_tasks].
    rewrite Htasks, Hn. fold reply children.
    cbn [app map task_body run_tasks].
    unfold _handle_pubsub_multibulk_reply. rewrite run_cbind.
    unfold get_as_list. rewrite run_sync. unfold reply_count.
    change (replies (with_tasks [] p')) with (replies p'). rewrite Hr'.
    cbn [count]. unfold range. rewrite length_seq, Hn.
    rewrite run_cbind. cbn [length].
    rewrite (get_items_empty reply n _ (with_tasks [] p') Hr').
    rewrite <- (app_nil_r children).
    rewrite (handle_results_prefix reply [] children items (with_tasks [] p')
               {| count := n; queue := [] |} Hr').
    - reflexivity.
    - apply hold_values_Forall2; [|exact Hhold].
      unfold children. rewrite length_seq. exact Hlen. }
  (* second turn of the loop *)
  subst l. rewrite Hturn1. unfold loop_turn. cbn [protocol running].
  change (tasks p1) with (@nil TaskSpec). cbn [map app run_tasks].
  assert (Hr1 : replies (with_tasks [] p1) !! reply
                = Some {| count := n; queue := items ++ [] |}).
  { unfold p1, forwarded. cbn [replies with_replies with_tasks count queue].
    rewrite app_nil_r. apply list_lookup_insert_eq.
    by apply lookup_lt_Some in Hr'. }
  assert (Hitems : length (a :: args') = length items).
  { unfold items. rewrite length_map. exact Hlen. }
  unfold waiting. rewrite run_cbind, run_cbind, Hitems.
  rewrite (get_items_spec reply n items [] _ Hr1).
  cbn [run]. subst items. cbn [map].
  rewrite bool_decide_eq_true_2 by reflexivity.
  cbn [run sync]. unfold messages_queue_put.
  change (_messages_queue (taken reply n [] (with_tasks [] p1)))
    with (_messages_queue p').
  rewrite Hm, Hmsgs. cbn [run protocol running].
  split; [reflexivity|]. split; [reflexivity|]. split; [reflexivity|].
  split; [exact Hq'|]. split; [exact Ht|].
  intros ->. reflexivity.
Qed.

Lemma published_message_is_delivered_witness :
  let l := loop_turn
             (loop_turn
                {| protocol := receive (request [b "message"; b "ch"; b "hi"])
                                 subscribed;
                   running := [] |}) in
  run get_next_published (protocol l)
  = Finished (Ok (VList [VStr (u "message"); VStr (u "ch"); VStr (u "hi")]))
      (with_messages_queue (Some []) (protocol l)).
Proof.
  assert (Hdec : Forall2 (fun a v => decode (encoding subscribed) a = Ok v)
                   [b "message"; b "ch"; b "hi"] [u "message"; u "ch"; u "hi"]).
  { repeat constructor; vm_compute; reflexivity. }
  destruct (published_message_is_delivered
              [b "message"; b "ch"; b "hi"] [u "message"; u "ch"; u "hi"]
              subscribed [] eq_refl eq_refl eq_refl eq_refl eq_refl Hdec eq_refl)
    as (_ & _ & _ & _ & _ & Hnext).
  exact (Hnext eq_refl).
Defined.

(** ** A new connection *)

Lemma run_task_query (a : bytes) (args : list bytes) (p : Protocol) :
  exists c,
    run (cbind (_query (map ArgBytes (a :: args)) false None false)
           (fun _ => Return tt)) p
    = Blocked c (sent (a :: args) false p).
Proof.
  destruct (query_suspends a args false None false p) as [c Hc].
  rewrite run_cbind, Hc. eauto.
Qed.

(** The task that [connection_made] creates for the password is the
    coroutine that [_auth] returns; [_auth] raises what encoding the
    password raises. *)
Lemma auth_returns_query (pw : str) (p : Protocol) :
  _auth pw p =
  match encode (encoding p) pw with
  | Ok a => (Ok (auth_query a), p)
  | Err e => (Err e, p)
  end.
Proof.
  unfold _auth, _encode, bind, gets, lift, ret.
  destruct (encode (encoding p) pw); reflexivity.
Qed.

(** X19. A new connection logs in before anything else.  When the
    protocol has a password and a database number, the first turn of
    the event loop after [connection_made] writes the AUTH request and
    then the SELECT request, in that order, as the first bytes of the
    connection; their two replies are awaited at the head of the reply
    queue, and neither request marks the protocol as in use.  Without a
    password (or with an empty one) only SELECT is sent, and database 0
    is not selected. *)
Theorem connection_made_logs_in (enc : Codec) (pw : option str) (database : Z)
    (a : bytes) :
  match pw with
  | Some (c :: s) => encode enc (c :: s) = Ok a
  | _ => True
  end ->
  let l := loop_turn {| protocol := connection_made enc pw database;
                        running := [] |} in
  let auth := match pw with
              | Some (_ :: _) => [[b "auth"; a]]
              | _ => []
              end in
  let select := if bool_decide (database = 0) then []
                else [[b "select"; bytes_of_int database]] in
  transport (protocol l) = concat (map request (auth ++ select)) /\
  _queue (protocol l) = seq 0 (length (auth ++ select)) /\
  length (running l) = length (auth ++ select) /\
  in_use (protocol l) = false.
Proof.
  intros Henc l auth select. subst l auth select.
  unfold loop_turn, connection_made. cbn [protocol running app].
  destruct pw as [[|c s]|]; [|rewrite Henc|];
    destruct (bool_decide (database = 0));
    cbn [tasks with_tasks app map task_body run_tasks concat length seq];
    try (repeat split; reflexivity).
  - unfold _select, _encode_int.
    change [ArgBytes (b "select"); ArgBytes (bytes_of_int database)]
      with (map ArgBytes [b "select"; bytes_of_int database]).
    match goal with
    | |- context [run _ ?p0] =>
        destruct (run_task_query (b "select") [bytes_of_int database] p0)
          as [c1 ->]
    end.
    cbn [protocol running length]. rewrite app_nil_r.
    repeat split; reflexivity.
  - unfold auth_query.
    change [ArgBytes (b "auth"); ArgBytes a] with (map ArgBytes [b "auth"; a]).
    match goal with
    | |- context [run _ ?p0] =>
        destruct (run_task_query (b "auth") [a] p0) as [c1 ->]
    end.
    cbn [protocol running length]. rewrite app_nil_r.
    repeat split; reflexivity.
  - unfold auth_query.
    change [ArgBytes (b "auth"); ArgBytes a] with (map ArgBytes [b "auth"; a]).
    match goal with
    | |- context [run _ ?p0] =>
        destruct (run_task_query (b "auth") [a] p0) as [c1 ->]
    end.
    unfold _select, _encode_int.
    change [ArgBytes (b "select"); ArgBytes (bytes_of_int database)]
      with (map ArgBytes [b "select"; bytes_of_int database]).
    match goal with
    | |- context [run (cbind (_query _ _ _ _) _) ?p0] =>
        destruct (run_task_query (b "select") [bytes_of_int database] p0)
          as [c2 ->]
    end.
    cbn [protocol running length]. rewrite app_nil_r.
    repeat split; reflexivity.
  - unfold _select, _encode_int.
    change [ArgBytes (b "select"); ArgBytes (bytes_of_int database)]
      with (map ArgBytes [b "select"; bytes_of_int database]).
    match goal with
    | |- context [run _ ?p0] =>
        destruct (run_task_query (b "select") [bytes_of_int database] p0)
          as [c1 ->]
    end.
    cbn [protocol running length]. rewrite app_nil_r.
    repeat split; reflexivity.
Qed.

Lemma connection_made_logs_in_witness :
  transport
    (protocol
       (loop_turn {| protocol := connection_made utf8 (Some (u "secret")) 2;
                     running := [] |}))
  = request [b "auth"; b "secret"] ++ request [b "select"; b "2"].
Proof.
  assert (Henc : encode utf8 (u "secret") = Ok (b "secret"))
    by (vm_compute; reflexivity).
  destruct (connection_made_logs_in utf8 (Some (u "secret")) 2 (b "secret") Henc)
    as (Ht & _).
  rewrite Ht. vm_compute. reflexivity.
Defined.

(** ** More about the pool *)

Lemma shuffle_cons (c : Connection) (y : nat) (l : list nat) :
  _transport_protocol_pairs c = y :: l ->
  _transport_protocol_pairs (Connection._shuffle_protocols c) = l ++ [y].
Proof. intros H. rewrite shuffle_pairs, H. reflexivity. Qed.

Lemma filter_none {A} (P : A -> Prop) `{!forall x, Decision (P x)} (l : list A) :
  (forall x, x ∈ l -> ~ P x) -> filter P l = [].
Proof.
  induction l as [|x l IH]; intros Hl; [reflexivity|].
  rewrite filter_cons_False by (apply Hl, elem_of_cons; by left).
  apply IH. intros y Hy. apply Hl, elem_of_cons. by right.
Qed.

Lemma getattr_first_free (name : string) (c : Connection) (l1 l2 : list nat)
    (i : nat) :
  name ∈ _all_commands ->
  _transport_protocol_pairs (Connection._shuffle_protocols c) = l1 ++ i :: l2 ->
  (forall j, j ∈ l1 -> Connection.protocol_in_use c j = true) ->
  Connection.protocol_in_use c i = false ->
  Connection.__getattr__ name c = (Ok i, Connection._shuffle_protocols c).
Proof.
  intros Hname Hpairs Hbusy Hfree. unfold Connection.__getattr__.
  rewrite bool_decide_eq_true_2 by exact Hname.
  unfold Connection._get_free_protocol. rewrite Hpairs.
  rewrite filter_app, filter_cons_True by (by rewrite shuffle_in_use).
  rewrite filter_none; [reflexivity|].
  intros j Hj. rewrite shuffle_in_use, (Hbusy j Hj). discriminate.
Qed.

Lemma iter_shuffle_in_use (k : nat) (c : Connection) (i : nat) :
  Connection.protocol_in_use (Nat.iter k Connection._shuffle_protocols c) i
  = Connection.protocol_in_use c i.
Proof. induction k as [|k IH]; [reflexivity|]. simpl. by rewrite shuffle_in_use. Qed.

Lemma selections_S (name : string) (k : nat) (c : Connection) :
  selections name (S k) c
  = let '(r, c1) := Connection.__getattr__ name c in
    let '(rs, c2) := selections name k c1 in
    (r :: rs, c2).
Proof. reflexivity. Qed.

Lemma selections_free (name : string) :
  name ∈ _all_commands ->
  forall (l2 l1 : list nat) (y : nat) (c : Connection),
    _transport_protocol_pairs c = y :: l2 ++ l1 ->
    (forall i, i ∈ l2 -> Connection.protocol_in_use c i = false) ->
    selections name (length l2) c
    = (map Ok l2, Nat.iter (length l2) Connection._shuffle_protocols c).
Proof.
  intros Hname.
  induction l2 as [|z l2 IH]; intros l1 y c Hpairs Hfree; [reflexivity|].
  cbn [length selections].
  rewrite (getattr_first_free name c [] (l2 ++ l1 ++ [y]) z Hname).
  - rewrite (IH (l1 ++ [y]) z (Connection._shuffle_protocols c)).
    + cbn [map]. by rewrite Nat.iter_succ_r.
    + rewrite (shuffle_cons c y _ Hpairs). cbn [app].
      by rewrite <- app_assoc.
    + intros i Hi. rewrite shuffle_in_use. apply Hfree, elem_of_cons. by right.
  - rewrite (shuffle_cons c y _ Hpairs). cbn [app]. by rewrite <- app_assoc.
  - intros j Hj. by apply elem_of_nil in Hj.
  - apply Hfree, elem_of_cons. by left.
Qed.

Lemma iter_shuffle_pairs (c : Connection) (l1 : list nat) :
  forall l2 : list nat,
    _transport_protocol_pairs c = l1 ++ l2 ->
    _transport_protocol_pairs (Nat.iter (length l1) Connection._shuffle_protocols c)
    = l2 ++ l1.
Proof.
  induction l1 as [|y l1 IH] using rev_ind; intros l2 Hpairs.
  - by rewrite app_nil_r.
  - rewrite length_app, Nat.add_1_r, Nat.iter_succ.
    rewrite <- app_assoc in Hpairs.
    rewrite (shuffle_cons _ y (l2 ++ l1)) by (by rewrite (IH _ Hpairs)).
    by rewrite <- app_assoc.
Qed.

Lemma iter_shuffle_id (c : Connection) :
  Nat.iter (length (_transport_protocol_pairs c)) Connection._shuffle_protocols c
  = c.
Proof.
  pose proof (iter_shuffle_pairs c (_transport_protocol_pairs c) []
                (eq_sym (app_nil_r _))) as Hpairs.
  cbn [app] in Hpairs.
  assert (Hrest : forall k,
            _poolsize (Nat.iter k Connection._shuffle_protocols c) = _poolsize c /\
            protocols (Nat.iter k Connection._shuffle_protocols c) = protocols c).
  { induction k as [|k [IH1 IH2]]; [done|]. simpl. auto. }
  destruct (Hrest (length (_transport_protocol_pairs c))) as [H1 H2].
  destruct (Nat.iter _ _ c) as [ps pairs prots], c as [ps0 pairs0 prots0].
  simpl in *. congruence.
Qed.

Lemma selections_all_free (name : string) (c : Connection) :
  name ∈ _all_commands ->
  (forall i, i ∈ _transport_protocol_pairs c ->
     Connection.protocol_in_use c i = false) ->
  selections name (length (_transport_protocol_pairs c)) c
  = (map Ok (drop 1 (_transport_protocol_pairs c)
             ++ take 1 (_transport_protocol_pairs c)), c).
Proof.
  intros Hname Hfree.
  pose proof (iter_shuffle_id c) as Hid.
  destruct (_transport_protocol_pairs c) as [|y l] eqn:Hpairs; [reflexivity|].
  cbn [drop take]. rewrite drop_0.
  destruct l as [|z l].
  - cbn [length selections app map].
    rewrite (getattr_first_free name c [] [] y Hname).
    + f_equal. exact Hid.
    + by rewrite (shuffle_cons c y [] Hpairs).
    + intros j Hj. by apply elem_of_nil in Hj.
    + apply Hfree. apply elem_of_cons. by left.
  - cbn [length]. rewrite selections_S.
    rewrite (getattr_first_free name c [] (l ++ [y]) z Hname).
    + pose proof (selections_free name Hname (l ++ [y]) [] z
                    (Connection._shuffle_protocols c)) as Hsel.
      rewrite length_app, Nat.add_1_r in Hsel. rewrite Hsel.
      * cbn [app map]. rewrite <- Nat.iter_succ_r.
        cbn [length] in Hid. by rewrite Hid.
      * rewrite (shuffle_cons c y _ Hpairs). cbn [app]. by rewrite app_nil_r.
      * intros i Hi. rewrite shuffle_in_use. apply Hfree.
        apply elem_of_app in Hi as [Hi|Hi].
        -- apply elem_of_cons. right. apply elem_of_cons. by right.
        -- apply list_elem_of_singleton in Hi as ->. apply elem_of_cons. by left.
    + by rewrite (shuffle_cons c y _ Hpairs).
    + intros j Hj. by apply elem_of_nil in Hj.
    + apply Hfree. apply elem_of_cons. right.
      apply elem_of_cons. by left.
Qed.

(** X20. The pool is a round robin.  When no protocol of the pool is in
    use (and as long as the commands handed out do not make one busy),
    as many selections as the pool has protocols hand out every protocol
    exactly once, in the order of the list starting with its second
    entry and ending with its first, and leave the pool in the order it
    had before. *)
Theorem pool_round_robin (name : string) (c : Connection) :
  name ∈ _all_commands ->
  (forall i, i ∈ _transport_protocol_pairs c ->
     Connection.protocol_in_use c i = false) ->
  let served := drop 1 (_transport_protocol_pairs c)
                ++ take 1 (_transport_protocol_pairs c) in
  selections name (length (_transport_protocol_pairs c)) c
  = (map Ok served, c) /\
  served ≡ₚ _transport_protocol_pairs c /\
  (NoDup (_transport_protocol_pairs c) -> NoDup served).
Proof.
  intros Hname Hfree served.
  assert (Hperm : served ≡ₚ _transport_protocol_pairs c).
  { unfold served. rewrite Permutation_app_comm. by rewrite take_drop. }
  split; [by apply selections_all_free|]. split; [exact Hperm|].
  intros Hnd. by rewrite Hperm.
Qed.

Lemma pool_round_robin_witness :
  selections "get" 3 (Connection.create 3 None 0)
  = ([Ok 1%nat; Ok 2%nat; Ok 0%nat], Connection.create 3 None 0).
Proof.
  assert (Hname : "get"%string ∈ _all_commands)
    by (apply (bool_decide_unpack _); vm_compute; reflexivity).
  assert (Hfree : forall i,
            i ∈ _transport_protocol_pairs (Connection.create 3 None 0) ->
            Connection.protocol_in_use (Connection.create 3 None 0) i = false).
  { intros i Hi.
    change (i ∈ [0; 1; 2]%nat) in Hi.
    repeat (apply elem_of_cons in Hi as [->|Hi]);
      [vm_compute; reflexivity..|by apply elem_of_nil in Hi]. }
  exact (proj1 (pool_round_robin "get" (Connection.create 3 None 0) Hname Hfree)).
Defined.

(** X21. The pool prefers the first free protocol.  After the rotation,
    the protocols that are in use at the head of the list are skipped
    and the first one that is not in use is handed out, whatever comes
    after it. *)
Theorem pool_skips_busy_protocols (name : string) (c : Connection)
    (busy rest : list nat) (i : nat) :
  name ∈ _all_commands ->
  drop 1 (_transport_protocol_pairs c) ++ take 1 (_transport_protocol_pairs c)
  = busy ++ i :: rest ->
  (forall j, j ∈ busy -> Connection.protocol_in_use c j = true) ->
  Connection.protocol_in_use c i = false ->
  Connection.__getattr__ name c = (Ok i, Connection._shuffle_protocols c).
Proof.
  intros Hname Hpairs Hbusy Hfree.
  apply (getattr_first_free name c busy rest i Hname);
    [by rewrite shuffle_pairs|assumption..].
Qed.

Lemma pool_skips_busy_protocols_witness :
  Connection.__getattr__ "get" example_pool
  = (Ok 2%nat, Connection._shuffle_protocols example_pool).
Proof.
  assert (Hname : "get"%string ∈ _all_commands)
    by (apply (bool_decide_unpack _); vm_compute; reflexivity).
  apply (pool_skips_busy_protocols "get" example_pool [1%nat] [0%nat] 2%nat Hname).
  - reflexivity.
  - intros j Hj. apply list_elem_of_singleton in Hj as ->. vm_compute. reflexivity.
  - vm_compute. reflexivity.
Defined.

Lemma filter_all {A} (P : A -> Prop) `{!forall x, Decision (P x)} (l : list A) :
  (forall x, x ∈ l -> P x) -> filter P l = l.
Proof.
  induction l as [|x l IH]; intros Hl; [reflexivity|].
  rewrite filter_cons_True by (apply Hl, elem_of_cons; by left).
  f_equal. apply IH. intros y Hy. apply Hl, elem_of_cons. by right.
Qed.

Lemma getattr_exhausted (name : string) (c : Connection) :
  name ∈ _all_commands ->
  (Connection.__getattr__ name c).1 = Err (RedisException PoolInUse) <->
  (forall i, i ∈ _transport_protocol_pairs c ->
     Connection.protocol_in_use c i = true).
Proof.
  intros Hname. unfold Connection.__getattr__.
  rewrite bool_decide_eq_true_2 by exact Hname.
  unfold Connection._get_free_protocol.
  set (cs := Connection._shuffle_protocols c).
  destruct (head (filter (fun i => Connection.protocol_in_use cs i = false)
                    (_transport_protocol_pairs cs))) as [i|] eqn:Hhead; simpl.
  - apply head_filter_Some in Hhead as [Hfree Hin].
    apply (proj1 (shuffle_elem_of c i)) in Hin.
    split; [discriminate|]. intros Hall. specialize (Hall i Hin).
    unfold cs in Hfree. rewrite shuffle_in_use in Hfree. congruence.
  - split; [|reflexivity]. intros _ i Hin.
    destruct (Connection.protocol_in_use c i) eqn:Hi; [reflexivity|].
    assert (Hfree : i ∈ filter (fun i => Connection.protocol_in_use cs i = false)
                          (_transport_protocol_pairs cs)).
    { apply list_elem_of_filter.
      split; [exact Hi|by apply (proj2 (shuffle_elem_of c i))]. }
    destruct (filter _ _); [by apply elem_of_nil in Hfree | discriminate].
Qed.

(** X22. [connections_in_use] tells when the pool is exhausted.  It
    never exceeds the number of protocols of the pool, and a command
    requested from the pool fails with 'All connection in the pool are
    in use' exactly when it equals that number. *)
Theorem pool_exhausted_iff (name : string) (c : Connection) :
  name ∈ _all_commands ->
  (Connection.connections_in_use c <= length (_transport_protocol_pairs c))%nat /\
  ((Connection.__getattr__ name c).1 = Err (RedisException PoolInUse) <->
   Connection.connections_in_use c = length (_transport_protocol_pairs c)).
Proof.
  intros Hname. unfold Connection.connections_in_use.
  split; [apply length_filter|].
  rewrite (getattr_exhausted name c Hname). split.
  - intros Hall. by rewrite filter_all.
  - intros Hlen i Hi.
    destruct (Connection.protocol_in_use c i) eqn:Hfree; [reflexivity|].
    exfalso.
    assert (Hlt : (length (filter (fun i => Connection.protocol_in_use c i = true)
                             (_transport_protocol_pairs c))
                   < length (_transport_protocol_pairs c))%nat).
    { apply (length_filter_lt _ _ i Hi). cbn beta. congruence. }
    lia.
Qed.

Lemma pool_exhausted_iff_witness :
  (Connection.connections_in_use example_pool <= 3)%nat /\
  (Connection.__getattr__ "get"
     {| _poolsize := 1; _transport_protocol_pairs := [0%nat];
        protocols := [transaction_started] |}).1
  = Err (RedisException PoolInUse).
Proof.
  assert (Hname : "get"%string ∈ _all_commands)
    by (apply (bool_decide_unpack _); vm_compute; reflexivity).
  split.
  - exact (proj1 (pool_exhausted_iff "get" example_pool Hname)).
  - apply (proj2 (pool_exhausted_iff "get" _ Hname)). vm_compute. reflexivity.
Defined.

(** The first loop turn of a new connection: the login requests are
    written, which starts every task and leaves the protocol free. *)
Lemma first_turn_of_connection (enc : Codec) (pw : option str) (database : Z) :
  let p := protocol (loop_turn {| protocol := connection_made enc pw database;
                                  running := [] |}) in
  in_use p = false /\ tasks p = [].
Proof.
  unfold loop_turn, connection_made. cbn [protocol running app].
  destruct pw as [[|c s]|]; [|destruct (encode enc (c :: s)) as [a|e]|];
    try destruct (bool_decide (database = 0));
    cbn [tasks with_tasks app map task_body run_tasks];
    try (split; reflexivity);
    unfold auth_query, _select, _encode_int;
    repeat match goal with
    | |- context [run (cbind (_query [ArgBytes ?x; ArgBytes ?y] false None false) _)
                    ?p0] =>
        change [ArgBytes x; ArgBytes y] with (map ArgBytes [x; y]);
        destruct (run_task_query x [y] p0) as [? ->]
    end;
    split; reflexivity.
Qed.

(** X23. A new pool is idle and serves its protocols in turn, whatever
    password and database it logs in with.  [Connection.create] with
    pool size [n] makes [n] protocols.  By the time [create] returns,
    each of them has started its login tasks, so the AUTH and SELECT
    requests are on their way and their replies may still be awaited;
    these requests do not mark a protocol as in use.  So
    [connections_in_use] is 0 and [n] commands in a row are handed to
    [n] different protocols, the second protocol first and the first
    one last.  A pool size of zero or less gives a pool without
    protocols, from which every command fails with the pool-exhausted
    error. *)
Theorem created_pool (name : string) (n : Z) (pw : option str) (database : Z) :
  name ∈ _all_commands ->
  let c := Connection.create n pw database in
  length (_transport_protocol_pairs c) = Z.to_nat n /\
  (forall i, i ∈ _transport_protocol_pairs c ->
     exists p, protocols c !! i = Some p /\ in_use p = false /\ tasks p = []) /\
  Connection.connections_in_use c = 0%nat /\
  selections name (Z.to_nat n) c
  = (map Ok (seq 1 (Z.to_nat n - 1) ++ take 1 (seq 0 (Z.to_nat n))), c) /\
  (n <= 0 -> (Connection.__getattr__ name c).1 = Err (RedisException PoolInUse)).
Proof.
  intros Hname c.
  destruct (first_turn_of_connection utf8 pw database) as [Hidle Hstarted].
  assert (Hprot : forall i, i ∈ _transport_protocol_pairs c ->
            exists p, protocols c !! i = Some p /\ in_use p = false /\ tasks p = []).
  { intros i Hi. eexists. split; [|split; [exact Hidle|exact Hstarted]].
    unfold c, Connection.create, range in *.
    cbn [_transport_protocol_pairs protocols] in *.
    apply elem_of_seq in Hi. rewrite length_seq.
    apply lookup_replicate_2. lia. }
  assert (Hfree : forall i, i ∈ _transport_protocol_pairs c ->
            Connection.protocol_in_use c i = false).
  { intros i Hi. unfold Connection.protocol_in_use.
    destruct (Hprot i Hi) as (p & -> & Hp & _). exact Hp. }
  split; [apply length_seq|]. split; [exact Hprot|].
  split; [|split].
  - unfold Connection.connections_in_use. rewrite filter_none; [reflexivity|].
    intros i Hi. rewrite (Hfree i Hi). discriminate.
  - pose proof (selections_all_free name c Hname Hfree) as Hsel.
    change (_transport_protocol_pairs c) with (seq 0 (Z.to_nat n)) in Hsel.
    rewrite length_seq in Hsel. rewrite Hsel. do 2 f_equal.
    destruct (Z.to_nat n) as [|k]; [reflexivity|].
    replace (S k - 1)%nat with k by lia.
    cbn [seq drop]. by rewrite drop_0.
  - intros Hn. apply (getattr_exhausted name c Hname).
    change (_transport_protocol_pairs c) with (seq 0 (Z.to_nat n)).
    replace (Z.to_nat n) with 0%nat by lia. intros i Hi.
    by apply elem_of_nil in Hi.
Qed.

Lemma created_pool_witness :
  let c := Connection.create 2 (Some (u "secret")) 1 in
  Connection.connections_in_use c = 0%nat /\
  selections "set" 2 c = ([Ok 1%nat; Ok 0%nat], c).
Proof.
  assert (Hname : "set"%string ∈ _all_commands)
    by (apply (bool_decide_unpack _); vm_compute; reflexivity).
  destruct (created_pool "set" 2 (Some (u "secret")) 1 Hname)
    as (_ & _ & Huse & Hsel & _).
  intros c. split; [exact Huse|exact Hsel].
Defined.

(** ** Text on the wire *)

Lemma land_shiftl_low (a k b : N) : (b < 2 ^ k)%N -> N.land (N.shiftl a k) b = 0%N.
Proof.
  intros Hb. apply N.bits_inj. intros i.
  rewrite N.land_spec, N.bits_0.
  destruct (N.lt_ge_cases i k) as [Hlt|Hge].
  - by rewrite N.shiftl_spec_low.
  - rewrite <- (N.mod_small b (2 ^ k)) by exact Hb.
    rewrite N.mod_pow2_bits_high by exact Hge. apply andb_false_r.
Qed.

Lemma lor_shiftl_low (a k b : N) :
  (b < 2 ^ k)%N -> N.lor (N.shiftl a k) b = (a * 2 ^ k + b)%N.
Proof.
  intros Hb.
  rewrite <- N.lxor_lor, <- N.add_nocarry_lxor by (by apply land_shiftl_low).
  by rewrite N.shiftl_mul_pow2.
Qed.

Lemma byte_of_N_small (e : exn) (n : N) :
  (n < 256)%N -> exists c, byte_of_N e n = Ok c /\ Byte.to_N c = n.
Proof.
  intros Hn. unfold byte_of_N.
  destruct (Byte.of_N n) as [c|] eqn:Hc.
  - exists c. split; [reflexivity|]. by apply Byte.to_of_N.
  - apply Byte.of_N_None_iff in Hc. lia.
Qed.

Lemma cont_value (n : N) : N.lor 128 (N.land n 63) = (128 + n mod 64)%N.
Proof.
  change 128%N with (N.shiftl 2 6) at 1. change 63%N with (N.ones 6).
  rewrite N.land_ones, lor_shiftl_low; [reflexivity|].
  by apply N.mod_lt.
Qed.

Lemma lead_value (a k h : N) :
  (h < 2 ^ k)%N -> N.lor (N.shiftl a k) h = (a * 2 ^ k + h)%N.
Proof. apply lor_shiftl_low. Qed.

Lemma land_ones_add (a k h : N) :
  (h < 2 ^ k)%N -> N.land (a * 2 ^ k + h) (N.ones k) = h.
Proof.
  intros Hh. rewrite N.land_ones.
  rewrite N.add_comm, N.Div0.mod_add. by apply N.mod_small.
Qed.

Lemma forall_below (P : N -> bool) (k : nat) :
  forallb P (map N.of_nat (seq 0 k)) = true ->
  forall n, (n < N.of_nat k)%N -> P n = true.
Proof.
  intros H n Hn. rewrite forallb_forall in H. apply H.
  apply in_map_iff. exists (N.to_nat n). split; [apply N2Nat.id|].
  apply in_seq. lia.
Qed.

Lemma is_cont_value (l : N) (c : byte) :
  (l < 64)%N -> Byte.to_N c = (128 + l)%N ->
  is_cont c = true /\ cont_bits c = l.
Proof.
  intros Hl Hc. unfold is_cont, cont_bits. rewrite Hc. split.
  - apply (forall_below (fun l => (N.land (128 + l) 192 =? 128)%N) 64);
      [vm_compute; reflexivity|exact Hl].
  - change 63%N with (N.ones 6). change (128 + l)%N with (2 * 2 ^ 6 + l)%N.
    by apply land_ones_add.
Qed.

Lemma cont_byte (n : N) :
  exists c1,
    byte_of_N UnicodeEncodeError (N.lor 128 (N.land n 63)) = Ok c1 /\
    is_cont c1 = true /\ cont_bits c1 = (n mod 64)%N.
Proof.
  assert (Hl : (n mod 64 < 64)%N) by (by apply N.mod_lt).
  rewrite cont_value.
  destruct (byte_of_N_small UnicodeEncodeError (128 + n mod 64)) as (c1 & H1 & Hv1);
    [lia|].
  exists c1. split; [exact H1|]. by apply is_cont_value.
Qed.

Lemma lead_byte (a k h : N) :
  (h < 2 ^ k)%N -> (a * 2 ^ k + h < 256)%N ->
  exists c0,
    byte_of_N UnicodeEncodeError (N.lor (N.shiftl a k) h) = Ok c0 /\
    Byte.to_N c0 = (a * 2 ^ k + h)%N /\
    N.land (Byte.to_N c0) (N.ones k) = h.
Proof.
  intros Hh Hlt. rewrite lor_shiftl_low by exact Hh.
  destruct (byte_of_N_small UnicodeEncodeError (a * 2 ^ k + h) Hlt)
    as (c0 & H0 & Hv0).
  exists c0. split; [exact H0|]. split; [exact Hv0|].
  rewrite Hv0. by apply land_ones_add.
Qed.

Lemma utf8_decode_1 (c0 : byte) (r : bytes) :
  (Byte.to_N c0 < 128)%N ->
  utf8_decode (c0 :: r) = push (Byte.to_N c0) (utf8_decode r).
Proof.
  intros H. cbn [utf8_decode].
  destruct (N.ltb_spec (Byte.to_N c0) 128); [reflexivity|lia].
Qed.

Lemma utf8_decode_2 (c0 c1 : byte) (r : bytes) :
  (194 <= Byte.to_N c0 < 224)%N ->
  is_cont c1 = true ->
  utf8_decode (c0 :: c1 :: r)
  = push (N.lor (N.shiftl (N.land (Byte.to_N c0) 31) 6) (cont_bits c1))
      (utf8_decode r).
Proof.
  intros H H1. cbn [utf8_decode]. rewrite H1.
  destruct (N.ltb_spec (Byte.to_N c0) 128); [lia|].
  destruct (N.ltb_spec (Byte.to_N c0) 194); [lia|].
  destruct (N.ltb_spec (Byte.to_N c0) 224); [reflexivity|lia].
Qed.

Lemma utf8_decode_3 (c0 c1 c2 : byte) (r : bytes) :
  (224 <= Byte.to_N c0 < 240)%N ->
  is_cont c1 = true -> is_cont c2 = true ->
  let cp := N.lor (N.shiftl (N.land (Byte.to_N c0) 15) 12)
              (N.lor (N.shiftl (cont_bits c1) 6) (cont_bits c2)) in
  (2048 <= cp)%N -> ~ (55296 <= cp <= 57343)%N ->
  utf8_decode (c0 :: c1 :: c2 :: r) = push cp (utf8_decode r).
Proof.
  intros H H1 H2 cp Hlow Hsur. cbn [utf8_decode]. rewrite H1, H2. fold cp.
  destruct (N.ltb_spec (Byte.to_N c0) 128); [lia|].
  destruct (N.ltb_spec (Byte.to_N c0) 194); [lia|].
  destruct (N.ltb_spec (Byte.to_N c0) 224); [lia|].
  destruct (N.ltb_spec (Byte.to_N c0) 240); [|lia].
  destruct (N.leb_spec 2048 cp); [|lia].
  destruct (N.leb_spec 55296 cp); destruct (N.leb_spec cp 57343);
    try reflexivity; lia.
Qed.

Lemma utf8_decode_4 (c0 c1 c2 c3 : byte) (r : bytes) :
  (240 <= Byte.to_N c0 < 245)%N ->
  is_cont c1 = true -> is_cont c2 = true -> is_cont c3 = true ->
  let cp := N.lor (N.shiftl (N.land (Byte.to_N c0) 7) 18)
              (N.lor (N.shiftl (cont_bits c1) 12)
                 (N.lor (N.shiftl (cont_bits c2) 6) (cont_bits c3))) in
  (65536 <= cp < 1114112)%N ->
  utf8_decode (c0 :: c1 :: c2 :: c3 :: r) = push cp (utf8_decode r).
Proof.
  intros H H1 H2 H3 cp Hcp. cbn [utf8_decode]. rewrite H1, H2, H3. fold cp.
  destruct (N.ltb_spec (Byte.to_N c0) 128); [lia|].
  destruct (N.ltb_spec (Byte.to_N c0) 194); [lia|].
  destruct (N.ltb_spec (Byte.to_N c0) 224); [lia|].
  destruct (N.ltb_spec (Byte.to_N c0) 240); [lia|].
  destruct (N.ltb_spec (Byte.to_N c0) 245); [|lia].
  destruct (N.leb_spec 65536 cp); [|lia].
  destruct (N.ltb_spec cp 1114112); [reflexivity|lia].
Qed.

Lemma shiftr_6 (c : N) : N.shiftr c 6 = (c / 64)%N.
Proof. by rewrite N.shiftr_div_pow2. Qed.

Lemma shiftr_12 (c : N) : N.shiftr c 12 = (c / 64 / 64)%N.
Proof. by rewrite N.shiftr_div_pow2, N.Div0.div_div. Qed.

Lemma shiftr_18 (c : N) : N.shiftr c 18 = (c / 64 / 64 / 64)%N.
Proof. by rewrite N.shiftr_div_pow2, !N.Div0.div_div. Qed.

Lemma split_64 (c : N) :
  (c = 64 * (c / 64) + c mod 64 /\ c mod 64 < 64)%N.
Proof. split; [apply N.div_mod'|by apply N.mod_lt]. Qed.

(** [lia] after the quotients and remainders by 64 have been
    abstracted. *)
Ltac forget_div64 :=
  repeat match goal with
         | |- context [(?a mod 64)%N] =>
             let r := fresh "r" in
             let E := fresh in remember (a mod 64)%N as r eqn:E; clear E
         | H : context [(?a mod 64)%N] |- _ =>
             let r := fresh "r" in
             let E := fresh in remember (a mod 64)%N as r eqn:E; clear E
         | |- context [(?a / 64)%N] =>
             let q := fresh "q" in
             let E := fresh in remember (a / 64)%N as q eqn:E; clear E
         | H : context [(?a / 64)%N] |- _ =>
             let q := fresh "q" in
             let E := fresh in remember (a / 64)%N as q eqn:E; clear E
         end.
Ltac lia64 := forget_div64; lia.

Lemma utf8_char_round_trip (c : N) (bs r : bytes) :
  utf8_encode_char c = Ok bs ->
  utf8_decode (bs ++ r) = push c (utf8_decode r).
Proof.
  unfold utf8_encode_char. cbv zeta.
  destruct (split_64 c) as [Hc0 Hl0].
  destruct (split_64 (c / 64)) as [Hc1 Hl1].
  destruct (split_64 (c / 64 / 64)) as [Hc2 Hl2].
  destruct (N.ltb_spec c 128) as [H128|H128].
  { destruct (byte_of_N_small UnicodeEncodeError c) as (c0 & H0 & Hv0); [lia|].
    rewrite H0. cbn [traverse]. intros [= <-]. cbn [app].
    rewrite utf8_decode_1 by lia. by rewrite Hv0. }
  destruct (N.ltb_spec c 2048) as [H2048|H2048].
  { rewrite shiftr_6.
    destruct (lead_byte 6 5 (c / 64)) as (c0 & H0 & Hv0 & Hb0);
      [change (2 ^ 5)%N with 32%N; lia64..|].
    change (N.shiftl 6 5) with 192%N in H0.
    change (6 * 2 ^ 5)%N with 192%N in Hv0. change (N.ones 5) with 31%N in Hb0.
    destruct (cont_byte c) as (c1 & H1 & Hk1 & Hb1).
    rewrite H0, H1. cbn [traverse]. intros [= <-]. cbn [app].
    rewrite utf8_decode_2 by (assumption || (rewrite Hv0; lia64)).
    rewrite Hb0, Hb1, lor_shiftl_low by exact Hl0.
    change (2 ^ 6)%N with 64%N. f_equal. lia64. }
  destruct (N.ltb_spec c 65536) as [H65536|H65536].
  { destruct ((55296 <=? c)%N && (c <=? 57343)%N) eqn:Hsur; [discriminate|].
    rewrite shiftr_12, shiftr_6.
    destruct (lead_byte 14 4 (c / 64 / 64)) as (c0 & H0 & Hv0 & Hb0);
      [change (2 ^ 4)%N with 16%N; lia64..|].
    change (N.shiftl 14 4) with 224%N in H0.
    change (14 * 2 ^ 4)%N with 224%N in Hv0. change (N.ones 4) with 15%N in Hb0.
    destruct (cont_byte (c / 64)) as (c1 & H1 & Hk1 & Hb1).
    destruct (cont_byte c) as (c2 & H2 & Hk2 & Hb2).
    rewrite H0, H1, H2. cbn [traverse]. intros [= <-]. cbn [app].
    assert (Hcp : N.lor (N.shiftl (N.land (Byte.to_N c0) 15) 12)
                    (N.lor (N.shiftl (cont_bits c1) 6) (cont_bits c2)) = c).
    { rewrite Hb0, Hb1, Hb2, (lor_shiftl_low _ 6) by exact Hl0.
      change (2 ^ 6)%N with 64%N.
      rewrite lor_shiftl_low by (change (2 ^ 12)%N with 4096%N; lia64).
      change (2 ^ 12)%N with 4096%N. lia64. }
    rewrite utf8_decode_3; rewrite ?Hcp, ?Hv0; try assumption; try lia64.
    - reflexivity.
    - apply andb_false_iff in Hsur as [Hsur|Hsur];
        [apply N.leb_gt in Hsur|apply N.leb_gt in Hsur]; lia. }
  destruct (N.ltb_spec c 1114112) as [Hmax|Hmax]; [|discriminate].
  rewrite shiftr_18, shiftr_12, shiftr_6.
  destruct (lead_byte 30 3 (c / 64 / 64 / 64)) as (c0 & H0 & Hv0 & Hb0);
    [change (2 ^ 3)%N with 8%N; lia64..|].
  change (N.shiftl 30 3) with 240%N in H0.
  change (30 * 2 ^ 3)%N with 240%N in Hv0. change (N.ones 3) with 7%N in Hb0.
  destruct (cont_byte (c / 64 / 64)) as (c1 & H1 & Hk1 & Hb1).
  destruct (cont_byte (c / 64)) as (c2 & H2 & Hk2 & Hb2).
  destruct (cont_byte c) as (c3 & H3 & Hk3 & Hb3).
  rewrite H0, H1, H2, H3. cbn [traverse]. intros [= <-]. cbn [app].
  assert (Hcp : N.lor (N.shiftl (N.land (Byte.to_N c0) 7) 18)
                  (N.lor (N.shiftl (cont_bits c1) 12)
                     (N.lor (N.shiftl (cont_bits c2) 6) (cont_bits c3))) = c).
  { rewrite Hb0, Hb1, Hb2, Hb3, (lor_shiftl_low _ 6) by exact Hl0.
    change (2 ^ 6)%N with 64%N.
    rewrite (lor_shiftl_low _ 12) by (change (2 ^ 12)%N with 4096%N; lia64).
    change (2 ^ 12)%N with 4096%N.
    rewrite lor_shiftl_low by (change (2 ^ 18)%N with 262144%N; lia64).
    change (2 ^ 18)%N with 262144%N. lia64. }
  rewrite utf8_decode_4; rewrite ?Hcp, ?Hv0; try assumption; try lia64.
  reflexivity.
Qed.

Lemma utf8_round_trip (s : str) :
  forall bs, utf8_encode s = Ok bs -> utf8_decode bs = Ok s.
Proof.
  unfold utf8_encode.
  induction s as [|c s IH]; intros bs; cbn [traverse].
  - by intros [= <-].
  - destruct (utf8_encode_char c) as [bc|e] eqn:Hc; [|discriminate].
    destruct (traverse utf8_encode_char s) as [l|e]; [|discriminate].
    intros [= <-]. cbn [concat].
    rewrite (utf8_char_round_trip c bc _ Hc), (IH (concat l) eq_refl).
    reflexivity.
Qed.

Lemma ascii_round_trip (s : str) :
  forall bs, ascii_encode s = Ok bs -> ascii_decode bs = Ok s.
Proof.
  unfold ascii_encode, ascii_decode.
  induction s as [|c s IH]; intros bs; cbn [traverse].
  - by intros [= <-].
  - destruct (N.ltb_spec c 128) as [Hc|Hc]; [|discriminate].
    destruct (byte_of_N_small UnicodeEncodeError c) as (c0 & H0 & Hv0); [lia|].
    rewrite H0.
    destruct (traverse _ s) as [l|e] eqn:Hs; [|discriminate].
    intros [= <-]. cbn [traverse]. rewrite Hv0.
    destruct (N.ltb_spec c 128); [|lia].
    by rewrite (IH l eq_refl).
Qed.

(** X24. Text survives the wire.  With the default 'utf-8' encoding (or
    with 'ascii'), the bytes that [_encode] makes of a string are
    decoded by [_decode] to that same string, for every string that can
    be encoded at all; so when the server sends these bytes back as a
    bulk reply, the waiting future is resolved with the string that was
    sent, whatever characters it holds. *)
Theorem encoded_text_is_read_back (p : Protocol) (s : str) (a : bytes)
    (f : nat) (q : list nat) :
  encoding p = utf8 \/ encoding p = ascii ->
  encode (encoding p) s = Ok a ->
  _encode s p = (Ok a, p) /\
  _decode a p = (Ok s, p) /\
  (_buffer p = [] -> _in_bulk_reply p = false ->
   _queue p = f :: q -> futures p !! f = Some Pending ->
   data_received (bulk a) p = (Ok tt, bulk_answered s f q p)).
Proof.
  intros Henc Ha.
  assert (Hdec : decode (encoding p) a = Ok s).
  { destruct Henc as [Henc|Henc]; rewrite Henc in Ha |- *.
    - by apply utf8_round_trip.
    - by apply ascii_round_trip. }
  split; [|split].
  - unfold _encode, bind, gets, lift. by rewrite Ha.
  - unfold _decode, bind, gets, lift. by rewrite Hdec.
  - intros Hbuf Hline Hq Hf. by apply data_received_bulk.
Qed.

Lemma encoded_text_is_read_back_witness :
  let s := [104; 233; 8364; 10; 128512]%N in
  futures
    (data_received (bulk [x68; xc3; xa9; xe2; x82; xac; x0a; xf0; x9f; x98; x80])
       waiting_for_get).2
  = [Done (Ok (VStr s))].
Proof.
  intros s.
  assert (Ha : encode (encoding waiting_for_get) s
               = Ok [x68; xc3; xa9; xe2; x82; xac; x0a; xf0; x9f; x98; x80])
    by (vm_compute; reflexivity).
  destruct (encoded_text_is_read_back waiting_for_get s _ 0%nat []
              (or_introl eq_refl) Ha) as (_ & _ & Hwire).
  rewrite (Hwire eq_refl eq_refl eq_refl eq_refl). reflexivity.
Defined.

(** ** Commands and their replies *)

(** X25. A command checks the type of its reply.  Outside a
    transaction, a command whose method is a plain query sends its
    request and suspends; when the reply arrives, the call record is
    removed and the reply is returned if it is an instance of one of
    the classes of the return annotation, and [TypeError] is raised in
    the caller otherwise. *)
Theorem command_checks_reply_type (return_type : list PyClass) (stray : exn)
    (a : bytes) (args : list bytes) (p : Protocol) :
  _in_transaction p = false ->
  let method := _query (map ArgBytes (a :: args)) false None false in
  let f := length (futures p) in
  let call := length (calls p) in
  exists c,
    run (_command (Some return_type) stray method None) p
    = Blocked c (sent (a :: args) false p) /\
    forall p2 v,
      _in_transaction p2 = false ->
      call ∈ _pipelined_calls p2 ->
      futures p2 !! f = Some (Done (Ok v)) ->
      run c p2
      = Finished (if isinstance v return_type then Ok v else Err TypeError)
          (with_pipelined_calls (_pipelined_calls p2 ∖ {[ call ]}) p2).
Proof.
  intros Htx method f call. subst method.
  destruct (query_unfold a args false None false p) as (c0 & _ & Hq).
  eexists. split.
  { unfold _command. rewrite run_gets. unfold in_transaction.
    rewrite Htx, run_gets. cbn [andb]. rewrite run_cbind, Hq. reflexivity. }
  intros p2 v Hmode Hcall Hf.
  assert (Hm : _in_transaction p2 && negb false = false) by (by rewrite Hmode).
  rewrite run_cbind, (query_plain _ _ _ _ _ _ _ _ _ Hq Hf Hm).
  rewrite bool_decide_eq_true_2 by exact Hcall.
  rewrite run_sync. unfold typecheck_return.
  destruct (isinstance v return_type); reflexivity.
Qed.

Lemma command_checks_reply_type_witness :
  let p := connection_made utf8 None 0 in
  let p2 := receive (b ":1" ++ CRLF) (sent [b "get"; b "k"] false p) in
  exists c,
    run (_command (Some [class_str; class_NoneType]) TypeError
           (_query (map ArgBytes [b "get"; b "k"]) false None false) None) p
    = Blocked c (sent [b "get"; b "k"] false p) /\
    run c p2
    = Finished (Err TypeError)
        (with_pipelined_calls (_pipelined_calls p2 ∖ {[ 0%nat ]}) p2).
Proof.
  intros p p2.
  destruct (command_checks_reply_type [class_str; class_NoneType] TypeError
              (b "get") [b "k"] p eq_refl) as (c & Hrun & Hresume).
  exists c. split; [exact Hrun|].
  assert (Hmode : _in_transaction p2 = false) by (vm_compute; reflexivity).
  assert (Hcall : length (calls p) ∈ _pipelined_calls p2)
    by (apply (bool_decide_unpack _); vm_compute; reflexivity).
  assert (Hf : futures p2 !! length (futures p) = Some (Done (Ok (VInt 1))))
    by (vm_compute; reflexivity).
  exact (Hresume p2 (VInt 1) Hmode Hcall Hf).
Defined.

Lemma encode_all_spec (keys : list str) (ks : list bytes) (p : Protocol) :
  Forall2 (fun k a => encode (encoding p) k = Ok a) keys ks ->
  encode_all keys p = (Ok (map ArgBytes ks), p).
Proof.
  induction 1 as [|k a keys ks Hk _ IH]; [reflexivity|].
  cbn [encode_all map]. unfold _encode, bind, gets, lift.
  by rewrite Hk, IH.
Qed.

Lemma await_blocks {B} (f : nat) (h : Value -> Coro B) (p : Protocol) :
  futures p !! f = Some Pending ->
  run (cbind (await f) h) p = Blocked (cbind (await f) h) p.
Proof. intros Hf. cbn [cbind await run]. by rewrite Hf. Qed.

Lemma await_done {B} (f : nat) (h : Value -> Coro B) (p : Protocol) (v : Value) :
  futures p !! f = Some (Done (Ok v)) ->
  run (cbind (await f) h) p = run (h v) p.
Proof. intros Hf. cbn [cbind await run]. by rewrite Hf. Qed.

Lemma get_answer_as_list (_bypass : bool) (call : nat)
    (p p1 p2 : Protocol) (c : Coro Value) (reply : nat) (n : Z)
    (items more : list Value) :
  run (_get_answer _bypass (Some multibulk_as_list) (Some call)) p = Blocked c p1 ->
  futures p2 !! length (futures p) = Some (Done (Ok (VMultiBulk reply))) ->
  _in_transaction p2 && negb _bypass = false ->
  replies p2 !! reply = Some {| count := n; queue := items ++ more |} ->
  length items = Z.to_nat n ->
  call ∈ _pipelined_calls p2 ->
  run c p2
  = Finished (Ok (VList items))
      (with_pipelined_calls (_pipelined_calls p2 ∖ {[ call ]})
         (taken reply n more p2)).
Proof.
  unfold _get_answer. rewrite run_sync. unfold Future at 1.
  rewrite run_sync. unfold append, modify.
  rewrite await_blocks
    by (cbn [futures with_queue with_futures]; by apply list_lookup_middle).
  intros Hc Hf Hmode Hr Hlen Hcall.
  match type of Hc with
  | Blocked ?c0 _ = _ => assert (Hc0 : c = c0) by congruence
  end.
  rewrite Hc0, (await_done _ _ _ _ Hf), run_gets, Hmode.
  cbn [post_process].
  rewrite run_cbind, (get_as_list_spec reply n items more p2 Hr Hlen).
  rewrite run_sync. unfold remove_call.
  change (_pipelined_calls (taken reply n more p2)) with (_pipelined_calls p2).
  by rewrite bool_decide_eq_true_2.
Qed.

(** X26. [mget] returns the values in the order of the reply.  On a
    protocol with no request outstanding, [mget] writes the request
    [mget key ...] and suspends.  When the server answers with a multi
    bulk reply of bulk strings and the event loop has run the task that
    moves them to the reply's queue, the command returns the list of
    the decoded values, in wire order; its call record is removed and
    the reply queue is empty again. *)
Theorem mget_returns_values_in_order (keys : list str) (ks payloads : list bytes)
    (values : list str) (p : Protocol) :
  _in_transaction p = false ->
  _in_pubsub p = false ->
  _buffer p = [] ->
  _in_bulk_reply p = false ->
  _queue p = [] ->
  tasks p = [] ->
  Forall2 (fun k a => encode (encoding p) k = Ok a) keys ks ->
  Forall2 (fun a v => decode (encoding p) a = Ok v) payloads values ->
  let s1 := run (mget keys None) p in
  let l := loop_turn {| protocol := receive (request payloads) (outcome_state s1);
                        running := [] |} in
  let s2 := resume s1 (protocol l) in
  result s1 = None /\
  outcome_state s1 = sent (b "mget" :: ks) false p /\
  running l = [] /\
  result s2 = Some (Ok (VList (map VStr values))) /\
  _queue (outcome_state s2) = [] /\
  length (calls p) ∉ _pipelined_calls (outcome_state s2).
Proof.
  intros Htx Hps Hbuf Hline Hqueue Htasks Hkeys Hdec s1 l s2.
  set (p1 := sent (b "mget" :: ks) false p).
  set (f := length (futures p)).
  set (call := length (calls p)).
  destruct (query_unfold (b "mget") ks false (Some multibulk_as_list) false p)
    as (c0 & Hc0 & Hq).
  (* the command is sent *)
  assert (Hs1 : exists c, s1 = Blocked c p1 /\
            forall p2 p3 items,
              run c0 p2 = Finished (Ok (VList items)) p3 ->
              run c p2 = Finished (Ok (VList items)) p3).
  { eexists. split.
    - unfold s1, mget, _command. rewrite run_gets. unfold in_transaction.
      rewrite Htx, run_gets. cbn [andb]. rewrite run_cbind, run_sync.
      rewrite (encode_all_spec keys ks p Hkeys).
      change (ArgBytes (b "mget") :: map ArgBytes ks)
        with (map ArgBytes (b "mget" :: ks)).
      rewrite Hq. reflexivity.
    - intros p2 p3 its Hrun. rewrite run_cbind, run_cbind, Hrun.
      cbn [run]. rewrite run_sync. reflexivity. }
  destruct Hs1 as (c & Hs1 & Hc).
  (* the reply is received *)
  destruct (data_received_request payloads values p1 f [])
    as (p' & Hrun & Hq' & Hf' & Hrep & Hhold & Htasks'); try assumption.
  { unfold p1, sent, awaiting_answer, written.
    cbn [_queue with_queue with_futures with_transport with_pipelined_calls
         with_calls]. by rewrite Hqueue. }
  { unfold p1, sent, awaiting_answer, written.
    cbn [futures with_queue with_futures with_transport with_pipelined_calls
         with_calls]. by apply list_lookup_middle. }
  assert (Hreceive : receive (request payloads) p1 = p')
    by (unfold receive; by rewrite Hrun).
  pose proof (data_received_same_request_state (request payloads) p1) as Hsame.
  fold (receive (request payloads) p1) in Hsame. rewrite Hreceive in Hsame.
  unfold same_request_state, request_state in Hsame.
  injection Hsame as _ _ Htx' _ _ Hpc _ _.
  (* the loop moves the children to the queue of the reply *)
  set (reply := length (replies p1)) in *.
  set (children := seq (length (futures p1)) (length payloads)) in *.
  set (items := map VStr values).
  set (n := Z.of_nat (length payloads)) in *.
  assert (Hlen : length payloads = length values) by (by eapply Forall2_length).
  assert (Hr' : replies p' !! reply = Some {| count := n; queue := [] |}).
  { rewrite Hrep. by apply list_lookup_middle. }
  set (pl := forwarded reply {| count := n; queue := [] |} items (with_tasks [] p')).
  assert (Hl : l = {| protocol := pl; running := [] |}).
  { unfold l. rewrite Hs1. cbn [outcome_state]. rewrite Hreceive.
    unfold loop_turn. cbn [protocol running app]. rewrite Htasks'.
    change (tasks p1) with (tasks p). rewrite Htasks.
    cbn [app map task_body run_tasks].
    rewrite <- (app_nil_r children).
    rewrite (handle_results_prefix reply [] children items (with_tasks [] p')
               {| count := n; queue := [] |} Hr').
    - reflexivity.
    - apply hold_values_Forall2; [|exact Hhold].
      unfold children. rewrite length_seq. exact Hlen. }
  (* the command continues *)
  assert (Hs2 : s2 = Finished (Ok (VList items))
                  (with_pipelined_calls (_pipelined_calls pl ∖ {[ call ]})
                     (taken reply n [] pl))).
  { unfold s2. rewrite Hs1, Hl. cbn [protocol resume].
    assert (Hanswer :
      run c0 pl = Finished (Ok (VList items))
                    (with_pipelined_calls (_pipelined_calls pl ∖ {[ call ]})
                       (taken reply n [] pl))).
    { apply (get_answer_as_list false call _ _ pl c0 reply n items [] Hc0).
      - exact Hf'.
      - change (_in_transaction pl) with (_in_transaction p').
        rewrite Htx'. change (_in_transaction p1) with (_in_transaction p).
        by rewrite Htx.
      - unfold pl, forwarded. cbn [replies with_replies with_tasks count queue].
        rewrite app_nil_r. apply list_lookup_insert_eq.
        by apply lookup_lt_Some in Hr'.
      - unfold items, n. by rewrite length_map, Nat2Z.id.
      - change (_pipelined_calls pl) with (_pipelined_calls p'). rewrite Hpc.
        apply elem_of_union_l, elem_of_singleton. reflexivity. }
    by apply Hc. }
  rewrite Hs1, Hl, Hs2. cbn [result outcome_state running].
  do 4 (split; [reflexivity|]). split; [exact Hq'|].
  cbn [_pipelined_calls with_pipelined_calls].
  rewrite elem_of_difference, elem_of_singleton. tauto.
Qed.

Lemma mget_returns_values_in_order_witness :
  let p := connection_made utf8 None 0 in
  let s1 := run (mget [u "a"; u "b"] None) p in
  let l := loop_turn {| protocol := receive (request [b "x"; b "y"])
                                      (outcome_state s1);
                        running := [] |} in
  result (resume s1 (protocol l)) = Some (Ok (VList [VStr (u "x"); VStr (u "y")])).
Proof.
  intros p s1 l.
  assert (Hkeys : Forall2 (fun k a => encode (encoding p) k = Ok a)
                    [u "a"; u "b"] [b "a"; b "b"])
    by (repeat constructor; vm_compute; reflexivity).
  assert (Hdec : Forall2 (fun a v => decode (encoding p) a = Ok v)
                   [b "x"; b "y"] [u "x"; u "y"])
    by (repeat constructor; vm_compute; reflexivity).
  destruct (mget_returns_values_in_order [u "a"; u "b"] [b "a"; b "b"]
              [b "x"; b "y"] [u "x"; u "y"] p
              eq_refl eq_refl eq_refl eq_refl eq_refl eq_refl Hkeys Hdec)
    as (_ & _ & _ & Hresult & _).
  exact Hresult.
Defined.
